(** * Output router and forwarder lifecycle of the map-UDF vertex

    A shallow embedding of [pkg/udf/map_udf.go]:

    - [GetPartitionedBufferIdx], the round-robin partition counter;
    - the [conditionalForwarder] closure built by [MapUDFProcessor.Start],
      which decides the destination partitions of one outgoing record;
    - the control flow of [MapUDFProcessor.Start] itself: provisioning,
      the per-partition loop, the join and the ordered teardown.

    Go's [int] is taken to be 64 bits wide (the amd64 and arm64 targets);
    [int32] conversions truncate.  A Go map is a [gmap]; reading a missing
    key yields the zero value.  A run-time panic is an explicit outcome. *)

From Stdlib Require Import ZArith Lia List.
From stdpp Require Import gmap strings list sorting.

Open Scope Z_scope.

(** ** Machine integers *)

Module GoInt.

Definition int_min : Z := - 2 ^ 63.
Definition int_max : Z := 2 ^ 63 - 1.

(** Values of Go's [int]. *)
Definition is_int (z : Z) : Prop := int_min <= z <= int_max.

(** Two's complement wrap-around of [int] arithmetic. *)
Definition wrap_int (z : Z) : Z := (z + 2 ^ 63) mod 2 ^ 64 - 2 ^ 63.

(** The conversion [int32(z)]. *)
Definition to_int32 (z : Z) : Z := (z + 2 ^ 31) mod 2 ^ 32 - 2 ^ 31.

End GoInt.

(** ** Outcomes of Go code that may panic *)

Inductive panic : Type :=
| DivideByZero        (* integer divide by zero *)
| NilDereference      (* invalid memory address or nil pointer dereference *)
| IndexOutOfRange.    (* index out of range *)

Inductive outcome (A : Type) : Type :=
| Ok (a : A)
| Panic (p : panic).

Arguments Ok {A} a.
Arguments Panic {A} p.

(** Code that threads a state [S] and may panic. *)
Definition M (S A : Type) : Type := S -> outcome (A * S).

Definition ret {S A} (a : A) : M S A := fun s => Ok (a, s).

Definition bind {S A B} (c : M S A) (k : A -> M S B) : M S B :=
  fun s => match c s with
           | Ok (a, s') => k a s'
           | Panic p => Panic p
           end.

Notation "'call!' x ':=' c 'in' k" := (bind c (fun x => k))
  (at level 10, x pattern, c at level 100, k at level 200).

(** ** The partition counter, [GetPartitionedBufferIdx] *)

(** [messagePerPartitionMap[toVertex]]: a missing key reads as [0]. *)
Definition map_read (messagePerPartitionMap : gmap string Z) (toVertex : string) : Z :=
  default 0 (messagePerPartitionMap !! toVertex).

(** The closure returned by [GetPartitionedBufferIdx], as a transition on
    the captured [messagePerPartitionMap].  Go's [%] is the truncated
    remainder and panics on a zero divisor, before the map is written. *)
Definition getVertexPartitionIdx (toVertex : string) (toVertexPartitionCount : Z)
  : M (gmap string Z) Z :=
  fun messagePerPartitionMap =>
    if decide (toVertexPartitionCount = 0) then Panic DivideByZero
    else
      let toVertexPartition :=
        Z.rem (GoInt.wrap_int (map_read messagePerPartitionMap toVertex + 1))
              toVertexPartitionCount in
      Ok (GoInt.to_int32 toVertexPartition,
          <[toVertex := toVertexPartition]> messagePerPartitionMap).

(** [GetPartitionedBufferIdx()] allocates a fresh, empty map. *)
Definition GetPartitionedBufferIdx : gmap string Z := ∅.

(** The states a counter closure can be in: the fresh one, and whatever a
    call with a partition count of at least one leaves behind. *)
Inductive reachable : gmap string Z -> Prop :=
| reach_fresh : reachable GetPartitionedBufferIdx
| reach_call m toVertex count idx m' :
    reachable m ->
    GoInt.is_int count ->
    1 <= count ->
    getVertexPartitionIdx toVertex count m = Ok (idx, m') ->
    reachable m'.

(** [n] consecutive calls for one destination; the returned indices are
    collected in call order. *)
Definition consecutive_calls (n : N) (toVertex : string) (count : Z)
  : M (gmap string Z) (list Z) :=
  N.iter n
    (fun earlier =>
       call! out := earlier in
       call! idx := getVertexPartitionIdx toVertex count in
       ret (out ++ [idx]))
    (ret []).

(** The sequence [1 mod P, 2 mod P, ..., n mod P]. *)
Definition round_robin (n : N) (P : Z) : list Z :=
  (fun k => k mod P) <$> seqZ 1 (Z.of_N n).

(** Every stored counter is a remainder of an earlier call. *)
Definition counters_ok (m : gmap string Z) : Prop :=
  forall k v, m !! k = Some v -> 0 <= v < GoInt.int_max.

(** The counter of a destination after [n] consecutive calls on a map in
    which it was fresh. *)
Definition after_calls (n : N) (toVertex : string) (P : Z) (m : gmap string Z)
  : gmap string Z :=
  if decide (n = 0%N) then m else <[toVertex := Z.of_N n mod P]> m.

(** Two counter maps agree when every destination reads the same in both;
    a missing entry and a stored zero read alike. *)
Definition agree (c1 c2 : gmap string Z) : Prop :=
  forall toVertex, map_read c1 toVertex = map_read c2 toVertex.

(** Two runs end alike: with the same panic, or with the same value and
    counters that agree. *)
Definition same_outcome {A : Type} (o1 o2 : outcome (A * gmap string Z)) : Prop :=
  match o1, o2 with
  | Ok (a1, c1), Ok (a2, c2) => a1 = a2 /\ agree c1 c2
  | Panic p1, Panic p2 => p1 = p2
  | _, _ => False
  end.

(** ** Topology edges

    The declarations live in package [dfv1], outside this file; the records
    below carry the fields and getters the router reads. *)

(** Modelled from the spec: [dfv1.VertexType], the kind of a vertex; the
    router only asks whether a destination is a keyed-aggregation (reduce)
    vertex. *)
Inductive VertexType : Type :=
| VertexTypeSource
| VertexTypeSink
| VertexTypeMapUDF
| VertexTypeReduceUDF.

Global Instance VertexType_eq_dec : EqDecision VertexType.
Proof. solve_decision. Defined.

(** Modelled from the spec: [dfv1.LogicOperator], the logical operator of
    a tag-match condition. *)
Inductive LogicOperator : Type :=
| LogicOperatorAnd
| LogicOperatorOr
| LogicOperatorNot.

(** [edge.Conditions.Tags]: the operator as [GetOperator()] reports it, and
    the required values. *)
Record TagConditions : Type := {
  GetOperator : LogicOperator;
  Values : list string;
}.

(** [edge.Conditions]; the [Tags] pointer may be nil. *)
Record ForwardConditions : Type := {
  Tags : option TagConditions;
}.

(** [dfv1.Edge]; the [Conditions] pointer may be nil, and
    [GetToVertexPartitionCount] is what the getter of that name returns. *)
Record Edge : Type := {
  From : string;
  To : string;
  Conditions : option ForwardConditions;
  ToVertexType : VertexType;
  GetToVertexPartitionCount : Z;
}.

(** [forward.VertexBuffer] *)
Record VertexBuffer : Type := {
  ToVertexName : string;
  ToVertexPartitionIdx : Z;
}.

(** The object built by [shuffle.NewShuffle(vertexName, buffersCount)]. *)
Record Shuffle : Type := NewShuffle {
  vertexName : string;
  buffersCount : Z;
}.

(** A Go [error]; [nil] is [None]. *)
Definition error : Type := option string.
Definition nil_error : error := None.

(** Modelled from the spec: [sharedutil.StringSliceContains], which is not
    part of this file; "tags contains the drop sentinel". *)
Definition StringSliceContains (list : list string) (str : string) : bool :=
  bool_decide (str ∈ list).

(** [fmt.Sprintf("%s:%s", edge.From, edge.To)] *)
Definition shuffleKey (edge : Edge) : string :=
  (From edge ++ ":" ++ To edge)%string.

(** The guard [edge.ToVertexType == dfv1.VertexTypeReduceUDF &&
    edge.GetToVertexPartitionCount() > 1]. *)
Definition needShuffle (edge : Edge) : bool :=
  bool_decide (ToVertexType edge = VertexTypeReduceUDF)
  && (1 <? GetToVertexPartitionCount edge).

(** One turn of the loop of lines 166-171. *)
Definition populateStep (shuffleFuncMap : gmap string Shuffle) (edge : Edge)
  : gmap string Shuffle :=
  if needShuffle edge then
    let s := NewShuffle (To edge) (GetToVertexPartitionCount edge) in
    <[shuffleKey edge := s]> shuffleFuncMap
  else shuffleFuncMap.

(** Lines 165-171: the shuffle function map of one input partition. *)
Definition populateShuffleFuncMap (ToEdges : list Edge) : gmap string Shuffle :=
  foldl populateStep ∅ ToEdges.

(** A shuffle function map serves an edge list when every edge that
    takes the shuffle branch finds its entry. *)
Definition serves (sfm : gmap string Shuffle) (edges : list Edge) : Prop :=
  forall edge, edge ∈ edges -> needShuffle edge = true ->
               is_Some (sfm !! shuffleKey edge).

(** The guard of line 184, [edge.Conditions == nil || edge.Conditions.Tags
    == nil || len(edge.Conditions.Tags.Values) == 0], read as a lookup:
    [None] when the guard holds, the tag conditions otherwise. *)
Definition tagConditions (edge : Edge) : option TagConditions :=
  match Conditions edge with
  | None => None
  | Some conditions =>
      match Tags conditions with
      | None => None
      | Some tags => if (length (Values tags) =? 0)%nat then None else Some tags
      end
  end.

(** The collaborators of the router that live in other packages:
    [dfv1.MessageTagDrop], [sharedutil.CompareSlice] and the [Shuffle]
    method of [shuffle.Shuffle]. *)
Class Collaborators : Type := {
  MessageTagDrop : string;
  CompareSlice : LogicOperator -> list string -> list string -> bool;
  ShuffleKeys : Shuffle -> list string -> Z;
}.

Section Router.

Context {ext : Collaborators}.

(** [shuffleFuncMap[key].Shuffle(keys)]: a missing key reads as a nil
    pointer, and the method call on it panics. *)
Definition shuffleLookup (shuffleFuncMap : gmap string Shuffle) (key : string)
    (keys : list string) : M (gmap string Z) Z :=
  fun counters =>
    match shuffleFuncMap !! key with
    | Some s => Ok (ShuffleKeys s keys, counters)
    | None => Panic NilDereference
    end.

(** The body of the loop over [ToEdges], lines 183-212. *)
Definition forwardEdge (shuffleFuncMap : gmap string Shuffle)
    (keys tags : list string) (result : list VertexBuffer) (edge : Edge)
  : M (gmap string Z) (list VertexBuffer) :=
  match tagConditions edge with
  | None =>
      if needShuffle edge then
        call! toVertexPartition :=
          shuffleLookup shuffleFuncMap (shuffleKey edge) keys in
        ret (result ++ [{| ToVertexName := To edge;
                           ToVertexPartitionIdx := toVertexPartition |}])
      else
        call! idx :=
          getVertexPartitionIdx (To edge) (GetToVertexPartitionCount edge) in
        ret (result ++ [{| ToVertexName := To edge;
                           ToVertexPartitionIdx := idx |}])
  | Some conditionTags =>
      if CompareSlice (GetOperator conditionTags) tags (Values conditionTags) then
        if needShuffle edge then
          call! toVertexPartition :=
            shuffleLookup shuffleFuncMap (shuffleKey edge) keys in
          ret (result ++ [{| ToVertexName := To edge;
                             ToVertexPartitionIdx := toVertexPartition |}])
        else
          call! idx :=
            getVertexPartitionIdx (To edge) (GetToVertexPartitionCount edge) in
          ret (result ++ [{| ToVertexName := To edge;
                             ToVertexPartitionIdx := idx |}])
      else ret result
  end.

(** [for _, edge := range ToEdges { ... }] *)
Fixpoint forEdges (shuffleFuncMap : gmap string Shuffle)
    (keys tags : list string) (result : list VertexBuffer) (ToEdges : list Edge)
  : M (gmap string Z) (list VertexBuffer) :=
  match ToEdges with
  | [] => ret result
  | edge :: rest =>
      call! result' := forwardEdge shuffleFuncMap keys tags result edge in
      forEdges shuffleFuncMap keys tags result' rest
  end.

(** The function handed to [forward.GoWhere], lines 175-215, over the
    captured edge list, shuffle function map and partition counter. *)
Definition route (ToEdges : list Edge) (shuffleFuncMap : gmap string Shuffle)
    (keys tags : list string) : M (gmap string Z) (list VertexBuffer * error) :=
  let result := [] in
  if StringSliceContains tags MessageTagDrop then ret (result, nil_error)
  else
    call! result' := forEdges shuffleFuncMap keys tags result ToEdges in
    ret (result', nil_error).

(** The closure as [Start] builds it for one input partition: its shuffle
    function map is populated from the very edge list it routes over. *)
Definition conditionalForwarder (ToEdges : list Edge)
    (keys tags : list string) : M (gmap string Z) (list VertexBuffer * error) :=
  route ToEdges (populateShuffleFuncMap ToEdges) keys tags.

(** The match condition in the words of the specification: no condition,
    or an empty required-value set, always matches; otherwise the edge's
    operator decides over the tags and the required values. *)
Definition spec_matched (tags : list string) (edge : Edge) : bool :=
  match Conditions edge with
  | None => true
  | Some conditions =>
      match Tags conditions with
      | None => true
      | Some t =>
          match Values t with
          | [] => true
          | _ => CompareSlice (GetOperator t) tags (Values t)
          end
      end
  end.

End Router.

(** ** The lifecycle: [MapUDFProcessor.Start]

    [Start] is modelled as the sequential program of the calling goroutine.
    Every collaborator outside this file answers from a [World]; what
    [Start] does to the outside is recorded as a trace of events. *)

Inductive ISBSvc : Type :=
| ISBSvcTypeRedis
| ISBSvcTypeJetStream
| ISBSvcTypeOther (name : string).

Inductive go_result (A : Type) : Type :=
| Success (a : A)
| Failure (err : string).

Arguments Success {A} a.
Arguments Failure {A} err.

(** A watermark publisher and a watermark store, each with the answer its
    [Close] gives. *)
Record Publisher : Type := {
  publisherName : string;
  publisherClose : error;
}.

Record WatermarkStore : Type := {
  storeName : string;
  storeClose : error;
}.

Record World : Type := {
  ISBSvcType : ISBSvc;                       (* u.ISBSvcType *)
  WatermarkDisabled : bool;                  (* Vertex.Spec.Watermark.Disabled *)
  OwnedBuffers : list string;                (* Vertex.OwnedBuffers() *)
  NewClientPool : error;
  BuildNoOpWatermarkProgressors : list Publisher;
  buildRedisBufferIO : go_result (list string);
  BuildProcessorManagers : go_result (list string);
  BuildToVertexWatermarkStores : go_result (list WatermarkStore);
  BuildPublishersFromStores : list Publisher;
  buildJetStreamBufferIO : go_result (list string);
  MapUdfStreamEnabled : go_result bool;
  mapstreamer_New : error;
  mapper_New : error;
  WaitUntilReady : error;
  CloseConn : error;
  NewInterStepDataForward : nat -> error;    (* by partition index *)
  MetricsServerStart : error;
}.

(** The fallible calls of the provisioning phase and of the run. *)
Inductive callee : Type :=
| CallNewClientPool
| CallBuildRedisBufferIO
| CallBuildProcessorManagers
| CallBuildToVertexWatermarkStores
| CallBuildJetStreamBufferIO
| CallMapUdfStreamEnabled
| CallMapStreamerNew
| CallMapperNew
| CallWaitUntilReady
| CallNewInterStepDataForward (index : nat)
| CallMetricsServerStart.

Inductive resource : Type :=
| ProcessorManager (name : string)
| WatermarkPublisher (name : string)
| WmStore (name : string)
| HandlerConn
| NatsClientPool
| MetricsServer.

Inductive event : Type :=
| EvCall (c : callee) (err : error)        (* a fallible call and its answer *)
| EvUnrecognized (name : string)           (* the default case of the switch *)
| EvAdd                                    (* finalWg.Add(1) *)
| EvGo (fromBufferPartitionName : string)  (* go func(...) {...}(...) *)
| EvWait                                   (* finalWg.Wait() *)
| EvClose (r : resource) (err : error)     (* a Close and its answer *)
| EvLogError (r : resource)                (* log.Errorw / log.Warnw on a failed Close *)
| EvCancel.                                (* cancel() *)

Global Instance callee_eq_dec : EqDecision callee.
Proof. solve_decision. Defined.
Global Instance resource_eq_dec : EqDecision resource.
Proof. solve_decision. Defined.
Global Instance event_eq_dec : EqDecision event.
Proof. solve_decision. Defined.

(** How a run of [Start] ends. *)
Inductive exit : Type :=
| Returned (err : error)
| Panicked (p : panic).

(** A piece of [Start]: the events it emits, the deferred functions it
    registers (most recent first; each is the list of events it emits when
    it runs), and how it ends: it goes on with a value, or leaves [Start]
    by [return] or by a panic. *)
Record Run (A : Type) : Type := MkRun {
  emitted : list event;
  deferred : list (list event);
  result : A + exit;
}.

Arguments MkRun {A} emitted deferred result.
Arguments emitted {A} r.
Arguments deferred {A} r.
Arguments result {A} r.

Definition pure {A} (a : A) : Run A := MkRun [] [] (inl a).

Definition andThen {A B} (c : Run A) (k : A -> Run B) : Run B :=
  match result c with
  | inl a =>
      MkRun (emitted c ++ emitted (k a)) (deferred (k a) ++ deferred c)
            (result (k a))
  | inr x => MkRun (emitted c) (deferred c) (inr x)
  end.

Notation "'do!' x ':=' c 'in' k" := (andThen c (fun x => k))
  (at level 10, x pattern, c at level 100, k at level 200).
Notation "c ';;;' k" := (andThen c (fun _ => k))
  (at level 100, k at level 200, right associativity).

Definition emit (e : event) : Run unit := MkRun [e] [] (inl tt).

Definition defer (body : list event) : Run unit := MkRun [] [body] (inl tt).

Definition return_ {A} (err : error) : Run A := MkRun [] [] (inr (Returned err)).

Definition panic_ {A} (p : panic) : Run A := MkRun [] [] (inr (Panicked p)).

(** [x, err := call(); if err != nil { return wrap(err) }] *)
Definition try {A} (c : callee) (answer : go_result A) (wrap : string -> string)
  : Run A :=
  match answer with
  | Success a => emit (EvCall c nil_error) ;;; pure a
  | Failure err => emit (EvCall c (Some err)) ;;; return_ (Some (wrap err))
  end.

(** The same for a call that answers with an error only. *)
Definition check (c : callee) (answer : error) (wrap : string -> string)
  : Run unit :=
  match answer with
  | None => emit (EvCall c nil_error)
  | Some err => emit (EvCall c (Some err)) ;;; return_ (Some (wrap err))
  end.

Fixpoint forEach {A} (body : A -> Run unit) (l : list A) : Run unit :=
  match l with
  | [] => pure tt
  | x :: rest => body x ;;; forEach body rest
  end.

(** [for index, x := range l], from [index] on. *)
Fixpoint forEachIndexed {A} (body : nat -> A -> Run unit) (index : nat) (l : list A)
  : Run unit :=
  match l with
  | [] => pure tt
  | x :: rest => body index x ;;; forEachIndexed body (S index) rest
  end.

(** What the provisioning switch of lines 77-118 leaves in the local
    variables. *)
Record Provisioned : Type := {
  readers : list string;
  processorManagers : list string;
  wmStores : list WatermarkStore;
  publishWatermark : list Publisher;
}.

(** [%q] of a name of printable ASCII characters: the name between double
    quotes, with a backslash before every double quote and every backslash
    in it. *)
Fixpoint escaped (name : string) : string :=
  match name with
  | EmptyString => EmptyString
  | String c rest =>
      if (Ascii.nat_of_ascii c =? 34)%nat || (Ascii.nat_of_ascii c =? 92)%nat
      then String (Ascii.ascii_of_nat 92) (String c (escaped rest))
      else String c (escaped rest)
  end.

Definition quoted (name : string) : string :=
  String (Ascii.ascii_of_nat 34)
         (escaped name ++ String (Ascii.ascii_of_nat 34) EmptyString).

(** Lines 77-118. *)
Definition provision (w : World) : Run Provisioned :=
  let publishWatermark := BuildNoOpWatermarkProgressors w in
  match ISBSvcType w with
  | ISBSvcTypeRedis =>
      do! readers := try CallBuildRedisBufferIO (buildRedisBufferIO w) id in
      pure {| readers := readers; processorManagers := []; wmStores := [];
              publishWatermark := publishWatermark |}
  | ISBSvcTypeJetStream =>
      if WatermarkDisabled w then
        (* the readers are left nil on this branch *)
        pure {| readers := []; processorManagers := []; wmStores := [];
                publishWatermark := BuildNoOpWatermarkProgressors w |}
      else
        do! processorManagers :=
          try CallBuildProcessorManagers (BuildProcessorManagers w)
              (String.append "failed to build processor manager: ") in
        do! wmStores :=
          try CallBuildToVertexWatermarkStores (BuildToVertexWatermarkStores w) id in
        let publishWatermark := BuildPublishersFromStores w in
        do! readers := try CallBuildJetStreamBufferIO (buildJetStreamBufferIO w) id in
        pure {| readers := readers; processorManagers := processorManagers;
                wmStores := wmStores; publishWatermark := publishWatermark |}
  | ISBSvcTypeOther name =>
      emit (EvUnrecognized name) ;;;
      return_ (Some ("unrecognized isbsvc type " ++ quoted name)%string)
  end.

(** The deferred function of lines 137-142 and 155-160. *)
Definition deferredCloseConn (w : World) : list event :=
  EvClose HandlerConn (CloseConn w)
  :: match CloseConn w with
     | Some _ => [EvLogError HandlerConn]
     | None => []
     end.

(** Lines 126-161. *)
Definition connectHandler (w : World) (enableMapUdfStream : bool) : Run unit :=
  if enableMapUdfStream then
    check CallMapStreamerNew (mapstreamer_New w)
          (String.append "failed to create map stream client, ") ;;;
    check CallWaitUntilReady (WaitUntilReady w)
          (String.append "failed on map stream UDF readiness check, ") ;;;
    defer (deferredCloseConn w)
  else
    check CallMapperNew (mapper_New w)
          (String.append "failed to create map client, ") ;;;
    check CallWaitUntilReady (WaitUntilReady w)
          (String.append "failed on map UDF readiness check, ") ;;;
    defer (deferredCloseConn w).

(** One turn of the loop over [fromBuffer], lines 163-255.  Building the
    shuffle function map, the partition counter and the routing closure
    touches nothing outside; [readers[index]] is evaluated before the
    forwarder is constructed. *)
Definition startPartition (w : World) (readers : list string)
    (index : nat) (bufferPartition : string) : Run unit :=
  do! reader :=
    match readers !! index with
    | Some reader => pure reader
    | None => panic_ IndexOutOfRange
    end in
  check (CallNewInterStepDataForward index) (NewInterStepDataForward w index) id ;;;
  emit EvAdd ;;;
  emit (EvGo bufferPartition).

(** Lines 274-292. *)
Definition teardown (p : Provisioned) : Run unit :=
  forEach (fun pm => emit (EvClose (ProcessorManager pm) nil_error))
          (processorManagers p) ;;;
  forEach (fun publisher =>
             let err := publisherClose publisher in
             emit (EvClose (WatermarkPublisher (publisherName publisher)) err) ;;;
             match err with
             | Some _ => emit (EvLogError (WatermarkPublisher (publisherName publisher)))
             | None => pure tt
             end)
          (publishWatermark p) ;;;
  forEach (fun wmStore => emit (EvClose (WmStore (storeName wmStore)) (storeClose wmStore)))
          (wmStores p).

(** Lines 54-161: everything before the loop over the input partitions. *)
Definition provisioningPhase (w : World) : Run Provisioned :=
  defer [EvCancel] ;;;
  check CallNewClientPool (NewClientPool w)
        (String.append "failed to create a new NATS client pool: ") ;;;
  defer [EvClose NatsClientPool nil_error] ;;;
  do! p := provision w in
  do! enableMapUdfStream :=
    try CallMapUdfStreamEnabled (MapUdfStreamEnabled w)
        (String.append "failed to parse UDF map streaming metadata, ") in
  connectHandler w enableMapUdfStream ;;;
  pure p.

(** Lines 163-255: the loop over [fromBuffer]. *)
Definition runningPhase (w : World) (p : Provisioned) : Run unit :=
  forEachIndexed (startPartition w (readers p)) 0 (OwnedBuffers w).

(** Lines 257-295: the metrics server, the join and the teardown. *)
Definition shutdownPhase (w : World) (p : Provisioned) : Run error :=
  check CallMetricsServerStart (MetricsServerStart w)
        (String.append "failed to start metrics server, error: ") ;;;
  defer [EvClose MetricsServer nil_error] ;;;
  emit EvWait ;;;
  teardown p ;;;
  pure nil_error.

(** The body of [Start], lines 50-296. *)
Definition body (w : World) : Run error :=
  do! p := provisioningPhase w in
  runningPhase w p ;;;
  shutdownPhase w p.

(** A run of [Start]: the body, then the deferred functions, last
    registered first. *)
Definition Start (w : World) : list event * exit :=
  let r := body w in
  (emitted r ++ concat (deferred r),
   match result r with
   | inl err => Returned err
   | inr x => x
   end).

(** ** The partition workers and the wait group

    The goroutine started at line 233 calls [forwarder.Start()], blocks on
    [<-ctx.Done()], then calls [forwarder.Stop()], blocks on its observer's
    [wg.Wait()] and returns, which runs its deferred [finalWg.Done()].  The
    calling goroutine executes the events of its trace in order and blocks
    at [finalWg.Wait()] until the counter is zero. *)

Inductive worker_state : Type :=
| Forwarding   (* blocked on <-ctx.Done() *)
| Stopping     (* forwarder.Stop() called, blocked on wg.Wait() *)
| Exited.      (* returned; finalWg.Done() has run *)

Global Instance worker_state_eq_dec : EqDecision worker_state.
Proof. solve_decision. Defined.

Record system : Type := {
  pending : list event;                      (* still to be executed by Start *)
  executed : list event;                     (* executed by Start, in order *)
  workers : list (string * worker_state);    (* the goroutines started so far *)
  finalWg : Z;                               (* the counter of finalWg *)
  ctxDone : bool;                            (* ctx.Done() is closed *)
}.

Definition initial (program : list event) : system :=
  {| pending := program; executed := []; workers := []; finalWg := 0;
     ctxDone := false |}.

(** The calling goroutine executes its next event; [None] when it is
    blocked. *)
Definition act (s : system) : option system :=
  match pending s with
  | [] => None
  | e :: rest =>
      let s' := {| pending := rest; executed := executed s ++ [e];
                   workers := workers s; finalWg := finalWg s;
                   ctxDone := ctxDone s |} in
      match e with
      | EvAdd =>
          Some {| pending := rest; executed := executed s ++ [e];
                  workers := workers s; finalWg := finalWg s + 1;
                  ctxDone := ctxDone s |}
      | EvGo name =>
          Some {| pending := rest; executed := executed s ++ [e];
                  workers := workers s ++ [(name, Forwarding)];
                  finalWg := finalWg s; ctxDone := ctxDone s |}
      | EvWait => if decide (finalWg s = 0) then Some s' else None
      | EvCancel =>
          Some {| pending := rest; executed := executed s ++ [e];
                  workers := workers s; finalWg := finalWg s; ctxDone := true |}
      | _ => Some s'
      end
  end.

Definition set_worker (i : nat) (name : string) (st : worker_state) (s : system)
  : system :=
  {| pending := pending s; executed := executed s;
     workers := <[i := (name, st)]> (workers s);
     finalWg := finalWg s; ctxDone := ctxDone s |}.

Inductive step : system -> system -> Prop :=
| step_start s s' :
    act s = Some s' -> step s s'
| step_sigterm s :                         (* the parent context is cancelled *)
    step s {| pending := pending s; executed := executed s;
              workers := workers s; finalWg := finalWg s; ctxDone := true |}
| step_stop s i name :
    workers s !! i = Some (name, Forwarding) ->
    ctxDone s = true ->
    step s (set_worker i name Stopping s)
| step_exit s i name :
    workers s !! i = Some (name, Stopping) ->
    step s {| pending := pending s; executed := executed s;
              workers := <[i := (name, Exited)]> (workers s);
              finalWg := finalWg s - 1; ctxDone := ctxDone s |}.

(** The states of the system that a run of [program] passes through. *)
Definition reaches (program : list event) (s : system) : Prop :=
  rtc step (initial program) s.

(** A worker that has returned. *)
Definition has_exited (x : string * worker_state) : Prop := x.2 = Exited.

Global Instance has_exited_dec (x : string * worker_state) : Decision (has_exited x).
Proof. unfold has_exited. apply _. Defined.

(** The number of workers that have returned. *)
Definition exits (ws : list (string * worker_state)) : nat :=
  length (filter has_exited ws).

(** ** Reading a trace *)

(** The partitions whose worker has been started. *)
Definition started (t : list event) : list string :=
  omap (fun e => match e with EvGo name => Some name | _ => None end) t.

(** The number of [finalWg.Add(1)]. *)
Definition adds (t : list event) : nat :=
  length (omap (fun e => match e with EvAdd => Some tt | _ => None end) t).

(** The resources closed, in order. *)
Definition closed (t : list event) : list resource :=
  omap (fun e => match e with EvClose r _ => Some r | _ => None end) t.

(** The phases of a run: everything up to the start of the metrics server,
    the join, then the three teardown loops, then the deferred functions. *)
Definition phase (e : event) : nat :=
  match e with
  | EvCall _ _ | EvUnrecognized _ | EvAdd | EvGo _ => 0
  | EvWait => 1
  | EvClose (ProcessorManager _) _ | EvLogError (ProcessorManager _) => 2
  | EvClose (WatermarkPublisher _) _ | EvLogError (WatermarkPublisher _) => 3
  | EvClose (WmStore _) _ | EvLogError (WmStore _) => 4
  | EvClose _ _ | EvLogError _ | EvCancel => 5
  end.

(** A trace is in order when no event comes before one of an earlier
    phase. *)
Definition phase_le (e1 e2 : event) : Prop := (phase e1 <= phase e2)%nat.

Definition in_order (t : list event) : Prop := StronglySorted phase_le t.

(** A program joins properly when, at its [finalWg.Wait()], there is one
    [Add] for every worker started, and none is started afterwards. *)
Definition join_ready (program : list event) : Prop :=
  forall before after,
    program = before ++ EvWait :: after ->
    adds before = length (started before)
    /\ Forall (fun e => phase e <> 0%nat) after.

(** What holds of the system throughout a run of [program]. *)
Record invariant (program : list event) (s : system) : Prop := {
  inv_program : executed s ++ pending s = program;
  inv_workers : (workers s).*1 = started (executed s);
  inv_counter :
    finalWg s = Z.of_nat (adds (executed s)) - Z.of_nat (exits (workers s));
  inv_joined : EvWait ∈ executed s -> Forall has_exited (workers s);
}.

(** A trace that is in order and stays between two phases. *)
Definition staged (lo hi : nat) (t : list event) : Prop :=
  in_order t /\ Forall (fun e => (lo <= phase e <= hi)%nat) t.

(** Every failed close of a watermark publisher is followed by its log
    entry. *)
Definition errors_logged (t : list event) : Prop :=
  forall before name err after,
    t = before ++ EvClose (WatermarkPublisher name) (Some err) :: after ->
    exists after', after = EvLogError (WatermarkPublisher name) :: after'.

(** Everything the teardown has to close, in the order of the three
    loops, followed by what the deferred functions close. *)
Definition to_close (p : Provisioned) : list resource :=
  (ProcessorManager <$> processorManagers p)
  ++ ((fun publisher => WatermarkPublisher (publisherName publisher))
        <$> publishWatermark p)
  ++ ((fun wmStore => WmStore (storeName wmStore)) <$> wmStores p)
  ++ [MetricsServer; HandlerConn; NatsClientPool].

(** The calls that provision the run: all but the start of the metrics
    server, which comes after the workers. *)
Definition provisioning (c : callee) : bool :=
  match c with
  | CallMetricsServerStart => false
  | _ => true
  end.

(** A provisioning failure in a trace: a provisioning call that answered
    with an error, or the rejection of the buffer-backend type. *)
Definition failure (e : event) : bool :=
  match e with
  | EvCall c (Some _) => provisioning c
  | EvUnrecognized _ => true
  | _ => false
  end.

(** The events of the provisioning before the loop. *)
Definition setup_event (e : event) : bool :=
  match e with
  | EvCall (CallNewInterStepDataForward _) _ | EvCall CallMetricsServerStart _ => false
  | EvCall _ _ | EvUnrecognized _ => true
  | _ => false
  end.

(** The workers a provisioning failure leaves started: none, but for a
    failed forwarder construction, which comes after the workers of the
    partitions before it. *)
Definition started_before (w : World) (e : event) : list string :=
  match e with
  | EvCall (CallNewInterStepDataForward index) _ => take index (OwnedBuffers w)
  | _ => []
  end.

(** A piece of the provisioning before the loop: it emits setup events
    only, defers nothing but late closes, fails only by returning an error,
    and has recorded no failure when it goes on. *)
Definition setup {A} (c : Run A) : Prop :=
  Forall (fun e => setup_event e = true) (emitted c)
  /\ Forall (Forall (fun e => phase e = 5%nat)) (deferred c)
  /\ match result c with
     | inl _ => Forall (fun e => failure e = false) (emitted c)
     | inr x => exists err, x = Returned (Some err)
     end.

(** The events of the three loops of lines 274-292. *)
Definition closesOfManagers (p : Provisioned) : list event :=
  (fun pm => EvClose (ProcessorManager pm) nil_error) <$> processorManagers p.

Definition closesOfPublishers (p : Provisioned) : list event :=
  concat ((fun publisher =>
             EvClose (WatermarkPublisher (publisherName publisher))
                     (publisherClose publisher)
             :: match publisherClose publisher with
                | Some _ => [EvLogError (WatermarkPublisher (publisherName publisher))]
                | None => []
                end) <$> publishWatermark p).

Definition closesOfStores (p : Provisioned) : list event :=
  (fun wmStore => EvClose (WmStore (storeName wmStore)) (storeClose wmStore))
    <$> wmStores p.

(** What the deferred functions of the provisioning do at the end. *)
Definition lateCloses (w : World) : list event :=
  deferredCloseConn w ++ [EvClose NatsClientPool nil_error; EvCancel].

(** The events before the join and after it, in a run that reaches it. *)
Definition beforeJoin (w : World) (p : Provisioned) : list event :=
  emitted (provisioningPhase w) ++ emitted (runningPhase w p)
  ++ [EvCall CallMetricsServerStart nil_error].

Definition afterJoin (w : World) (p : Provisioned) : list event :=
  (closesOfManagers p ++ closesOfPublishers p ++ closesOfStores p)
  ++ [EvClose MetricsServer nil_error] ++ lateCloses w.

(** ** Example collaborators and topologies, for running the router *)

(** Modelled from the spec: [sharedutil.CompareSlice], which is not part of
    this file; "apply the edge's logical operator over tags against the
    required values".  AND asks for every required value among the tags,
    OR for one of them, NOT for none. *)
Definition CompareSlice_example (operator : LogicOperator) (tags values : list string)
  : bool :=
  match operator with
  | LogicOperatorAnd => forallb (fun v => bool_decide (v ∈ tags)) values
  | LogicOperatorOr => existsb (fun v => bool_decide (v ∈ tags)) values
  | LogicOperatorNot => negb (existsb (fun v => bool_decide (v ∈ tags)) values)
  end.

(** Modelled from the spec: the shuffle function, which is not part of this
    file; "a deterministic function mapping a record's routing keys to a
    destination partition index".  The stand-in spreads by the total length
    of the keys. *)
Definition ShuffleKeys_example (s : Shuffle) (keys : list string) : Z :=
  Z.of_nat (foldr (fun key n => (String.length key + n)%nat) 0%nat keys)
  mod buffersCount s.

(** Modelled from the spec: the drop sentinel is the tag [DROP] of the
    end-to-end scenario B. *)
Definition example_collaborators : Collaborators := {|
  MessageTagDrop := "DROP";
  CompareSlice := CompareSlice_example;
  ShuffleKeys := ShuffleKeys_example;
|}.

(** Scenario B: an edge to a keyed-aggregation vertex with four partitions
    and an edge to a plain vertex with two. *)
Definition edge_to_reduce : Edge := {|
  From := "map"; To := "reduce"; Conditions := None;
  ToVertexType := VertexTypeReduceUDF; GetToVertexPartitionCount := 4;
|}.

Definition edge_to_sink : Edge := {|
  From := "map"; To := "sink"; Conditions := None;
  ToVertexType := VertexTypeSink; GetToVertexPartitionCount := 2;
|}.

(** An edge that only takes records tagged [even] or [odd]. *)
Definition edge_tagged : Edge := {|
  From := "map"; To := "numbers";
  Conditions := Some {| Tags := Some {| GetOperator := LogicOperatorOr;
                                        Values := ["even"; "odd"]%string |} |};
  ToVertexType := VertexTypeMapUDF; GetToVertexPartitionCount := 3;
|}.

(** An edge on which the partition counter would divide by zero. *)
Definition edge_without_partitions : Edge := {|
  From := "map"; To := "nowhere"; Conditions := None;
  ToVertexType := VertexTypeSink; GetToVertexPartitionCount := 0;
|}.

(** ** Example worlds, for running [Start] *)

(** A JetStream vertex with two input partitions; everything is provisioned,
    and both the watermark publisher and the watermark store fail to
    close. *)
Definition world_jetstream : World := {|
  ISBSvcType := ISBSvcTypeJetStream;
  WatermarkDisabled := false;
  OwnedBuffers := ["in-0"; "in-1"];
  NewClientPool := None;
  BuildNoOpWatermarkProgressors := [];
  buildRedisBufferIO := Failure "no redis";
  BuildProcessorManagers := Success ["from-a"];
  BuildToVertexWatermarkStores :=
    Success [ {| storeName := "to-b"; storeClose := Some "store gone" |} ];
  BuildPublishersFromStores :=
    [ {| publisherName := "to-b"; publisherClose := Some "connection lost" |} ];
  buildJetStreamBufferIO := Success ["reader-0"; "reader-1"];
  MapUdfStreamEnabled := Success false;
  mapstreamer_New := None;
  mapper_New := None;
  WaitUntilReady := None;
  CloseConn := None;
  NewInterStepDataForward := fun _ => None;
  MetricsServerStart := None;
|}.

(** The same vertex, with a handler that never gets ready. *)
Definition world_handler_unready : World := {|
  ISBSvcType := ISBSvcTypeJetStream;
  WatermarkDisabled := false;
  OwnedBuffers := ["in-0"; "in-1"];
  NewClientPool := None;
  BuildNoOpWatermarkProgressors := [];
  buildRedisBufferIO := Failure "no redis";
  BuildProcessorManagers := Success ["from-a"];
  BuildToVertexWatermarkStores :=
    Success [ {| storeName := "to-b"; storeClose := None |} ];
  BuildPublishersFromStores :=
    [ {| publisherName := "to-b"; publisherClose := None |} ];
  buildJetStreamBufferIO := Success ["reader-0"; "reader-1"];
  MapUdfStreamEnabled := Success false;
  mapstreamer_New := None;
  mapper_New := None;
  WaitUntilReady := Some "deadline exceeded";
  CloseConn := None;
  NewInterStepDataForward := fun _ => None;
  MetricsServerStart := None;
|}.

(** The same vertex, where the forwarder of the second input partition
    cannot be constructed. *)
Definition world_second_forwarder_fails : World := {|
  ISBSvcType := ISBSvcTypeJetStream;
  WatermarkDisabled := false;
  OwnedBuffers := ["in-0"; "in-1"];
  NewClientPool := None;
  BuildNoOpWatermarkProgressors := [];
  buildRedisBufferIO := Failure "no redis";
  BuildProcessorManagers := Success ["from-a"];
  BuildToVertexWatermarkStores :=
    Success [ {| storeName := "to-b"; storeClose := None |} ];
  BuildPublishersFromStores :=
    [ {| publisherName := "to-b"; publisherClose := None |} ];
  buildJetStreamBufferIO := Success ["reader-0"; "reader-1"];
  MapUdfStreamEnabled := Success false;
  mapstreamer_New := None;
  mapper_New := None;
  WaitUntilReady := None;
  CloseConn := None;
  NewInterStepDataForward :=
    fun index => if (index =? 1)%nat then Some "no forwarder"%string else None;
  MetricsServerStart := None;
|}.

(** The same vertex with the watermark disabled. *)
Definition world_watermark_disabled : World := {|
  ISBSvcType := ISBSvcTypeJetStream;
  WatermarkDisabled := true;
  OwnedBuffers := ["in-0"; "in-1"];
  NewClientPool := None;
  BuildNoOpWatermarkProgressors :=
    [ {| publisherName := "to-b"; publisherClose := None |} ];
  buildRedisBufferIO := Failure "no redis";
  BuildProcessorManagers := Success ["from-a"];
  BuildToVertexWatermarkStores :=
    Success [ {| storeName := "to-b"; storeClose := None |} ];
  BuildPublishersFromStores :=
    [ {| publisherName := "to-b"; publisherClose := None |} ];
  buildJetStreamBufferIO := Success ["reader-0"; "reader-1"];
  MapUdfStreamEnabled := Success false;
  mapstreamer_New := None;
  mapper_New := None;
  WaitUntilReady := None;
  CloseConn := None;
  NewInterStepDataForward := fun _ => None;
  MetricsServerStart := None;
|}.

(** ** Further readings of the counter and of the router *)

(** The sequence [(r + 1) mod P, (r + 2) mod P, ..., (r + n) mod P]. *)
Definition round_robin_from (r n P : Z) : list Z :=
  (fun k => (r + k) mod P) <$> seqZ 1 n.

(** A record as the forwarder hands it to the routing closure: its keys and
    its tags. *)
Definition record : Type := (list string * list string)%type.

(** The closure of one input partition applied to one record after the
    other; the partition counter it has captured lives on from call to
    call. *)
Fixpoint routeAll {ext : Collaborators} (ToEdges : list Edge) (records : list record)
  : M (gmap string Z) (list (list VertexBuffer)) :=
  match records with
  | [] => ret []
  | (keys, tags) :: rest =>
      call! routed := conditionalForwarder ToEdges keys tags in
      call! others := routeAll ToEdges rest in
      ret (routed.1 :: others)
  end.

(** The records of a batch that are not dropped. *)
Definition kept {ext : Collaborators} (records : list record) : list record :=
  List.filter (fun r => negb (StringSliceContains r.2 MessageTagDrop)) records.

(** A worker that has been started and has not yet been told to stop. *)
Definition forwarding (name : string) : string * worker_state := (name, Forwarding).

(** In a program that adds first, every worker started has had its
    [finalWg.Add(1)] before, at every point of the run. *)
Definition adds_first (program : list event) : Prop :=
  forall before after,
    program = before ++ after -> (length (started before) <= adds before)%nat.

(** The events of the body of [Start], as opposed to those of the deferred
    functions registered by the provisioning. *)
Definition body_event (e : event) : bool :=
  match e with
  | EvCancel | EvClose NatsClientPool _ | EvClose HandlerConn _
  | EvLogError HandlerConn | EvLogError NatsClientPool => false
  | _ => true
  end.

(** What the deferred functions of the provisioning do when [Start]
    leaves: close the handler connection if the provisioning went through,
    close the NATS pool if it was created, and cancel the context. *)
Definition releases (w : World) : list event :=
  (match result (provisioningPhase w) with
   | inl _ => deferredCloseConn w
   | inr _ => []
   end)
  ++ (match NewClientPool w with
      | None => [EvClose NatsClientPool nil_error]
      | Some _ => []
      end)
  ++ [EvCancel].

(** The example vertex, with a metrics server that does not start. *)
Definition world_metrics_fails : World := {|
  ISBSvcType := ISBSvcTypeJetStream;
  WatermarkDisabled := false;
  OwnedBuffers := ["in-0"; "in-1"];
  NewClientPool := None;
  BuildNoOpWatermarkProgressors := [];
  buildRedisBufferIO := Failure "no redis";
  BuildProcessorManagers := Success ["from-a"];
  BuildToVertexWatermarkStores :=
    Success [ {| storeName := "to-b"; storeClose := None |} ];
  BuildPublishersFromStores :=
    [ {| publisherName := "to-b"; publisherClose := None |} ];
  buildJetStreamBufferIO := Success ["reader-0"; "reader-1"];
  MapUdfStreamEnabled := Success false;
  mapstreamer_New := None;
  mapper_New := None;
  WaitUntilReady := None;
  CloseConn := None;
  NewInterStepDataForward := fun _ => None;
  MetricsServerStart := Some "address already in use";
|}.

(** The example vertex when the calling goroutine has got to
    [finalWg.Wait()] and nothing has cancelled the context. *)
Definition system_at_join : system := {|
  pending := drop 14 (Start world_jetstream).1;
  executed := take 14 (Start world_jetstream).1;
  workers := [forwarding "in-0"; forwarding "in-1"];
  finalWg := 2;
  ctxDone := false;
|}.







(** The vertex whose metrics server does not start, when the deferred
    functions have closed the handler connection and the NATS client pool
    and [cancel()] is still to come. *)
Definition system_stranded : system := {|
  pending := [EvCancel];
  executed := take 16 (Start world_metrics_fails).1;
  workers := [forwarding "in-0"; forwarding "in-1"];
  finalWg := 2;
  ctxDone := false;
|}.

(** What an assignment owes the edge it was made for: the destination
    name, and an index within the destination's partitions when the index
    came from the partition counter. *)
Definition assignment_for (edge : Edge) (vb : VertexBuffer) : Prop :=
  ToVertexName vb = To edge
  /\ (needShuffle edge = false ->
      0 <= ToVertexPartitionIdx vb < GetToVertexPartitionCount edge).

(** * Properties *)

Lemma Ok_inj_fst {A S : Type} (a b : A) (s s' : S) :
  Ok (a, s) = Ok (b, s') -> a = b.
Proof. congruence. Qed.

(** ** Machine integers *)

Lemma wrap_int_id (z : Z) : GoInt.is_int z -> GoInt.wrap_int z = z.
Proof.
  unfold GoInt.is_int, GoInt.wrap_int, GoInt.int_min, GoInt.int_max.
  intros Hz. rewrite Z.mod_small; lia.
Qed.

Lemma to_int32_id (z : Z) : 0 <= z < 2 ^ 31 -> GoInt.to_int32 z = z.
Proof.
  unfold GoInt.to_int32. intros Hz. rewrite Z.mod_small; lia.
Qed.

(** ** The partition counter *)

Lemma map_read_ok (m : gmap string Z) (k : string) :
  counters_ok m -> 0 <= map_read m k < GoInt.int_max.
Proof.
  intros Hm. unfold map_read.
  destruct (m !! k) as [v|] eqn:Hk; simpl.
  - eauto.
  - unfold GoInt.int_max. lia.
Qed.

(** What a call computes when the partition count is positive: the stored
    counter plus one, reduced, and truncated to 32 bits on the way out. *)
Lemma getVertexPartitionIdx_positive (toVertex : string) (P : Z) (m : gmap string Z) :
  counters_ok m -> 1 <= P ->
  getVertexPartitionIdx toVertex P m =
    Ok (GoInt.to_int32 ((map_read m toVertex + 1) mod P),
        <[toVertex := (map_read m toVertex + 1) mod P]> m).
Proof.
  intros Hm HP. unfold getVertexPartitionIdx.
  destruct (decide (P = 0)) as [->|_]; [lia|].
  pose proof (map_read_ok m toVertex Hm) as Hr.
  rewrite wrap_int_id
    by (unfold GoInt.is_int, GoInt.int_min, GoInt.int_max in *; lia).
  rewrite Z.rem_mod_nonneg by lia. reflexivity.
Qed.

Lemma counters_ok_insert (m : gmap string Z) (k : string) (v : Z) :
  counters_ok m -> 0 <= v < GoInt.int_max -> counters_ok (<[k := v]> m).
Proof.
  intros Hm Hv k' v'. rewrite lookup_insert.
  destruct (decide (k = k')); [intros [= <-]; exact Hv | apply Hm].
Qed.

Lemma reachable_counters_ok (m : gmap string Z) : reachable m -> counters_ok m.
Proof.
  induction 1 as [|m toVertex count idx m' _ IH Hint Hpos Hcall].
  - intros k v. unfold GetPartitionedBufferIdx. rewrite lookup_empty. discriminate.
  - rewrite getVertexPartitionIdx_positive in Hcall by assumption.
    injection Hcall as _ <-. apply counters_ok_insert; [assumption|].
    pose proof (Z.mod_pos_bound (map_read m toVertex + 1) count) as Hb.
    unfold GoInt.is_int, GoInt.int_max in *. lia.
Qed.

Lemma round_robin_succ (n : N) (P : Z) :
  round_robin (N.succ n) P = round_robin n P ++ [(Z.of_N n + 1) mod P].
Proof.
  unfold round_robin. rewrite N2Z.inj_succ, <- Z.add_1_r.
  rewrite seqZ_app by lia. rewrite fmap_app. f_equal.
  rewrite seqZ_cons by lia. rewrite seqZ_nil by lia. simpl.
  f_equal. f_equal. lia.
Qed.

Lemma consecutive_calls_succ (n : N) (toVertex : string) (P : Z) :
  consecutive_calls (N.succ n) toVertex P =
    (call! out := consecutive_calls n toVertex P in
     call! idx := getVertexPartitionIdx toVertex P in
     ret (out ++ [idx])).
Proof. unfold consecutive_calls. rewrite N.iter_succ. reflexivity. Qed.

Lemma map_read_after_calls (n : N) (toVertex : string) (P : Z) (m : gmap string Z) :
  1 <= P -> m !! toVertex = None ->
  map_read (after_calls n toVertex P m) toVertex = Z.of_N n mod P.
Proof.
  intros HP Hfresh. unfold after_calls, map_read.
  destruct (decide (n = 0%N)) as [->|_].
  - rewrite Hfresh. simpl. rewrite Z.mod_0_l; lia.
  - rewrite lookup_insert_eq. reflexivity.
Qed.

Lemma counters_ok_after_calls (n : N) (toVertex : string) (P : Z) (m : gmap string Z) :
  counters_ok m -> 1 <= P -> GoInt.is_int P ->
  counters_ok (after_calls n toVertex P m).
Proof.
  intros Hm HP Hint. unfold after_calls.
  destruct (decide (n = 0%N)); [assumption|].
  apply counters_ok_insert; [assumption|].
  pose proof (Z.mod_pos_bound (Z.of_N n) P).
  unfold GoInt.is_int, GoInt.int_max in *. lia.
Qed.

(** What [n] consecutive calls return on the code as it is: the round-robin
    sequence, each index truncated to 32 bits. *)
Lemma consecutive_calls_spec (n : N) (toVertex : string) (P : Z) (m : gmap string Z) :
  counters_ok m -> 1 <= P -> GoInt.is_int P -> m !! toVertex = None ->
  consecutive_calls n toVertex P m =
    Ok (GoInt.to_int32 <$> round_robin n P, after_calls n toVertex P m).
Proof.
  intros Hm HP Hint Hfresh. induction n as [|n IH] using N.peano_ind.
  - reflexivity.
  - rewrite consecutive_calls_succ. unfold bind at 1. rewrite IH.
    unfold bind. rewrite getVertexPartitionIdx_positive
      by auto using counters_ok_after_calls.
    rewrite map_read_after_calls by assumption.
    rewrite Zplus_mod_idemp_l.
    unfold ret. rewrite round_robin_succ, fmap_app. simpl.
    f_equal. f_equal.
    unfold after_calls.
    destruct (decide (N.succ n = 0%N)) as [H0|_]; [lia|].
    rewrite N2Z.inj_succ, <- Z.add_1_r.
    destruct (decide (n = 0%N)); [reflexivity|].
    apply insert_insert_eq.
Qed.

Lemma round_robin_bounds (n : N) (P : Z) :
  1 <= P ->
  Forall (fun idx => 0 <= idx < P /\ idx <= Z.of_N n) (round_robin n P).
Proof.
  intros HP. unfold round_robin. rewrite Forall_fmap.
  apply Forall_seqZ. intros k Hk. simpl.
  pose proof (Z.mod_pos_bound k P ltac:(lia)).
  pose proof (Z.mod_le k P ltac:(lia) ltac:(lia)). lia.
Qed.

(** C2 (as amended).  For a destination that is fresh in the counter's map
    and a partition count [P >= 1], [n] consecutive calls for that
    destination return [1 mod P, 2 mod P, ..., n mod P]: round robin with
    period [P], starting at [1 mod P] and not at [0]; provided the
    remainders fit the [int32] the closure returns, that is, [P <= 2^31]
    or [n < 2^31]. *)
Theorem partition_counter_round_robin
    (toVertex : string) (P : Z) (n : N) (m : gmap string Z) :
  reachable m -> GoInt.is_int P -> 1 <= P ->
  P <= 2 ^ 31 \/ Z.of_N n < 2 ^ 31 ->
  m !! toVertex = None ->
  consecutive_calls n toVertex P m =
    Ok (round_robin n P, after_calls n toVertex P m).
Proof.
  intros Hm Hint HP Hfit Hfresh.
  rewrite consecutive_calls_spec by auto using reachable_counters_ok.
  f_equal. f_equal.
  rewrite <- (list_fmap_id (round_robin n P)) at 2.
  apply Forall_fmap_ext.
  eapply Forall_impl; [apply (round_robin_bounds n P); lia|].
  intros idx Hidx. cbv beta in Hidx |- *. apply to_int32_id. unfold id. lia.
Qed.

(** Three consecutive calls with three partitions return 1, 2, 0. *)
Lemma partition_counter_round_robin_witness :
  consecutive_calls 3 "to-vertex" 3 GetPartitionedBufferIdx =
    Ok ([1; 2; 0], <["to-vertex" := 0]> GetPartitionedBufferIdx).
Proof.
  apply (partition_counter_round_robin "to-vertex" 3 3 GetPartitionedBufferIdx).
  - apply reach_fresh.
  - unfold GoInt.is_int, GoInt.int_min, GoInt.int_max. lia.
  - lia.
  - left. lia.
  - reflexivity.
Defined.

(** The counter map holding [v] for one destination is reachable: [v]
    calls with a partition count above [v] lead there. *)
Lemma reachable_singleton (toVertex : string) (P v : Z) :
  GoInt.is_int P -> 0 <= v < P -> reachable {[toVertex := v]}.
Proof.
  intros Hint [Hv HP]. revert HP. pattern v. apply natlike_ind; [| |exact Hv].
  - intros _. apply (reach_call ∅ toVertex 1 (GoInt.to_int32 0) _ reach_fresh).
    + unfold GoInt.is_int, GoInt.int_min, GoInt.int_max. lia.
    + lia.
    + reflexivity.
  - intros x Hx IH Hlt.
    assert (Hr : reachable {[toVertex := x]}) by (apply IH; lia).
    eapply (reach_call _ toVertex P _ _ Hr); [assumption|lia|].
    rewrite getVertexPartitionIdx_positive
      by (auto using reachable_counters_ok || lia).
    unfold map_read. rewrite lookup_singleton_eq. simpl.
    rewrite Z.mod_small by lia.
    rewrite insert_singleton_eq. rewrite <- Z.add_1_r. reflexivity.
Qed.

(** C2 as stated fails beyond [2^31] partitions: with [2^31 + 1] partitions
    the call number [2^31] returns [-2^31], not [2^31 mod (2^31 + 1)]. *)
Lemma partition_counter_round_robin_counterexample :
  ~ exists m',
      consecutive_calls 2147483648 "to-vertex" 2147483649 GetPartitionedBufferIdx =
        Ok (round_robin 2147483648 2147483649, m').
Proof.
  intros [m' H].
  rewrite consecutive_calls_spec in H.
  - apply Ok_inj_fst in H.
    change 2147483648%N with (N.succ 2147483647) in H.
    rewrite round_robin_succ, fmap_app in H.
    apply app_inj_tail in H as [_ H].
    vm_compute in H. discriminate.
  - apply reachable_counters_ok, reach_fresh.
  - lia.
  - unfold GoInt.is_int, GoInt.int_min, GoInt.int_max. lia.
  - reflexivity.
Qed.

(** C10 (as amended).  On every reachable counter map, a call with
    [toVertexPartitionCount >= 1] returns (the remainder is defined, there
    is no division by zero) and leaves the stored counter of every other
    destination name as it was; and the index it returns lies in
    [[0, toVertexPartitionCount)] provided the remainder fits the [int32]
    the closure returns, that is, [toVertexPartitionCount <= 2^31] or the
    stored counter of the destination is below [2^31 - 1]. *)
Theorem partition_index_in_range
    (m : gmap string Z) (toVertex : string) (toVertexPartitionCount : Z) :
  reachable m -> 1 <= toVertexPartitionCount ->
  exists idx m',
    getVertexPartitionIdx toVertex toVertexPartitionCount m = Ok (idx, m')
    /\ (forall other, other <> toVertex -> m' !! other = m !! other)
    /\ (toVertexPartitionCount <= 2 ^ 31 \/ map_read m toVertex < 2 ^ 31 - 1 ->
        0 <= idx < toVertexPartitionCount).
Proof.
  intros Hm HP.
  rewrite getVertexPartitionIdx_positive by auto using reachable_counters_ok.
  pose proof (map_read_ok m toVertex (reachable_counters_ok m Hm)) as Hr.
  pose proof (Z.mod_pos_bound (map_read m toVertex + 1) toVertexPartitionCount
                ltac:(lia)) as Hb.
  pose proof (Z.mod_le (map_read m toVertex + 1) toVertexPartitionCount
                ltac:(lia) ltac:(lia)) as Hle.
  eexists _, _. split; [reflexivity|]. split.
  - intros other Hne. apply lookup_insert_ne. congruence.
  - intros Hfit. rewrite to_int32_id; lia.
Qed.

Lemma partition_index_in_range_witness :
  exists idx m',
    getVertexPartitionIdx "to-vertex" 3 {["to-vertex" := 1; "other" := 1]} = Ok (idx, m')
    /\ (forall other, other <> "to-vertex"%string ->
                      m' !! other = ({["to-vertex" := 1; "other" := 1]} : gmap string Z) !! other)
    /\ (3 <= 2 ^ 31 \/ map_read {["to-vertex" := 1; "other" := 1]} "to-vertex" < 2 ^ 31 - 1 ->
        0 <= idx < 3).
Proof.
  assert (Hint : GoInt.is_int 3)
    by (unfold GoInt.is_int, GoInt.int_min, GoInt.int_max; lia).
  apply (partition_index_in_range {["to-vertex" := 1; "other" := 1]} "to-vertex" 3).
  - apply (reach_call {["other" := 1]} "to-vertex" 3 1 _).
    + apply (reach_call ∅ "other" 3 1 _ reach_fresh).
      * exact Hint.
      * lia.
      * vm_compute. reflexivity.
    + exact Hint.
    + lia.
    + vm_compute. reflexivity.
  - lia.
Defined.

(** C10 as stated fails beyond [2^31] partitions: after [2^31 - 1] calls
    with [2^31 + 1] partitions the next call returns [-2^31]. *)
Lemma partition_index_in_range_counterexample :
  reachable {["to-vertex" := 2147483647]}
  /\ getVertexPartitionIdx "to-vertex" 2147483649 {["to-vertex" := 2147483647]} =
       Ok (-2147483648, {["to-vertex" := 2147483648]}).
Proof.
  split.
  - apply (reachable_singleton "to-vertex" 2147483649).
    + unfold GoInt.is_int, GoInt.int_min, GoInt.int_max. lia.
    + lia.
  - vm_compute. reflexivity.
Qed.

(** ** The router *)

Section RouterProperties.

Context {ext : Collaborators}.

Lemma StringSliceContains_spec (l : list string) (str : string) :
  StringSliceContains l str = true <-> str ∈ l.
Proof. unfold StringSliceContains. apply bool_decide_eq_true. Qed.

(** The guard of line 184 and the condition of line 198 together decide
    what the specification calls a match. *)
Lemma spec_matched_tagConditions (tags : list string) (edge : Edge) :
  spec_matched tags edge =
    match tagConditions edge with
    | None => true
    | Some t => CompareSlice (GetOperator t) tags (Values t)
    end.
Proof.
  unfold spec_matched, tagConditions.
  destruct (Conditions edge) as [c|]; [|reflexivity].
  destruct (Tags c) as [t|]; [|reflexivity].
  destruct (Values t) eqn:HV; simpl; [reflexivity|].
  rewrite HV. reflexivity.
Qed.

Lemma needShuffle_spec (edge : Edge) :
  needShuffle edge = true <->
  ToVertexType edge = VertexTypeReduceUDF /\ 1 < GetToVertexPartitionCount edge.
Proof.
  unfold needShuffle. rewrite andb_true_iff, bool_decide_eq_true, Z.ltb_lt.
  reflexivity.
Qed.

(** The step taken on an edge that does not match. *)
Lemma forwardEdge_unmatched sfm keys tags result edge counters :
  spec_matched tags edge = false ->
  forwardEdge sfm keys tags result edge counters = Ok (result, counters).
Proof.
  rewrite spec_matched_tagConditions. unfold forwardEdge.
  destruct (tagConditions edge) as [t|]; [|discriminate].
  intros ->. reflexivity.
Qed.

(** The step taken on a matching edge: both copies of the branch, lines
    185-196 and 199-210, do the same. *)
Lemma forwardEdge_matched sfm keys tags result edge :
  spec_matched tags edge = true ->
  forwardEdge sfm keys tags result edge =
    if needShuffle edge then
      (call! toVertexPartition := shuffleLookup sfm (shuffleKey edge) keys in
       ret (result ++ [{| ToVertexName := To edge;
                          ToVertexPartitionIdx := toVertexPartition |}]))
    else
      (call! idx := getVertexPartitionIdx (To edge) (GetToVertexPartitionCount edge) in
       ret (result ++ [{| ToVertexName := To edge; ToVertexPartitionIdx := idx |}])).
Proof.
  rewrite spec_matched_tagConditions. unfold forwardEdge.
  destruct (tagConditions edge) as [t|]; [|reflexivity].
  intros ->. reflexivity.
Qed.

(** *** The shuffle function map *)

Lemma populate_keeps (edges : list Edge) (m0 : gmap string Shuffle) (k : string) :
  is_Some (m0 !! k) -> is_Some (foldl populateStep m0 edges !! k).
Proof.
  revert m0. induction edges as [|e edges IH]; intros m0 Hk; [exact Hk|].
  simpl. apply IH. unfold populateStep.
  destruct (needShuffle e); [|exact Hk].
  rewrite lookup_insert. destruct (decide (shuffleKey e = k)); eauto.
Qed.

Lemma populate_covers (edges : list Edge) (m0 : gmap string Shuffle) (edge : Edge) :
  edge ∈ edges -> needShuffle edge = true ->
  is_Some (foldl populateStep m0 edges !! shuffleKey edge).
Proof.
  revert m0. induction edges as [|e edges IH]; intros m0 Hin Hneed.
  - inversion Hin.
  - simpl. apply elem_of_cons in Hin as [<-|Hin].
    + apply populate_keeps. unfold populateStep. rewrite Hneed.
      rewrite lookup_insert_eq. eauto.
    + apply IH; assumption.
Qed.

(** Every edge on which the shuffle branch is taken has an entry in the
    map populated from the same edge list. *)
Lemma populateShuffleFuncMap_covers (ToEdges : list Edge) (edge : Edge) :
  edge ∈ ToEdges -> needShuffle edge = true ->
  is_Some (populateShuffleFuncMap ToEdges !! shuffleKey edge).
Proof. apply populate_covers. Qed.

(** *** The loop over the edges *)

Lemma forwardEdge_returns sfm keys tags result edge counters :
  (needShuffle edge = true -> is_Some (sfm !! shuffleKey edge)) ->
  GetToVertexPartitionCount edge <> 0 ->
  exists result' counters',
    forwardEdge sfm keys tags result edge counters = Ok (result', counters')
    /\ ToVertexName <$> result' =
         (ToVertexName <$> result)
         ++ (To <$> List.filter (spec_matched tags) [edge]).
Proof.
  intros Hsfm Hcount. simpl.
  destruct (spec_matched tags edge) eqn:Hm.
  - rewrite forwardEdge_matched by assumption.
    destruct (needShuffle edge) eqn:Hneed.
    + destruct (Hsfm eq_refl) as [s Hs].
      unfold bind, shuffleLookup, ret. rewrite Hs.
      eexists _, _. split; [reflexivity|]. rewrite fmap_app. reflexivity.
    + unfold bind, getVertexPartitionIdx, ret.
      destruct (decide (GetToVertexPartitionCount edge = 0)); [contradiction|].
      eexists _, _. split; [reflexivity|]. rewrite fmap_app. reflexivity.
  - rewrite forwardEdge_unmatched by assumption.
    eexists _, _. split; [reflexivity|]. simpl. rewrite app_nil_r. reflexivity.
Qed.

Lemma forEdges_returns sfm keys tags edges :
  serves sfm edges ->
  Forall (fun edge => GetToVertexPartitionCount edge <> 0) edges ->
  forall result counters,
  exists result' counters',
    forEdges sfm keys tags result edges counters = Ok (result', counters')
    /\ ToVertexName <$> result' =
         (ToVertexName <$> result)
         ++ (To <$> List.filter (spec_matched tags) edges).
Proof.
  induction edges as [|edge edges IH]; intros Hsfm Hcounts result counters.
  - eexists _, _. split; [reflexivity|]. simpl. rewrite app_nil_r. reflexivity.
  - apply Forall_cons in Hcounts as [Hcount Hcounts].
    destruct (forwardEdge_returns sfm keys tags result edge counters)
      as (r1 & c1 & Hstep & Hnames); [|assumption|].
    { intros Hneed. apply Hsfm; [apply list_elem_of_here | assumption]. }
    destruct (IH (fun e He => Hsfm e (list_elem_of_further _ _ _ He)) Hcounts r1 c1)
      as (r2 & c2 & Hrest & Hnames2).
    exists r2, c2. split.
    + simpl. unfold bind. rewrite Hstep. exact Hrest.
    + rewrite Hnames2, Hnames. rewrite <- app_assoc. f_equal.
      change (edge :: edges) with ([edge] ++ edges).
      rewrite List.filter_app, fmap_app. reflexivity.
Qed.

(** *** Two runs on counters that read the same *)

Lemma agree_insert (c1 c2 : gmap string Z) (k : string) (v : Z) :
  agree c1 c2 -> agree (<[k := v]> c1) (<[k := v]> c2).
Proof.
  intros Hc k'. unfold map_read. rewrite !lookup_insert.
  destruct (decide (k = k')); [reflexivity | apply Hc].
Qed.

Lemma getVertexPartitionIdx_agree (toVertex : string) (P : Z) (c1 c2 : gmap string Z) :
  agree c1 c2 ->
  same_outcome (getVertexPartitionIdx toVertex P c1)
               (getVertexPartitionIdx toVertex P c2).
Proof.
  intros Hc. unfold getVertexPartitionIdx.
  destruct (decide (P = 0)); simpl; [reflexivity|].
  rewrite (Hc toVertex). split; [reflexivity|]. apply agree_insert, Hc.
Qed.

Lemma forwardEdge_agree sfm keys tags result edge (c1 c2 : gmap string Z) :
  agree c1 c2 ->
  same_outcome (forwardEdge sfm keys tags result edge c1)
               (forwardEdge sfm keys tags result edge c2).
Proof.
  intros Hc.
  assert (Hshuffle : forall c1 c2 : gmap string Z, agree c1 c2 ->
    same_outcome
      ((call! toVertexPartition := shuffleLookup sfm (shuffleKey edge) keys in
        ret (result ++ [{| ToVertexName := To edge;
                           ToVertexPartitionIdx := toVertexPartition |}])) c1)
      ((call! toVertexPartition := shuffleLookup sfm (shuffleKey edge) keys in
        ret (result ++ [{| ToVertexName := To edge;
                           ToVertexPartitionIdx := toVertexPartition |}])) c2)).
  { intros d1 d2 Hd. unfold bind, shuffleLookup, ret.
    destruct (sfm !! shuffleKey edge); simpl; auto. }
  assert (Hcount : forall c1 c2 : gmap string Z, agree c1 c2 ->
    same_outcome
      ((call! idx := getVertexPartitionIdx (To edge) (GetToVertexPartitionCount edge) in
        ret (result ++ [{| ToVertexName := To edge; ToVertexPartitionIdx := idx |}])) c1)
      ((call! idx := getVertexPartitionIdx (To edge) (GetToVertexPartitionCount edge) in
        ret (result ++ [{| ToVertexName := To edge; ToVertexPartitionIdx := idx |}])) c2)).
  { intros d1 d2 Hd. unfold bind, ret.
    pose proof (getVertexPartitionIdx_agree (To edge)
                  (GetToVertexPartitionCount edge) d1 d2 Hd) as H.
    destruct (getVertexPartitionIdx _ _ d1) as [[i1 d1']|p1],
             (getVertexPartitionIdx _ _ d2) as [[i2 d2']|p2];
      simpl in *; try tauto.
    destruct H as [-> H]. auto. }
  unfold forwardEdge.
  destruct (tagConditions edge) as [t|].
  - destruct (CompareSlice _ _ _).
    + destruct (needShuffle edge); auto.
    + simpl. auto.
  - destruct (needShuffle edge); auto.
Qed.

Lemma forEdges_agree sfm keys tags edges :
  forall result (c1 c2 : gmap string Z),
  agree c1 c2 ->
  same_outcome (forEdges sfm keys tags result edges c1)
               (forEdges sfm keys tags result edges c2).
Proof.
  induction edges as [|edge edges IH]; intros result c1 c2 Hc.
  - simpl. auto.
  - simpl. unfold bind.
    pose proof (forwardEdge_agree sfm keys tags result edge c1 c2 Hc) as H.
    destruct (forwardEdge sfm keys tags result edge c1) as [[r1 d1]|p1],
             (forwardEdge sfm keys tags result edge c2) as [[r2 d2]|p2];
      simpl in H; try tauto.
    destruct H as [-> H]. apply IH, H.
Qed.

Lemma route_agree ToEdges sfm keys tags (c1 c2 : gmap string Z) :
  agree c1 c2 ->
  same_outcome (route ToEdges sfm keys tags c1) (route ToEdges sfm keys tags c2).
Proof.
  intros Hc. unfold route.
  destruct (StringSliceContains tags MessageTagDrop); [simpl; auto|].
  unfold bind.
  pose proof (forEdges_agree sfm keys tags ToEdges [] c1 c2 Hc) as H.
  destruct (forEdges sfm keys tags [] ToEdges c1) as [[r1 d1]|p1],
           (forEdges sfm keys tags [] ToEdges c2) as [[r2 d2]|p2];
    simpl in *; try tauto.
  destruct H as [-> H]. auto.
Qed.

(** *** What the router guarantees *)

(** C1.  A record whose tags contain the drop sentinel is routed nowhere:
    whatever the keys, the edge list and the shuffle function map are,
    the router returns the empty set of assignments with a nil error and
    hands back the partition counter untouched.  No edge is evaluated:
    the answer is the same on edge lists whose evaluation would panic. *)
Theorem route_drop (ToEdges : list Edge) (shuffleFuncMap : gmap string Shuffle)
    (keys tags : list string) (counters : gmap string Z) :
  MessageTagDrop ∈ tags ->
  route ToEdges shuffleFuncMap keys tags counters = Ok (([], nil_error), counters).
Proof.
  intros Hdrop. unfold route.
  apply StringSliceContains_spec in Hdrop. rewrite Hdrop. reflexivity.
Qed.

(** C3.  For a record that is not dropped, the destinations of the
    returned assignments are, in edge order, the destinations of exactly
    the edges that match: those without a tag condition (nil conditions,
    nil tags or no required values) and those whose operator accepts the
    record's tags against the required values.  Each matching edge gives
    one assignment and the others give none.  The partition counts are
    taken to be non-zero, as the data model has them. *)
Theorem route_matched_edges (ToEdges : list Edge) (keys tags : list string)
    (counters : gmap string Z) :
  MessageTagDrop ∉ tags ->
  Forall (fun edge => GetToVertexPartitionCount edge <> 0) ToEdges ->
  exists result counters',
    conditionalForwarder ToEdges keys tags counters
      = Ok ((result, nil_error), counters')
    /\ ToVertexName <$> result = To <$> List.filter (spec_matched tags) ToEdges.
Proof.
  intros Hkeep Hcounts. unfold conditionalForwarder, route.
  destruct (StringSliceContains tags MessageTagDrop) eqn:Hc.
  { apply StringSliceContains_spec in Hc. contradiction. }
  destruct (forEdges_returns (populateShuffleFuncMap ToEdges) keys tags ToEdges)
    with (result := @List.nil VertexBuffer) (counters := counters)
    as (result & counters' & Hrun & Hnames).
  - intros edge. apply populateShuffleFuncMap_covers.
  - assumption.
  - exists result, counters'. split; [|exact Hnames].
    unfold bind. rewrite Hrun. reflexivity.
Qed.

(** C8.  The router does not fail.  Every lookup in the shuffle function
    map on the shuffle branch finds an entry, since the map was populated
    from the same edges under the same guard; and for all keys and tags
    the closure returns an assignment set together with a nil error.  The
    partition counts are taken to be non-zero, as the data model has
    them. *)
Theorem route_never_fails (ToEdges : list Edge) (keys tags : list string)
    (counters : gmap string Z) :
  Forall (fun edge => GetToVertexPartitionCount edge <> 0) ToEdges ->
  (forall edge,
      edge ∈ ToEdges ->
      ToVertexType edge = VertexTypeReduceUDF /\ 1 < GetToVertexPartitionCount edge ->
      is_Some (populateShuffleFuncMap ToEdges !! shuffleKey edge))
  /\ exists result counters',
       conditionalForwarder ToEdges keys tags counters
         = Ok ((result, nil_error), counters').
Proof.
  intros Hcounts. split.
  - intros edge Hin Hneed. apply needShuffle_spec in Hneed.
    apply populateShuffleFuncMap_covers; assumption.
  - unfold conditionalForwarder, route.
    destruct (StringSliceContains tags MessageTagDrop); [eexists _, _; reflexivity|].
    destruct (forEdges_returns (populateShuffleFuncMap ToEdges) keys tags ToEdges)
      with (result := @List.nil VertexBuffer) (counters := counters)
      as (result & counters' & Hrun & _).
    + intros edge. apply populateShuffleFuncMap_covers.
    + assumption.
    + exists result, counters'. unfold bind. rewrite Hrun. reflexivity.
Qed.

(** C9.  The router is deterministic.  Two calls with the same keys and
    tags over the same edge list end alike whenever their partition
    counters read the same for every destination, and so in particular
    when the counter states are identical: same assignment set, same
    error, and counters that again read the same.  And on an edge to a
    reduce vertex with more than one partition, two records with the
    same keys that both match the edge get the same destination
    partition, whatever their tags, the assignments made before and the
    counter states are. *)
Theorem route_deterministic (ToEdges : list Edge) (keys : list string) :
  (forall tags (counters1 counters2 : gmap string Z),
      agree counters1 counters2 ->
      same_outcome (conditionalForwarder ToEdges keys tags counters1)
                   (conditionalForwarder ToEdges keys tags counters2))
  /\ (forall tags (counters1 counters2 : gmap string Z),
        counters1 = counters2 ->
        conditionalForwarder ToEdges keys tags counters1
        = conditionalForwarder ToEdges keys tags counters2)
  /\ (forall edge tags1 tags2 result1 result2 (counters1 counters2 : gmap string Z),
        edge ∈ ToEdges ->
        ToVertexType edge = VertexTypeReduceUDF ->
        1 < GetToVertexPartitionCount edge ->
        spec_matched tags1 edge = true ->
        spec_matched tags2 edge = true ->
        exists partition,
          forwardEdge (populateShuffleFuncMap ToEdges) keys tags1 result1 edge counters1
          = Ok (result1 ++ [{| ToVertexName := To edge;
                               ToVertexPartitionIdx := partition |}], counters1)
          /\ forwardEdge (populateShuffleFuncMap ToEdges) keys tags2 result2 edge counters2
             = Ok (result2 ++ [{| ToVertexName := To edge;
                                  ToVertexPartitionIdx := partition |}], counters2)).
Proof.
  split; [|split].
  - intros tags c1 c2 Hc. apply route_agree, Hc.
  - intros tags c1 c2 ->. reflexivity.
  - intros edge tags1 tags2 result1 result2 c1 c2 Hin Htype Hcount Hm1 Hm2.
    assert (Hneed : needShuffle edge = true) by (apply needShuffle_spec; auto).
    destruct (populateShuffleFuncMap_covers ToEdges edge Hin Hneed) as [s Hs].
    exists (ShuffleKeys s keys).
    rewrite !forwardEdge_matched by assumption.
    rewrite Hneed. unfold bind, shuffleLookup, ret. rewrite Hs. auto.
Qed.

End RouterProperties.

(** *** The router on the example topology *)

Lemma counts_nonzero_example :
  Forall (fun edge => GetToVertexPartitionCount edge <> 0)
         [edge_to_reduce; edge_tagged; edge_to_sink].
Proof. repeat constructor; discriminate. Defined.

Lemma route_drop_witness :
  route (ext := example_collaborators)
        [edge_without_partitions; edge_to_reduce] ∅ ["k"] ["odd"; "DROP"]
        {["sink" := 1]}
  = Ok (([], nil_error), {["sink" := 1]}).
Proof.
  apply (route_drop (ext := example_collaborators)
           [edge_without_partitions; edge_to_reduce] ∅ ["k"] ["odd"; "DROP"]
           {["sink" := 1]}).
  apply list_elem_of_further, list_elem_of_here.
Defined.

(** The same edge list does panic on a record that is not dropped: its
    first edge divides by zero. *)
Example route_evaluates_edges_otherwise :
  route (ext := example_collaborators)
        [edge_without_partitions; edge_to_reduce] ∅ ["k"] ["odd"]
        {["sink" := 1]}
  = Panic DivideByZero.
Proof. reflexivity. Qed.

Lemma route_matched_edges_witness :
  exists result counters',
    conditionalForwarder (ext := example_collaborators)
      [edge_to_reduce; edge_tagged; edge_to_sink] ["k"] ["prime"] ∅
    = Ok ((result, nil_error), counters')
    /\ ToVertexName <$> result = ["reduce"; "sink"]%string.
Proof.
  apply (route_matched_edges (ext := example_collaborators)
           [edge_to_reduce; edge_tagged; edge_to_sink] ["k"] ["prime"] ∅).
  - intros Hin. apply elem_of_cons in Hin as [Heq|Hin]; [discriminate Heq|].
    inversion Hin.
  - exact counts_nonzero_example.
Defined.

Lemma route_never_fails_witness :
  (forall edge,
      edge ∈ [edge_to_reduce; edge_tagged; edge_to_sink] ->
      ToVertexType edge = VertexTypeReduceUDF /\ 1 < GetToVertexPartitionCount edge ->
      is_Some (populateShuffleFuncMap [edge_to_reduce; edge_tagged; edge_to_sink]
                 !! shuffleKey edge))
  /\ exists result counters',
       conditionalForwarder (ext := example_collaborators)
         [edge_to_reduce; edge_tagged; edge_to_sink] ["k"] ["even"] ∅
       = Ok ((result, nil_error), counters').
Proof.
  apply (route_never_fails (ext := example_collaborators)
           [edge_to_reduce; edge_tagged; edge_to_sink] ["k"] ["even"] ∅).
  exact counts_nonzero_example.
Defined.

(** Scenario B: the dropped record gets no assignment, the untagged one
    gets one per edge. *)
Example scenario_B :
  conditionalForwarder (ext := example_collaborators)
    [edge_to_reduce; edge_to_sink] ["key"] ["DROP"] ∅
  = Ok (([], nil_error), ∅)
  /\ conditionalForwarder (ext := example_collaborators)
       [edge_to_reduce; edge_to_sink] ["key"] [] ∅
     = Ok (([ {| ToVertexName := "reduce"; ToVertexPartitionIdx := 3 |};
              {| ToVertexName := "sink"; ToVertexPartitionIdx := 1 |} ], nil_error),
           {["sink" := 1]}).
Proof. split; reflexivity. Qed.

Lemma route_deterministic_witness :
  same_outcome
    (conditionalForwarder (ext := example_collaborators)
       [edge_to_reduce; edge_to_sink] ["key"] [] ∅)
    (conditionalForwarder (ext := example_collaborators)
       [edge_to_reduce; edge_to_sink] ["key"] [] {["sink" := 0]})
  /\ exists partition,
       forwardEdge (ext := example_collaborators)
         (populateShuffleFuncMap [edge_to_reduce; edge_to_sink])
         ["key"] ["a"] [] edge_to_reduce ∅
       = Ok ([{| ToVertexName := "reduce"; ToVertexPartitionIdx := partition |}], ∅)
       /\ forwardEdge (ext := example_collaborators)
            (populateShuffleFuncMap [edge_to_reduce; edge_to_sink])
            ["key"] ["b"] [] edge_to_reduce {["sink" := 1]}
          = Ok ([{| ToVertexName := "reduce"; ToVertexPartitionIdx := partition |}],
                {["sink" := 1]}).
Proof.
  destruct (route_deterministic (ext := example_collaborators)
              [edge_to_reduce; edge_to_sink] ["key"]) as (Hagree & _ & Hshuffle).
  split.
  - apply Hagree. intros toVertex. unfold map_read.
    rewrite lookup_empty.
    destruct (decide ("sink"%string = toVertex)) as [<-|Hne].
    + rewrite lookup_singleton_eq. reflexivity.
    + rewrite lookup_singleton_ne by exact Hne. reflexivity.
  - apply (Hshuffle edge_to_reduce ["a"] ["b"] [] [] ∅ {["sink" := 1]}).
    + apply list_elem_of_here.
    + reflexivity.
    + reflexivity.
    + reflexivity.
    + reflexivity.
Defined.

(** ** The lifecycle *)

Lemma andThen_inl {A B} (c : Run A) (k : A -> Run B) (a : A) :
  result c = inl a ->
  andThen c k = MkRun (emitted c ++ emitted (k a)) (deferred (k a) ++ deferred c)
                      (result (k a)).
Proof. intros H. unfold andThen. rewrite H. reflexivity. Qed.

Lemma andThen_inr {A B} (c : Run A) (k : A -> Run B) (x : exit) :
  result c = inr x ->
  andThen c k = MkRun (emitted c) (deferred c) (inr x).
Proof. intros H. unfold andThen. rewrite H. reflexivity. Qed.

(** *** The provisioning phase *)

Lemma setup_pure {A} (a : A) : setup (pure a).
Proof. split; [|split]; constructor. Qed.

Lemma setup_andThen {A B} (c : Run A) (k : A -> Run B) :
  setup c -> (forall a, setup (k a)) -> setup (andThen c k).
Proof.
  intros (He & Hd & Hr) Hk. unfold andThen.
  destruct (result c) as [a|x] eqn:Hres.
  - destruct (Hk a) as (He' & Hd' & Hr'). split; [|split]; simpl.
    + apply Forall_app; auto.
    + apply Forall_app; auto.
    + destruct (result (k a)); [apply Forall_app; auto | exact Hr'].
  - split; [|split]; simpl; auto.
Qed.

Lemma setup_defer (events : list event) :
  Forall (fun e => phase e = 5%nat) events -> setup (defer events).
Proof. intros H. split; [|split]; simpl; repeat constructor; exact H. Qed.

Lemma setup_check (c : callee) (answer : error) (wrap : string -> string) :
  setup_event (EvCall c answer) = true -> setup (check c answer wrap).
Proof.
  intros Hc. unfold check. destruct answer as [err|].
  - split; [|split]; simpl; eauto; repeat constructor; exact Hc.
  - split; [|split]; simpl; repeat constructor; exact Hc.
Qed.

Lemma setup_try {A} (c : callee) (answer : go_result A) (wrap : string -> string) :
  (forall err, setup_event (EvCall c err) = true) -> setup (try c answer wrap).
Proof.
  intros Hc. unfold try. destruct answer as [a|err].
  - split; [|split]; simpl; repeat constructor; apply Hc.
  - split; [|split]; simpl; eauto; repeat constructor; apply Hc.
Qed.

Lemma deferredCloseConn_late (w : World) :
  Forall (fun e => phase e = 5%nat) (deferredCloseConn w).
Proof. unfold deferredCloseConn. destruct (CloseConn w); repeat constructor. Qed.

Lemma setup_provision (w : World) : setup (provision w).
Proof.
  unfold provision. destruct (ISBSvcType w) as [| |name].
  - apply setup_andThen; [apply setup_try; reflexivity|].
    intros. apply setup_pure.
  - destruct (WatermarkDisabled w); [apply setup_pure|].
    repeat (apply setup_andThen; [apply setup_try; reflexivity | intros]).
    apply setup_pure.
  - split; [|split]; simpl; eauto; repeat constructor.
Qed.

Lemma setup_connectHandler (w : World) (enable : bool) :
  setup (connectHandler w enable).
Proof.
  unfold connectHandler. destruct enable;
    repeat (apply setup_andThen; [apply setup_check; reflexivity | intros]);
    apply setup_defer, deferredCloseConn_late.
Qed.

Lemma setup_provisioningPhase (w : World) : setup (provisioningPhase w).
Proof.
  unfold provisioningPhase.
  apply setup_andThen; [apply setup_defer; repeat constructor | intros].
  apply setup_andThen; [apply setup_check; reflexivity | intros].
  apply setup_andThen; [apply setup_defer; repeat constructor | intros].
  apply setup_andThen; [apply setup_provision | intros].
  apply setup_andThen; [apply setup_try; reflexivity | intros].
  apply setup_andThen; [apply setup_connectHandler | intros].
  apply setup_pure.
Qed.

(** The deferred functions pending when the provisioning has gone
    through. *)
Lemma deferred_provisioningPhase (w : World) (p : Provisioned) :
  result (provisioningPhase w) = inl p ->
  deferred (provisioningPhase w) =
    [deferredCloseConn w; [EvClose NatsClientPool nil_error]; [EvCancel]].
Proof.
  unfold provisioningPhase, provision, connectHandler, check, try.
  destruct (NewClientPool w); simpl; [discriminate|].
  destruct (ISBSvcType w); simpl.
  - destruct (buildRedisBufferIO w); simpl; [|discriminate].
    destruct (MapUdfStreamEnabled w) as [[|]|]; simpl; [| |discriminate].
    + destruct (mapstreamer_New w); simpl; [discriminate|].
      destruct (WaitUntilReady w); simpl; [discriminate|]. reflexivity.
    + destruct (mapper_New w); simpl; [discriminate|].
      destruct (WaitUntilReady w); simpl; [discriminate|]. reflexivity.
  - destruct (WatermarkDisabled w); simpl.
    + destruct (MapUdfStreamEnabled w) as [[|]|]; simpl; [| |discriminate].
      * destruct (mapstreamer_New w); simpl; [discriminate|].
        destruct (WaitUntilReady w); simpl; [discriminate|]. reflexivity.
      * destruct (mapper_New w); simpl; [discriminate|].
        destruct (WaitUntilReady w); simpl; [discriminate|]. reflexivity.
    + destruct (BuildProcessorManagers w); simpl; [|discriminate].
      destruct (BuildToVertexWatermarkStores w); simpl; [|discriminate].
      destruct (buildJetStreamBufferIO w); simpl; [|discriminate].
      destruct (MapUdfStreamEnabled w) as [[|]|]; simpl; [| |discriminate].
      * destruct (mapstreamer_New w); simpl; [discriminate|].
        destruct (WaitUntilReady w); simpl; [discriminate|]. reflexivity.
      * destruct (mapper_New w); simpl; [discriminate|].
        destruct (WaitUntilReady w); simpl; [discriminate|]. reflexivity.
  - discriminate.
Qed.

(** *** The loop over the input partitions *)

Lemma startPartition_panics w readers index bufferPartition :
  readers !! index = None ->
  startPartition w readers index bufferPartition
  = MkRun [] [] (inr (Panicked IndexOutOfRange)).
Proof. intros H. unfold startPartition. rewrite H. reflexivity. Qed.

Lemma startPartition_fails w readers index bufferPartition reader err :
  readers !! index = Some reader ->
  NewInterStepDataForward w index = Some err ->
  startPartition w readers index bufferPartition
  = MkRun [EvCall (CallNewInterStepDataForward index) (Some err)] []
          (inr (Returned (Some err))).
Proof.
  intros H Herr. unfold startPartition, check. rewrite H, Herr. reflexivity.
Qed.

Lemma startPartition_starts w readers index bufferPartition reader :
  readers !! index = Some reader ->
  NewInterStepDataForward w index = None ->
  startPartition w readers index bufferPartition
  = MkRun [EvCall (CallNewInterStepDataForward index) nil_error; EvAdd;
           EvGo bufferPartition] [] (inl tt).
Proof.
  intros H Hok. unfold startPartition, check. rewrite H, Hok. reflexivity.
Qed.

(** What the loop does from partition [index] on: it defers nothing and
    closes nothing; when it goes through, every partition has got its
    [Add] and its worker, in order; and when a forwarder construction
    fails, [Start] returns that error with exactly the workers of the
    partitions before it started. *)
Lemma forEachIndexed_startPartition w readers partitions :
  forall index,
  let r := forEachIndexed (startPartition w readers) index partitions in
  deferred r = []
  /\ Forall (fun e => phase e = 0%nat) (emitted r)
  /\ (result r = inl tt ->
      started (emitted r) = partitions
      /\ adds (emitted r) = length partitions
      /\ Forall (fun e => failure e = false) (emitted r))
  /\ (forall e, e ∈ emitted r -> failure e = true ->
      exists j err,
        e = EvCall (CallNewInterStepDataForward j) (Some err)
        /\ (index <= j)%nat
        /\ result r = inr (Returned (Some err))
        /\ started (emitted r) = take (j - index) partitions).
Proof.
  induction partitions as [|x rest IH]; intros index; simpl.
  - split; [reflexivity|]. split; [constructor|]. split.
    + intros _. repeat split. constructor.
    + intros e He. inversion He.
  - destruct (readers !! index) as [reader|] eqn:Hreader.
    2:{ rewrite (startPartition_panics w readers index x Hreader).
        unfold andThen; simpl.
        split; [reflexivity|]. split; [constructor|]. split; [discriminate|].
        intros e He. inversion He. }
    destruct (NewInterStepDataForward w index) as [err|] eqn:Hnew.
    + rewrite (startPartition_fails w readers index x reader err Hreader Hnew).
      unfold andThen; simpl.
      split; [reflexivity|]. split; [repeat constructor|]. split; [discriminate|].
      intros e He _. apply list_elem_of_singleton in He as ->.
      exists index, err. rewrite Nat.sub_diag. auto.
    + rewrite (startPartition_starts w readers index x reader Hreader Hnew).
      destruct (IH (S index)) as (Hd & Hp & Hok & Hfail).
      unfold andThen; simpl.
      split; [rewrite Hd; reflexivity|].
      split; [repeat constructor; exact Hp|].
      split.
      * intros Hres. destruct (Hok Hres) as (Hs & Ha & Hf).
        split; [|split].
        -- unfold started in *. simpl. f_equal. exact Hs.
        -- unfold adds in *. simpl. f_equal. exact Ha.
        -- repeat constructor. exact Hf.
      * intros e He Hfe.
        repeat (apply elem_of_cons in He as [->|He]; [discriminate Hfe|]).
        destruct (Hfail e He Hfe) as (j & err & -> & Hj & Hres & Hs).
        exists j, err. split; [reflexivity|]. split; [lia|].
        split; [exact Hres|].
        replace (j - index)%nat with (S (j - S index)) by lia.
        unfold started in *. simpl. f_equal. exact Hs.
Qed.

(** *** Order of events *)

Lemma in_order_uniform (k : nat) (t : list event) :
  Forall (fun e => phase e = k) t -> in_order t.
Proof.
  induction 1 as [|e t He Ht IH]; constructor; [exact IH|].
  eapply Forall_impl; [exact Ht|]. intros e' He'. unfold phase_le.
  simpl in *. lia.
Qed.

Lemma in_order_app (k : nat) (t1 t2 : list event) :
  in_order t1 -> in_order t2 ->
  Forall (fun e => (phase e <= k)%nat) t1 ->
  Forall (fun e => (k <= phase e)%nat) t2 ->
  in_order (t1 ++ t2).
Proof.
  intros H1 H2 Hle Hge. apply StronglySorted_app_2; [|assumption..].
  intros e1 e2 He1 He2. unfold phase_le.
  rewrite Forall_forall in Hle, Hge.
  specialize (Hle e1 He1). specialize (Hge e2 He2). lia.
Qed.

Lemma started_app (t1 t2 : list event) :
  started (t1 ++ t2) = started t1 ++ started t2.
Proof. apply omap_app. Qed.

Lemma closed_app (t1 t2 : list event) :
  closed (t1 ++ t2) = closed t1 ++ closed t2.
Proof. apply omap_app. Qed.

Lemma adds_app (t1 t2 : list event) : adds (t1 ++ t2) = (adds t1 + adds t2)%nat.
Proof. unfold adds. rewrite omap_app. apply length_app. Qed.

Lemma started_setup (t : list event) :
  Forall (fun e => setup_event e = true) t -> started t = [].
Proof.
  induction 1 as [|e t He _ IH]; [reflexivity|].
  unfold started in *. destruct e; simpl in *; try discriminate; exact IH.
Qed.

Lemma closed_setup (t : list event) :
  Forall (fun e => setup_event e = true) t -> closed t = [].
Proof.
  induction 1 as [|e t He _ IH]; [reflexivity|].
  unfold closed in *. destruct e; simpl in *; try discriminate; exact IH.
Qed.

Lemma adds_setup (t : list event) :
  Forall (fun e => setup_event e = true) t -> adds t = 0%nat.
Proof.
  induction 1 as [|e t He _ IH]; [reflexivity|].
  unfold adds in *. destruct e; simpl in *; try discriminate; exact IH.
Qed.

Lemma phase_setup (t : list event) :
  Forall (fun e => setup_event e = true) t -> Forall (fun e => phase e = 0%nat) t.
Proof.
  intros Ht. eapply Forall_impl; [exact Ht|].
  intros e He. destruct e; simpl in *; try discriminate; reflexivity.
Qed.

Lemma started_late (t : list event) :
  Forall (fun e => phase e <> 0%nat) t -> started t = [].
Proof.
  induction 1 as [|e t He _ IH]; [reflexivity|].
  unfold started in *. destruct e; simpl in *; try congruence; exact IH.
Qed.

Lemma adds_late (t : list event) :
  Forall (fun e => phase e <> 0%nat) t -> adds t = 0%nat.
Proof.
  induction 1 as [|e t He _ IH]; [reflexivity|].
  unfold adds in *. destruct e; simpl in *; try congruence; exact IH.
Qed.

Lemma closed_early (t : list event) :
  Forall (fun e => phase e = 0%nat) t -> closed t = [].
Proof.
  induction 1 as [|e t He _ IH]; [reflexivity|].
  unfold closed in *. destruct e as [| | | | |r ?|r|]; simpl in *;
    try exact IH; destruct r; discriminate.
Qed.

Lemma failure_early (e : event) : failure e = true -> phase e = 0%nat.
Proof. destruct e as [c [err|]| | | | | | |]; simpl; congruence. Qed.

Lemma no_join (t : list event) :
  Forall (fun e => phase e <> 1%nat) t -> EvWait ∉ t.
Proof.
  intros Ht Hin. rewrite Forall_forall in Ht. apply (Ht _ Hin). reflexivity.
Qed.

(** *** The teardown *)

Lemma forEach_emits {A} (body : A -> Run unit) (l : list A) :
  (forall x, result (body x) = inl tt) ->
  (forall x, deferred (body x) = []) ->
  forEach body l = MkRun (concat ((fun x => emitted (body x)) <$> l)) [] (inl tt).
Proof.
  intros Hres Hdef. induction l as [|x rest IH]; [reflexivity|].
  simpl. rewrite (andThen_inl _ _ tt) by apply Hres.
  rewrite IH. simpl. rewrite Hdef. reflexivity.
Qed.

Lemma teardown_emits (p : Provisioned) :
  teardown p
  = MkRun (closesOfManagers p ++ closesOfPublishers p ++ closesOfStores p)
          [] (inl tt).
Proof.
  unfold teardown.
  rewrite !forEach_emits; try reflexivity.
  - unfold andThen. simpl. f_equal. f_equal.
    + unfold closesOfManagers. induction (processorManagers p) as [|pm l IH];
        [reflexivity | simpl; f_equal; exact IH].
    + f_equal.
      * unfold closesOfPublishers. f_equal. apply list_fmap_ext.
        intros _ publisher _. unfold andThen. simpl.
        destruct (publisherClose publisher); reflexivity.
      * unfold closesOfStores. induction (wmStores p) as [|x l IH];
          [reflexivity | simpl; f_equal; exact IH].
  - intros publisher. unfold andThen. simpl.
    destruct (publisherClose publisher); reflexivity.
  - intros publisher. unfold andThen. simpl.
    destruct (publisherClose publisher); reflexivity.
Qed.

Lemma teardown_closed (p : Provisioned) :
  closed (closesOfManagers p ++ closesOfPublishers p ++ closesOfStores p)
  = (ProcessorManager <$> processorManagers p)
    ++ ((fun publisher => WatermarkPublisher (publisherName publisher))
          <$> publishWatermark p)
    ++ ((fun wmStore => WmStore (storeName wmStore)) <$> wmStores p).
Proof.
  rewrite !closed_app. f_equal; [|f_equal].
  - unfold closesOfManagers. induction (processorManagers p) as [|x l IH];
      [reflexivity|]. unfold closed in *. simpl. f_equal. exact IH.
  - unfold closesOfPublishers. induction (publishWatermark p) as [|x l IH];
      [reflexivity|]. unfold closed in *. simpl.
    destruct (publisherClose x); simpl; f_equal; exact IH.
  - unfold closesOfStores. induction (wmStores p) as [|x l IH];
      [reflexivity|]. unfold closed in *. simpl. f_equal. exact IH.
Qed.

Lemma closesOfManagers_phase (p : Provisioned) :
  Forall (fun e => phase e = 2%nat) (closesOfManagers p).
Proof. unfold closesOfManagers. apply Forall_fmap, Forall_true. reflexivity. Qed.

Lemma closesOfPublishers_phase (p : Provisioned) :
  Forall (fun e => phase e = 3%nat) (closesOfPublishers p).
Proof.
  unfold closesOfPublishers. apply Forall_concat, Forall_fmap, Forall_true.
  intros publisher. simpl. destruct (publisherClose publisher); repeat constructor.
Qed.

Lemma closesOfStores_phase (p : Provisioned) :
  Forall (fun e => phase e = 4%nat) (closesOfStores p).
Proof. unfold closesOfStores. apply Forall_fmap, Forall_true. reflexivity. Qed.

(** *** The four ways a run of [Start] can go *)

Lemma Start_provisioning_fails (w : World) (x : exit) :
  result (provisioningPhase w) = inr x ->
  Start w = (emitted (provisioningPhase w) ++ concat (deferred (provisioningPhase w)), x).
Proof.
  intros H. unfold Start, body. rewrite (andThen_inr _ _ x H). reflexivity.
Qed.

Lemma shutdownPhase_metrics_fails (w : World) (p : Provisioned) (err : string) :
  MetricsServerStart w = Some err ->
  shutdownPhase w p
  = MkRun [EvCall CallMetricsServerStart (Some err)] []
          (inr (Returned (Some ("failed to start metrics server, error: " ++ err)%string))).
Proof. intros Hm. unfold shutdownPhase, check. rewrite Hm. reflexivity. Qed.

Lemma shutdownPhase_joins (w : World) (p : Provisioned) :
  MetricsServerStart w = None ->
  shutdownPhase w p
  = MkRun ([EvCall CallMetricsServerStart nil_error; EvWait]
           ++ closesOfManagers p ++ closesOfPublishers p ++ closesOfStores p)
          [[EvClose MetricsServer nil_error]] (inl nil_error).
Proof.
  intros Hm. unfold shutdownPhase, check. rewrite Hm, teardown_emits.
  set (closes := closesOfManagers p ++ closesOfPublishers p ++ closesOfStores p).
  unfold andThen. simpl. rewrite app_nil_r. reflexivity.
Qed.

Lemma deferred_runningPhase (w : World) (p : Provisioned) :
  deferred (runningPhase w p) = [].
Proof.
  apply (forEachIndexed_startPartition w (readers p) (OwnedBuffers w) 0).
Qed.

Lemma Start_running_fails (w : World) (p : Provisioned) (x : exit) :
  result (provisioningPhase w) = inl p ->
  result (runningPhase w p) = inr x ->
  Start w = (emitted (provisioningPhase w) ++ emitted (runningPhase w p)
             ++ lateCloses w, x).
Proof.
  intros Hp Hr. unfold Start, body. rewrite (andThen_inl _ _ p Hp).
  rewrite (andThen_inr _ _ x Hr). cbn [emitted deferred result].
  rewrite (deferred_provisioningPhase w p Hp), deferred_runningPhase.
  unfold lateCloses.
  set (A := emitted (provisioningPhase w)). set (B := emitted (runningPhase w p)).
  set (D := deferredCloseConn w).
  simpl. rewrite <- !app_assoc. reflexivity.
Qed.

Lemma Start_metrics_fails (w : World) (p : Provisioned) (err : string) :
  result (provisioningPhase w) = inl p ->
  result (runningPhase w p) = inl tt ->
  MetricsServerStart w = Some err ->
  Start w = (emitted (provisioningPhase w) ++ emitted (runningPhase w p)
             ++ [EvCall CallMetricsServerStart (Some err)] ++ lateCloses w,
             Returned (Some ("failed to start metrics server, error: " ++ err)%string)).
Proof.
  intros Hp Hr Hm. unfold Start, body. rewrite (andThen_inl _ _ p Hp).
  rewrite (andThen_inl _ _ tt Hr).
  rewrite (shutdownPhase_metrics_fails w p err Hm). cbn [emitted deferred result].
  rewrite (deferred_provisioningPhase w p Hp), deferred_runningPhase.
  unfold lateCloses.
  set (A := emitted (provisioningPhase w)). set (B := emitted (runningPhase w p)).
  set (D := deferredCloseConn w).
  simpl. rewrite <- !app_assoc. reflexivity.
Qed.

Lemma Start_joins (w : World) (p : Provisioned) :
  result (provisioningPhase w) = inl p ->
  result (runningPhase w p) = inl tt ->
  MetricsServerStart w = None ->
  Start w = (emitted (provisioningPhase w) ++ emitted (runningPhase w p)
             ++ [EvCall CallMetricsServerStart nil_error; EvWait]
             ++ (closesOfManagers p ++ closesOfPublishers p ++ closesOfStores p)
             ++ [EvClose MetricsServer nil_error] ++ lateCloses w,
             Returned nil_error).
Proof.
  intros Hp Hr Hm. unfold Start, body. rewrite (andThen_inl _ _ p Hp).
  rewrite (andThen_inl _ _ tt Hr).
  rewrite (shutdownPhase_joins w p Hm). cbn [emitted deferred result].
  rewrite (deferred_provisioningPhase w p Hp), deferred_runningPhase.
  unfold lateCloses.
  set (A := emitted (provisioningPhase w)). set (B := emitted (runningPhase w p)).
  set (C := closesOfManagers p ++ closesOfPublishers p ++ closesOfStores p).
  set (D := deferredCloseConn w).
  simpl. rewrite <- !app_assoc. reflexivity.
Qed.

Lemma lateCloses_phase (w : World) :
  Forall (fun e => phase e = 5%nat) (lateCloses w).
Proof.
  unfold lateCloses. apply Forall_app. split;
    [apply deferredCloseConn_late | repeat constructor].
Qed.

Lemma setup_late (w : World) :
  Forall (fun e => phase e = 5%nat) (concat (deferred (provisioningPhase w))).
Proof. apply Forall_concat. apply (setup_provisioningPhase w). Qed.

(** *** The wait group *)

Lemma exits_le (ws : list (string * worker_state)) : (exits ws <= length ws)%nat.
Proof. unfold exits. apply length_filter. Qed.

Lemma exits_all (ws : list (string * worker_state)) :
  exits ws = length ws -> Forall has_exited ws.
Proof.
  induction ws as [|x ws IH]; intros H; [constructor|].
  unfold exits in *. rewrite filter_cons in H.
  destruct (decide (has_exited x)) as [Hx|Hx]; simpl in H.
  - constructor; [exact Hx | apply IH; lia].
  - pose proof (exits_le ws) as Hle. unfold exits in Hle. lia.
Qed.

Lemma exits_app (ws1 ws2 : list (string * worker_state)) :
  exits (ws1 ++ ws2) = (exits ws1 + exits ws2)%nat.
Proof. unfold exits. rewrite filter_app. apply length_app. Qed.

Lemma exits_insert (ws : list (string * worker_state)) (i : nat)
    (name : string) (st st' : worker_state) :
  ws !! i = Some (name, st) -> st <> Exited ->
  exits (<[i := (name, st')]> ws)
  = (exits ws + if decide (st' = Exited) then 1 else 0)%nat.
Proof.
  revert i. induction ws as [|x ws IH]; intros i Hi Hst; [discriminate|].
  destruct i as [|i]; simpl in *.
  - injection Hi as ->. unfold exits. rewrite !filter_cons.
    destruct (decide (has_exited (name, st))) as [H|_]; [contradiction|].
    unfold has_exited at 1. simpl.
    destruct (decide (st' = Exited)); simpl; lia.
  - specialize (IH i Hi Hst). unfold exits in *. rewrite !filter_cons.
    destruct (decide (has_exited x)); simpl; lia.
Qed.

Lemma names_insert (ws : list (string * worker_state)) (i : nat)
    (name : string) (st st' : worker_state) :
  ws !! i = Some (name, st) -> (<[i := (name, st')]> ws).*1 = ws.*1.
Proof.
  intros Hi. rewrite list_fmap_insert. simpl.
  apply list_insert_id. rewrite list_lookup_fmap, Hi. reflexivity.
Qed.

Lemma not_joined_yet (ws : list (string * worker_state)) (i : nat)
    (name : string) (st : worker_state) :
  ws !! i = Some (name, st) -> st <> Exited -> ~ Forall has_exited ws.
Proof.
  intros Hi Hst Hall. rewrite Forall_lookup in Hall.
  apply Hst. exact (Hall i _ Hi).
Qed.

Lemma invariant_initial (program : list event) :
  invariant program (initial program).
Proof.
  split; simpl; try reflexivity. intros H. inversion H.
Qed.

Lemma invariant_act (program : list event) (s s' : system) :
  join_ready program -> invariant program s -> act s = Some s' ->
  invariant program s'.
Proof.
  intros Hready [Hprog Hws Hwg Hjoin] Hact. unfold act in Hact.
  destruct (pending s) as [|e rest] eqn:Hpending; [discriminate|].
  assert (Hprog' : (executed s ++ [e]) ++ rest = program)
    by (rewrite <- app_assoc; exact Hprog).
  assert (Hkeep : e <> EvWait -> (forall name, e <> EvGo name) ->
                  EvWait ∈ executed s ++ [e] -> Forall has_exited (workers s)).
  { intros Hne _ Hin. apply Hjoin. apply elem_of_app in Hin as [Hin|Hin];
      [exact Hin|]. apply list_elem_of_singleton in Hin. congruence. }
  destruct e as [c err|name| |name| |r err|r|].
  - injection Hact as <-. split; simpl; try assumption.
    + rewrite started_app, app_nil_r. exact Hws.
    + rewrite adds_app. simpl. rewrite Nat.add_0_r. exact Hwg.
    + apply Hkeep; congruence.
  - injection Hact as <-. split; simpl; try assumption.
    + rewrite started_app, app_nil_r. exact Hws.
    + rewrite adds_app. simpl. rewrite Nat.add_0_r. exact Hwg.
    + apply Hkeep; congruence.
  - injection Hact as <-. split; simpl; try assumption.
    + rewrite started_app, app_nil_r. exact Hws.
    + rewrite adds_app. change (adds [EvAdd]) with 1%nat. lia.
    + apply Hkeep; congruence.
  - injection Hact as <-. split; simpl; try assumption.
    + rewrite started_app, fmap_app, Hws. reflexivity.
    + rewrite adds_app, exits_app. simpl. rewrite !Nat.add_0_r. exact Hwg.
    + intros Hin. exfalso.
      apply elem_of_app in Hin as [Hin|Hin];
        [|apply list_elem_of_singleton in Hin; discriminate].
      apply list_elem_of_split in Hin as (before & between & Hsplit).
      destruct (Hready before (between ++ EvGo name :: rest)) as [_ Hafter].
      { rewrite <- Hprog, Hsplit, <- app_assoc. reflexivity. }
      rewrite Forall_app, Forall_cons in Hafter.
      destruct Hafter as (_ & Hgo & _). apply Hgo. reflexivity.
  - destruct (decide (finalWg s = 0)) as [Hzero|]; [|discriminate].
    injection Hact as <-. split; simpl; try assumption.
    + rewrite started_app, app_nil_r. exact Hws.
    + rewrite adds_app. simpl. rewrite Nat.add_0_r. exact Hwg.
    + intros _. apply exits_all.
      destruct (Hready (executed s) rest) as [Hadds _];
        [rewrite <- Hprog; reflexivity|].
      rewrite <- (length_fmap fst), Hws, <- Hadds. lia.
  - injection Hact as <-. split; simpl; try assumption.
    + rewrite started_app, app_nil_r. exact Hws.
    + rewrite adds_app. simpl. rewrite Nat.add_0_r. exact Hwg.
    + apply Hkeep; congruence.
  - injection Hact as <-. split; simpl; try assumption.
    + rewrite started_app, app_nil_r. exact Hws.
    + rewrite adds_app. simpl. rewrite Nat.add_0_r. exact Hwg.
    + apply Hkeep; congruence.
  - injection Hact as <-. split; simpl; try assumption.
    + rewrite started_app, app_nil_r. exact Hws.
    + rewrite adds_app. simpl. rewrite Nat.add_0_r. exact Hwg.
    + apply Hkeep; congruence.
Qed.

Lemma invariant_step (program : list event) (s s' : system) :
  join_ready program -> invariant program s -> step s s' ->
  invariant program s'.
Proof.
  intros Hready Hinv Hstep.
  destruct Hstep as [s s' Hact|s|s i name Hi Hdone|s i name Hi].
  - eapply invariant_act; eassumption.
  - destruct Hinv. split; simpl; assumption.
  - destruct Hinv as [Hprog Hws Hwg Hjoin]. split; simpl; try assumption.
    + rewrite (names_insert _ _ _ _ _ Hi). exact Hws.
    + rewrite (exits_insert _ _ _ _ Stopping Hi) by discriminate.
      simpl. rewrite Nat.add_0_r. exact Hwg.
    + intros Hin. exfalso.
      apply (not_joined_yet _ _ _ _ Hi); [discriminate | auto].
  - destruct Hinv as [Hprog Hws Hwg Hjoin]. split; simpl; try assumption.
    + rewrite (names_insert _ _ _ _ _ Hi). exact Hws.
    + rewrite (exits_insert _ _ _ _ Exited Hi) by discriminate.
      simpl. lia.
    + intros Hin. exfalso.
      apply (not_joined_yet _ _ _ _ Hi); [discriminate | auto].
Qed.

Lemma invariant_reaches (program : list event) (s : system) :
  join_ready program -> reaches program s -> invariant program s.
Proof.
  intros Hready Hreach. unfold reaches in Hreach. revert s Hreach.
  apply (rtc_ind_r (invariant program) (initial program)).
  - apply invariant_initial.
  - intros s1 s2 _ Hstep IH. eapply invariant_step; eassumption.
Qed.

(** *** Runs of [Start], case by case *)

Lemma staged_uniform (k : nat) (t : list event) :
  Forall (fun e => phase e = k) t -> staged k k t.
Proof.
  intros H. split; [exact (in_order_uniform k t H)|].
  eapply Forall_impl; [exact H|]. intros e He. simpl in He. lia.
Qed.

Lemma staged_app (a b c d : nat) (t1 t2 : list event) :
  staged a b t1 -> staged c d t2 -> (a <= c)%nat -> (b <= c)%nat -> (b <= d)%nat ->
  staged a d (t1 ++ t2).
Proof.
  intros [Ho1 Hb1] [Ho2 Hb2] Hac Hbc Hbd. split.
  - apply (in_order_app b); try assumption.
    + eapply Forall_impl; [exact Hb1|]. intros e He. simpl in He. lia.
    + eapply Forall_impl; [exact Hb2|]. intros e He. simpl in He. lia.
  - apply Forall_app. split.
    + eapply Forall_impl; [exact Hb1|]. intros e He. simpl in He. lia.
    + eapply Forall_impl; [exact Hb2|]. intros e He. simpl in He. lia.
Qed.

Lemma staged_not_early (lo hi : nat) (t : list event) :
  (0 < lo)%nat -> staged lo hi t -> Forall (fun e => phase e <> 0%nat) t.
Proof.
  intros Hlo [_ H]. eapply Forall_impl; [exact H|]. intros e He. simpl in He. lia.
Qed.

Lemma uniform_not_join (k : nat) (t : list event) :
  k <> 1%nat -> Forall (fun e => phase e = k) t -> EvWait ∉ t.
Proof.
  intros Hk H. apply no_join. eapply Forall_impl; [exact H|].
  intros e He. simpl in He. congruence.
Qed.

Lemma uniform_no_failure (k : nat) (t : list event) (e : event) :
  k <> 0%nat -> Forall (fun e => phase e = k) t -> e ∈ t -> failure e = true -> False.
Proof.
  intros Hk H Hin Hf. rewrite Forall_forall in H.
  apply failure_early in Hf. specialize (H e Hin). congruence.
Qed.

Lemma emitted_provisioningPhase_early (w : World) :
  Forall (fun e => phase e = 0%nat) (emitted (provisioningPhase w)).
Proof. apply phase_setup, (setup_provisioningPhase w). Qed.

Lemma emitted_runningPhase_early (w : World) (p : Provisioned) :
  Forall (fun e => phase e = 0%nat) (emitted (runningPhase w p)).
Proof. apply (forEachIndexed_startPartition w (readers p) (OwnedBuffers w) 0). Qed.

Lemma closes_staged (p : Provisioned) :
  staged 2 4 (closesOfManagers p ++ closesOfPublishers p ++ closesOfStores p).
Proof.
  apply (staged_app 2 2 3 4); try lia.
  - apply staged_uniform, closesOfManagers_phase.
  - apply (staged_app 3 3 4 4); try lia.
    + apply staged_uniform, closesOfPublishers_phase.
    + apply staged_uniform, closesOfStores_phase.
Qed.

Lemma closed_lateCloses (w : World) :
  closed (lateCloses w) = [HandlerConn; NatsClientPool].
Proof.
  unfold lateCloses, deferredCloseConn. destruct (CloseConn w); reflexivity.
Qed.

(** A run that reaches [finalWg.Wait()] has gone through the provisioning,
    the loop and the start of the metrics server. *)
Lemma Start_reaches_join (w : World) :
  EvWait ∈ (Start w).1 ->
  exists p,
    result (provisioningPhase w) = inl p
    /\ result (runningPhase w p) = inl tt
    /\ MetricsServerStart w = None.
Proof.
  intros Hin.
  destruct (result (provisioningPhase w)) as [p|x] eqn:Hp.
  2:{ exfalso. rewrite (Start_provisioning_fails w x Hp) in Hin. simpl in Hin.
      apply elem_of_app in Hin as [Hin|Hin]; revert Hin.
      - apply (uniform_not_join 0); [lia | apply emitted_provisioningPhase_early].
      - apply (uniform_not_join 5); [lia | apply setup_late]. }
  exists p. split; [reflexivity|].
  destruct (result (runningPhase w p)) as [[]|x] eqn:Hr.
  2:{ exfalso. rewrite (Start_running_fails w p x Hp Hr) in Hin. simpl in Hin.
      apply elem_of_app in Hin as [Hin|Hin]; [|apply elem_of_app in Hin as [Hin|Hin]];
        revert Hin.
      - apply (uniform_not_join 0); [lia | apply emitted_provisioningPhase_early].
      - apply (uniform_not_join 0); [lia | apply emitted_runningPhase_early].
      - apply (uniform_not_join 5); [lia | apply lateCloses_phase]. }
  split; [reflexivity|].
  destruct (MetricsServerStart w) as [err|] eqn:Hm; [|reflexivity].
  exfalso. rewrite (Start_metrics_fails w p err Hp Hr Hm) in Hin. simpl in Hin.
  apply elem_of_app in Hin as [Hin|Hin]; [|apply elem_of_app in Hin as [Hin|Hin]];
    revert Hin.
  - apply (uniform_not_join 0); [lia | apply emitted_provisioningPhase_early].
  - apply (uniform_not_join 0); [lia | apply emitted_runningPhase_early].
  - intros Hin. apply elem_of_cons in Hin as [Hin|Hin]; [discriminate|].
    revert Hin. apply (uniform_not_join 5); [lia | apply lateCloses_phase].
Qed.

Lemma Start_around_join (w : World) (p : Provisioned) :
  result (provisioningPhase w) = inl p ->
  result (runningPhase w p) = inl tt ->
  MetricsServerStart w = None ->
  Start w = (beforeJoin w p ++ EvWait :: afterJoin w p, Returned nil_error).
Proof.
  intros Hp Hr Hm. rewrite (Start_joins w p Hp Hr Hm).
  unfold beforeJoin, afterJoin. f_equal. rewrite <- !app_assoc. reflexivity.
Qed.

Lemma beforeJoin_early (w : World) (p : Provisioned) :
  Forall (fun e => phase e = 0%nat) (beforeJoin w p).
Proof.
  unfold beforeJoin. rewrite !Forall_app. split; [|split].
  - apply emitted_provisioningPhase_early.
  - apply emitted_runningPhase_early.
  - repeat constructor.
Qed.

Lemma afterJoin_staged (w : World) (p : Provisioned) : staged 2 5 (afterJoin w p).
Proof.
  unfold afterJoin. apply (staged_app 2 4 5 5); try lia.
  - apply closes_staged.
  - apply staged_uniform. apply Forall_app. split;
      [repeat constructor | apply lateCloses_phase].
Qed.

Lemma beforeJoin_started (w : World) (p : Provisioned) :
  result (runningPhase w p) = inl tt ->
  started (beforeJoin w p) = OwnedBuffers w
  /\ adds (beforeJoin w p) = length (OwnedBuffers w).
Proof.
  intros Hr.
  destruct (forEachIndexed_startPartition w (readers p) (OwnedBuffers w) 0)
    as (_ & _ & Hok & _).
  destruct (Hok Hr) as (Hs & Ha & _).
  pose proof (setup_provisioningPhase w) as (Hsetup & _).
  unfold beforeJoin. rewrite !started_app, !adds_app.
  rewrite (started_setup _ Hsetup), (adds_setup _ Hsetup).
  unfold runningPhase. rewrite Hs, Ha. simpl.
  rewrite app_nil_r, Nat.add_0_r. auto.
Qed.

Lemma split_at_join (l1 l2 a b : list event) :
  EvWait ∉ l1 -> EvWait ∉ l2 ->
  l1 ++ EvWait :: l2 = a ++ EvWait :: b -> a = l1 /\ b = l2.
Proof.
  revert a. induction l1 as [|x l1 IH]; intros a H1 H2 Heq.
  - destruct a as [|y a]; simpl in Heq.
    + injection Heq as ->. auto.
    + injection Heq as <- ->. exfalso. apply H2.
      apply elem_of_app. right. apply list_elem_of_here.
  - apply not_elem_of_cons in H1 as [Hx H1].
    destruct a as [|y a]; simpl in Heq.
    + injection Heq as -> _. congruence.
    + injection Heq as <- Heq. destruct (IH a H1 H2 Heq) as [-> ->]. auto.
Qed.

Lemma staged_no_join (lo hi : nat) (t : list event) :
  (1 < lo)%nat -> staged lo hi t -> EvWait ∉ t.
Proof.
  intros Hlo [_ H]. apply no_join. eapply Forall_impl; [exact H|].
  intros e He. simpl in He. lia.
Qed.

(** Every run of [Start] joins properly. *)
Lemma Start_join_ready (w : World) : join_ready (Start w).1.
Proof.
  intros before after Hsplit.
  assert (Hin : EvWait ∈ (Start w).1).
  { rewrite Hsplit. apply elem_of_app. right. apply list_elem_of_here. }
  destruct (Start_reaches_join w Hin) as (p & Hp & Hr & Hm).
  rewrite (Start_around_join w p Hp Hr Hm) in Hsplit. simpl in Hsplit.
  apply split_at_join in Hsplit as [-> ->].
  - destruct (beforeJoin_started w p Hr) as [Hs Ha]. rewrite Hs, Ha.
    split; [reflexivity|].
    apply (staged_not_early 2 5); [lia | apply afterJoin_staged].
  - apply (uniform_not_join 0); [lia | apply beforeJoin_early].
  - apply (staged_no_join 2 5); [lia | apply afterJoin_staged].
Qed.

(** Once the calling goroutine has executed an event of a later phase, it
    has executed the join and everything before it. *)
Lemma executed_past_join (pre post executed pending : list event) (e : event) :
  executed ++ pending = pre ++ EvWait :: post ->
  Forall (fun e => phase e = 0%nat) pre ->
  e ∈ executed -> phase e <> 0%nat ->
  exists rest, executed = pre ++ EvWait :: rest /\ post = rest ++ pending.
Proof.
  intros Heq Hpre Hin Hphase.
  apply app_eq_inv in Heq as [(k & -> & Hk)|(k & -> & Hk)].
  - destruct k as [|x k]; simpl in Hk.
    + exfalso. rewrite app_nil_r in Hin. rewrite Forall_forall in Hpre.
      apply Hphase, Hpre, Hin.
    + injection Hk as <- ->. eauto.
  - exfalso. rewrite Forall_forall in Hpre. apply Hphase, Hpre.
    apply elem_of_app. left. exact Hin.
Qed.

(** *** Logging of failed publisher closes *)

Lemma errors_logged_nil : errors_logged [].
Proof. intros [|x before] name err after H; discriminate. Qed.

Lemma errors_logged_cons (e : event) (t : list event) :
  phase e <> 3%nat -> errors_logged t -> errors_logged (e :: t).
Proof.
  intros He Ht [|x before] name err after H; simpl in H.
  - injection H as -> _. exfalso. apply He. reflexivity.
  - injection H as _ H. eauto.
Qed.

Lemma errors_logged_app (t1 t2 : list event) :
  Forall (fun e => phase e <> 3%nat) t1 -> errors_logged t2 ->
  errors_logged (t1 ++ t2).
Proof.
  induction 1 as [|e t1 He _ IH]; intros Ht2; [exact Ht2|].
  simpl. apply errors_logged_cons; auto.
Qed.

Lemma errors_logged_close_ok (name : string) (t : list event) :
  errors_logged t -> errors_logged (EvClose (WatermarkPublisher name) None :: t).
Proof.
  intros Ht [|x before] name' err after H; simpl in H.
  - discriminate.
  - injection H as _ H. eauto.
Qed.

Lemma errors_logged_close_failed (name : string) (err : string) (t : list event) :
  errors_logged t ->
  errors_logged (EvClose (WatermarkPublisher name) (Some err)
                 :: EvLogError (WatermarkPublisher name) :: t).
Proof.
  intros Ht [|x before] name' err' after H; simpl in H.
  - injection H as <- _ <-. eauto.
  - injection H as _ H. destruct before as [|y before]; simpl in H.
    + discriminate.
    + injection H as _ H. eauto.
Qed.

Lemma errors_logged_publishers (p : Provisioned) (t : list event) :
  errors_logged t -> errors_logged (closesOfPublishers p ++ t).
Proof.
  intros Ht. unfold closesOfPublishers.
  induction (publishWatermark p) as [|x l IH]; [exact Ht|].
  simpl. destruct (publisherClose x) as [err|]; simpl.
  - apply errors_logged_close_failed, IH.
  - apply errors_logged_close_ok, IH.
Qed.

Lemma uniform_not_publisher (k : nat) (t : list event) :
  k <> 3%nat -> Forall (fun e => phase e = k) t ->
  Forall (fun e => phase e <> 3%nat) t.
Proof.
  intros Hk H. eapply Forall_impl; [exact H|]. intros e He. simpl in He. congruence.
Qed.

Lemma Start_errors_logged (w : World) (p : Provisioned) :
  errors_logged (beforeJoin w p ++ EvWait :: afterJoin w p).
Proof.
  apply errors_logged_app.
  { apply (uniform_not_publisher 0); [lia | apply beforeJoin_early]. }
  apply errors_logged_cons; [simpl; lia|].
  unfold afterJoin. rewrite <- !app_assoc.
  apply errors_logged_app.
  { apply (uniform_not_publisher 2); [lia | apply closesOfManagers_phase]. }
  apply errors_logged_publishers.
  apply errors_logged_app.
  { apply (uniform_not_publisher 4); [lia | apply closesOfStores_phase]. }
  apply errors_logged_cons; [simpl; lia|].
  rewrite <- (app_nil_r (lateCloses w)).
  apply errors_logged_app; [|apply errors_logged_nil].
  apply (uniform_not_publisher 5); [lia | apply lateCloses_phase].
Qed.

Lemma Start_closes_all (w : World) (p : Provisioned) :
  closed (beforeJoin w p ++ EvWait :: afterJoin w p) = to_close p.
Proof.
  rewrite closed_app. rewrite (closed_early _ (beforeJoin_early w p)).
  change (closed (EvWait :: afterJoin w p)) with (closed (afterJoin w p)).
  unfold afterJoin.
  rewrite (closed_app (closesOfManagers p ++ closesOfPublishers p ++ closesOfStores p)).
  rewrite teardown_closed, closed_app, closed_lateCloses.
  unfold to_close. simpl. rewrite <- !app_assoc. reflexivity.
Qed.

(** *** What the lifecycle guarantees *)

Lemma setup_event_started_before (w : World) (e : event) :
  setup_event e = true -> started_before w e = [].
Proof. destruct e as [[]?| | | | | | |]; simpl; congruence. Qed.

(** C5 (as amended).  Every provisioning failure makes [Start] return a
    non-nil error.  When the failure is a client-pool, buffer or watermark
    construction, an unrecognised buffer-backend type, a malformed
    streaming flag, a handler client creation or a readiness check, no
    partition worker has been started.  When it is the construction of the
    forwarder of partition [index], the workers started are exactly those
    of the partitions before it: none for the first partition, and
    [index] of them otherwise. *)
Theorem provisioning_failure_aborts (w : World) (e : event) :
  e ∈ (Start w).1 -> failure e = true ->
  (exists err, (Start w).2 = Returned (Some err))
  /\ started (Start w).1 = started_before w e.
Proof.
  intros Hin Hfail.
  pose proof (setup_provisioningPhase w) as (Hsetup & _ & Hres).
  destruct (result (provisioningPhase w)) as [p|x] eqn:Hp.
  2:{ destruct Hres as [err ->].
      rewrite (Start_provisioning_fails w _ Hp) in *. simpl in *.
      split; [eauto|].
      rewrite started_app, (started_setup _ Hsetup).
      rewrite (started_late (concat _))
        by (apply (uniform_not_publisher 5 _), setup_late ||
            (eapply Forall_impl; [apply setup_late|]; simpl; intros; lia)).
      apply elem_of_app in Hin as [Hin|Hin].
      - rewrite Forall_forall in Hsetup.
        rewrite (setup_event_started_before w e (Hsetup e Hin)). reflexivity.
      - exfalso. exact (uniform_no_failure 5 _ e ltac:(lia) (setup_late w) Hin Hfail). }
  assert (Hnot_setup : e ∈ emitted (provisioningPhase w) -> False).
  { intros He. rewrite Forall_forall in Hres. specialize (Hres e He). congruence. }
  destruct (forEachIndexed_startPartition w (readers p) (OwnedBuffers w) 0)
    as (_ & _ & Hok & Hloop).
  fold (runningPhase w p) in Hok, Hloop.
  destruct (result (runningPhase w p)) as [[]|x] eqn:Hr.
  2:{ rewrite (Start_running_fails w p x Hp Hr) in *. simpl in *.
      apply elem_of_app in Hin as [Hin|Hin]; [contradiction|].
      apply elem_of_app in Hin as [Hin|Hin].
      - destruct (Hloop e Hin Hfail) as (j & err & -> & _ & Hx & Hs).
        injection Hx as ->. split; [eauto|].
        rewrite !started_app, (started_setup _ Hsetup), Hs.
        rewrite (started_late (lateCloses w)).
        + simpl. rewrite Nat.sub_0_r, app_nil_r. reflexivity.
        + eapply Forall_impl; [apply lateCloses_phase|]. simpl. intros; lia.
      - exfalso.
        exact (uniform_no_failure 5 _ e ltac:(lia) (lateCloses_phase w) Hin Hfail). }
  destruct (Hok eq_refl) as (_ & _ & Hclean).
  assert (Hnot_loop : e ∈ emitted (runningPhase w p) -> False).
  { intros He. rewrite Forall_forall in Hclean. specialize (Hclean e He). congruence. }
  exfalso.
  destruct (MetricsServerStart w) as [err|] eqn:Hm.
  - rewrite (Start_metrics_fails w p err Hp Hr Hm) in Hin. simpl in Hin.
    apply elem_of_app in Hin as [Hin|Hin]; [contradiction|].
    apply elem_of_app in Hin as [Hin|Hin]; [contradiction|].
    apply elem_of_cons in Hin as [->|Hin]; [discriminate|].
    exact (uniform_no_failure 5 _ e ltac:(lia) (lateCloses_phase w) Hin Hfail).
  - rewrite (Start_joins w p Hp Hr Hm) in Hin. simpl in Hin.
    apply elem_of_app in Hin as [Hin|Hin]; [contradiction|].
    apply elem_of_app in Hin as [Hin|Hin]; [contradiction|].
    apply elem_of_cons in Hin as [->|Hin]; [discriminate|].
    apply elem_of_cons in Hin as [->|Hin]; [discriminate|].
    pose proof (afterJoin_staged w p) as [_ Hafter]. unfold afterJoin in Hafter.
    rewrite Forall_forall in Hafter. specialize (Hafter e Hin). simpl in Hafter.
    apply failure_early in Hfail. lia.
Qed.

Lemma provisioning_failure_aborts_witness :
  (exists err, (Start world_handler_unready).2 = Returned (Some err))
  /\ started (Start world_handler_unready).1 = [].
Proof.
  apply (provisioning_failure_aborts world_handler_unready
           (EvCall CallWaitUntilReady (Some "deadline exceeded"))).
  - apply list_elem_of_In. vm_compute. tauto.
  - reflexivity.
Defined.

(** C5 as stated fails for the construction of a forwarder: when the
    forwarder of the second partition cannot be constructed, [Start]
    returns the error after the worker of the first partition has been
    started. *)
Lemma provisioning_failure_aborts_counterexample :
  Start world_second_forwarder_fails
  = ([EvCall CallNewClientPool None;
      EvCall CallBuildProcessorManagers None;
      EvCall CallBuildToVertexWatermarkStores None;
      EvCall CallBuildJetStreamBufferIO None;
      EvCall CallMapUdfStreamEnabled None;
      EvCall CallMapperNew None;
      EvCall CallWaitUntilReady None;
      EvCall (CallNewInterStepDataForward 0) None; EvAdd; EvGo "in-0";
      EvCall (CallNewInterStepDataForward 1) (Some "no forwarder");
      EvClose HandlerConn None; EvClose NatsClientPool None; EvCancel],
     Returned (Some "no forwarder"))
  /\ failure (EvCall (CallNewInterStepDataForward 1) (Some "no forwarder")) = true
  /\ started (Start world_second_forwarder_fails).1 = ["in-0"]
  /\ started (Start world_second_forwarder_fails).1 <> [].
Proof. vm_compute. repeat split. discriminate. Qed.

(** On JetStream with the watermark disabled, lines 89-91 leave [readers]
    nil, and the first turn of the loop indexes it: the run panics once the
    handler is ready, before any worker is started. *)
Example Start_without_watermark :
  Start world_watermark_disabled
  = ([EvCall CallNewClientPool None;
      EvCall CallMapUdfStreamEnabled None;
      EvCall CallMapperNew None;
      EvCall CallWaitUntilReady None;
      EvClose HandlerConn None; EvClose NatsClientPool None; EvCancel],
     Panicked IndexOutOfRange).
Proof. reflexivity. Qed.

(** The join can be passed: in the example world the calling goroutine
    runs up to [finalWg.Wait()], the context is cancelled, both workers
    stop and return, and the teardown runs to its end. *)
Example run_to_completion :
  reaches (Start world_jetstream).1
    {| pending := [];
       executed := (Start world_jetstream).1;
       workers := [("in-0"%string, Exited); ("in-1"%string, Exited)];
       finalWg := 0;
       ctxDone := true |}.
Proof.
  unfold reaches.
  do 14 (eapply rtc_l; [apply step_start; vm_compute; reflexivity|]).
  eapply rtc_l; [apply step_sigterm|]. cbn [pending executed workers finalWg ctxDone].
  eapply rtc_l; [apply (step_stop _ 0 "in-0"); reflexivity|].
  eapply rtc_l; [apply (step_stop _ 1 "in-1"); reflexivity|].
  eapply rtc_l; [apply (step_exit _ 0 "in-0"); reflexivity|].
  eapply rtc_l; [apply (step_exit _ 1 "in-1"); reflexivity|].
  unfold set_worker. cbn [pending executed workers finalWg ctxDone].
  do 9 (eapply rtc_l; [apply step_start; vm_compute; reflexivity|]).
  vm_compute. apply rtc_refl.
Qed.

(** C7.  In a run that has reached the join, a close that answers with an
    error changes nothing: [Start] returns nil, and the resources closed
    before the failing close, the failing one and those closed after it
    are together everything there is to close, so every remaining close
    is still executed.  The error of a watermark publisher is logged; that
    of a watermark store is dropped. *)
Theorem close_errors_are_not_fatal
    (w : World) (before after : list event) (r : resource) (err : string) :
  (Start w).1 = before ++ EvClose r (Some err) :: after ->
  EvWait ∈ before ->
  (Start w).2 = Returned nil_error
  /\ (exists p, result (provisioningPhase w) = inl p
                /\ closed before ++ r :: closed after = to_close p)
  /\ (forall name, r = WatermarkPublisher name ->
                   exists after', after = EvLogError r :: after').
Proof.
  intros Hsplit Hwait.
  assert (Hin : EvWait ∈ (Start w).1).
  { rewrite Hsplit. apply elem_of_app. left. exact Hwait. }
  destruct (Start_reaches_join w Hin) as (p & Hp & Hr & Hm).
  rewrite (Start_around_join w p Hp Hr Hm) in *. cbn [fst snd] in *.
  split; [reflexivity|]. split.
  - exists p. split; [exact Hp|].
    rewrite <- (Start_closes_all w p), Hsplit, closed_app. reflexivity.
  - intros name ->.
    exact (Start_errors_logged w p before name err after Hsplit).
Qed.

Lemma close_errors_are_not_fatal_witness :
  (Start world_jetstream).2 = Returned nil_error
  /\ (exists p, result (provisioningPhase world_jetstream) = inl p
                /\ [ProcessorManager "from-a"] ++ WatermarkPublisher "to-b"
                   :: [WmStore "to-b"; MetricsServer; HandlerConn; NatsClientPool]
                   = to_close p)
  /\ (forall name, WatermarkPublisher "to-b" = WatermarkPublisher name ->
                   exists after',
                     [EvLogError (WatermarkPublisher "to-b");
                      EvClose (WmStore "to-b") (Some "store gone");
                      EvClose MetricsServer None; EvClose HandlerConn None;
                      EvClose NatsClientPool None; EvCancel]
                     = EvLogError (WatermarkPublisher "to-b") :: after').
Proof.
  apply (close_errors_are_not_fatal world_jetstream
           [EvCall CallNewClientPool None;
            EvCall CallBuildProcessorManagers None;
            EvCall CallBuildToVertexWatermarkStores None;
            EvCall CallBuildJetStreamBufferIO None;
            EvCall CallMapUdfStreamEnabled None;
            EvCall CallMapperNew None;
            EvCall CallWaitUntilReady None;
            EvCall (CallNewInterStepDataForward 0) None; EvAdd; EvGo "in-0";
            EvCall (CallNewInterStepDataForward 1) None; EvAdd; EvGo "in-1";
            EvCall CallMetricsServerStart None; EvWait;
            EvClose (ProcessorManager "from-a") None]
           [EvLogError (WatermarkPublisher "to-b");
            EvClose (WmStore "to-b") (Some "store gone");
            EvClose MetricsServer None; EvClose HandlerConn None;
            EvClose NatsClientPool None; EvCancel]
           (WatermarkPublisher "to-b") "connection lost").
  - vm_compute. reflexivity.
  - apply list_elem_of_In. vm_compute. tauto.
Defined.

(** * Further properties *)

(** ** The partition counter on any stored value *)

Lemma round_robin_from_snoc (r n P : Z) :
  0 <= n ->
  round_robin_from r (n + 1) P = round_robin_from r n P ++ [(r + (n + 1)) mod P].
Proof.
  intros Hn. unfold round_robin_from.
  rewrite seqZ_app by lia. rewrite fmap_app. f_equal.
  rewrite seqZ_cons by lia. rewrite seqZ_nil by lia. simpl.
  f_equal. f_equal. lia.
Qed.

Lemma round_robin_from_bounds (r n P : Z) :
  1 <= P -> Forall (fun idx => 0 <= idx < P) (round_robin_from r n P).
Proof.
  intros HP. unfold round_robin_from. rewrite Forall_fmap.
  apply Forall_forall. intros k _. simpl. apply Z.mod_pos_bound. lia.
Qed.

(** What [n] consecutive calls do on any counter map in good standing: they
    go on from the stored counter [r] of the destination, whatever count it
    was left by. *)
Lemma consecutive_calls_from (n : N) (toVertex : string) (P : Z) (m : gmap string Z) :
  counters_ok m -> 1 <= P -> GoInt.is_int P ->
  exists m',
    consecutive_calls n toVertex P m
    = Ok (GoInt.to_int32 <$> round_robin_from (map_read m toVertex) (Z.of_N n) P, m')
    /\ counters_ok m'
    /\ (map_read m' toVertex - (map_read m toVertex + Z.of_N n)) mod P = 0
    /\ (forall other, other <> toVertex -> m' !! other = m !! other).
Proof.
  intros Hm HP Hint. induction n as [|n IH] using N.peano_ind.
  - exists m. split; [reflexivity|]. split; [assumption|]. split; [|auto].
    simpl. rewrite Z.add_0_r, Z.sub_diag. apply Z.mod_0_l. lia.
  - destruct IH as (m1 & Hrun & Hok & Hread & Hframe).
    rewrite consecutive_calls_succ. unfold bind at 1. rewrite Hrun.
    unfold bind. rewrite getVertexPartitionIdx_positive by assumption.
    unfold ret.
    assert (Hnext : (map_read m1 toVertex + 1) mod P
                    = (map_read m toVertex + (Z.of_N n + 1)) mod P).
    { apply Z.cong_iff_0.
      replace (map_read m1 toVertex + 1 - (map_read m toVertex + (Z.of_N n + 1)))
        with (map_read m1 toVertex - (map_read m toVertex + Z.of_N n)) by lia.
      exact Hread. }
    rewrite Hnext. rewrite N2Z.inj_succ, <- Z.add_1_r.
    eexists. split; [|split; [|split]].
    + rewrite round_robin_from_snoc by lia. rewrite fmap_app. reflexivity.
    + apply counters_ok_insert; [assumption|].
      pose proof (Z.mod_pos_bound (map_read m toVertex + (Z.of_N n + 1)) P).
      unfold GoInt.is_int, GoInt.int_max in *. lia.
    + unfold map_read at 1. rewrite lookup_insert_eq. simpl.
      rewrite Zminus_mod_idemp_l, Z.sub_diag. apply Z.mod_0_l. lia.
    + intros other Hne. rewrite lookup_insert_ne by congruence. auto.
Qed.

(** X1.  The counter goes on from whatever is stored.  On a reachable
    counter map whose entry for the destination reads [r] (left by calls
    with any partition counts), [n] consecutive calls with partition count
    [P], [1 <= P <= 2^31], return [(r + 1) mod P, ..., (r + n) mod P], and
    leave every other destination as it was. *)
Theorem partition_counter_continues
    (toVertex : string) (P : Z) (n : N) (m : gmap string Z) :
  reachable m -> 1 <= P <= 2 ^ 31 ->
  exists m',
    consecutive_calls n toVertex P m
    = Ok (round_robin_from (map_read m toVertex) (Z.of_N n) P, m')
    /\ (forall other, other <> toVertex -> m' !! other = m !! other).
Proof.
  intros Hm HP.
  destruct (consecutive_calls_from n toVertex P m) as (m' & Hrun & _ & _ & Hframe).
  - apply reachable_counters_ok, Hm.
  - lia.
  - unfold GoInt.is_int, GoInt.int_min, GoInt.int_max. lia.
  - exists m'. split; [|exact Hframe]. rewrite Hrun. f_equal. f_equal.
    rewrite <- (list_fmap_id (round_robin_from _ _ _)) at 2.
    apply Forall_fmap_ext.
    eapply Forall_impl; [apply (round_robin_from_bounds _ _ P); lia|].
    intros idx Hidx. cbv beta in Hidx |- *. apply to_int32_id. unfold id. lia.
Qed.

(** After a call with five partitions has left 4, two calls with three
    partitions return 2 and 0. *)
Lemma partition_counter_continues_witness :
  exists m',
    consecutive_calls 2 "to-vertex" 3 {["to-vertex" := 4]}
    = Ok ([2; 0], m')
    /\ (forall other, other <> "to-vertex"%string ->
                      m' !! other = ({["to-vertex" := 4]} : gmap string Z) !! other).
Proof.
  change [2; 0]
    with (round_robin_from (map_read {["to-vertex" := 4]} "to-vertex") (Z.of_N 2) 3).
  apply (partition_counter_continues "to-vertex" 3 2 {["to-vertex" := 4]}).
  - apply (reachable_singleton "to-vertex" 5 4).
    + unfold GoInt.is_int, GoInt.int_min, GoInt.int_max. lia.
    + lia.
  - lia.
Defined.

Lemma round_robin_from_NoDup (r P : Z) :
  1 <= P -> NoDup (round_robin_from r P P).
Proof.
  intros HP. unfold round_robin_from.
  apply NoDup_fmap_2_strong; [|apply NoDup_seqZ].
  intros x y Hx Hy Heq. apply elem_of_seqZ in Hx, Hy.
  apply Z.cong_iff_0 in Heq.
  replace (r + x - (r + y)) with (x - y) in Heq by lia.
  apply Z.mod_divide in Heq; [|lia]. destruct Heq as [q Hq].
  destruct (Z_lt_le_dec q 1) as [Hq1|Hq1]; [|nia].
  destruct (Z_lt_le_dec (- 1) q) as [Hq2|Hq2]; [|nia].
  assert (q = 0) as -> by lia. lia.
Qed.

Lemma round_robin_from_full (r P : Z) :
  1 <= P -> round_robin_from r P P ≡ₚ seqZ 0 P.
Proof.
  intros HP. apply submseteq_length_Permutation.
  - apply NoDup_submseteq; [apply round_robin_from_NoDup; lia|].
    intros x Hx. apply elem_of_seqZ.
    pose proof (round_robin_from_bounds r P P HP) as Hb.
    rewrite Forall_forall in Hb. specialize (Hb x Hx). lia.
  - unfold round_robin_from. rewrite length_fmap, !length_seqZ. lia.
Qed.

(** X2.  The counter spreads evenly.  On a reachable counter map, [P]
    consecutive calls for one destination with partition count [P],
    [1 <= P <= 2^31], return every index of [[0, P)] exactly once, whatever
    the counter stood at. *)
Theorem partition_counter_even
    (toVertex : string) (P : Z) (m : gmap string Z) :
  reachable m -> 1 <= P <= 2 ^ 31 ->
  exists indices m',
    consecutive_calls (Z.to_N P) toVertex P m = Ok (indices, m')
    /\ indices ≡ₚ seqZ 0 P.
Proof.
  intros Hm HP.
  destruct (consecutive_calls_from (Z.to_N P) toVertex P m) as (m' & Hrun & _).
  - apply reachable_counters_ok, Hm.
  - lia.
  - unfold GoInt.is_int, GoInt.int_min, GoInt.int_max. lia.
  - rewrite Z2N.id in Hrun by lia.
    eexists _, m'. split; [exact Hrun|].
    rewrite <- (round_robin_from_full (map_read m toVertex) P) by lia.
    assert (Hid : GoInt.to_int32 <$> round_robin_from (map_read m toVertex) P P
                  = round_robin_from (map_read m toVertex) P P).
    { rewrite <- (list_fmap_id (round_robin_from _ _ _)) at 2.
      apply Forall_fmap_ext.
      eapply Forall_impl; [apply (round_robin_from_bounds _ _ P); lia|].
      intros idx Hidx. cbv beta in Hidx |- *. apply to_int32_id. unfold id. lia. }
    rewrite Hid. reflexivity.
Qed.

Lemma partition_counter_even_witness :
  exists indices m',
    consecutive_calls 4 "to-vertex" 4 {["to-vertex" := 6]} = Ok (indices, m')
    /\ indices ≡ₚ [0; 1; 2; 3].
Proof.
  change [0; 1; 2; 3] with (seqZ 0 4).
  apply (partition_counter_even "to-vertex" 4 {["to-vertex" := 6]}).
  - apply (reachable_singleton "to-vertex" 7 6).
    + unfold GoInt.is_int, GoInt.int_min, GoInt.int_max. lia.
    + lia.
  - lia.
Defined.

(** X3.  Calls for different destinations do not interfere: made in either
    order they return the same two indices and leave the same counter map,
    and they panic alike when a partition count is zero. *)
Theorem partition_counter_commutes
    (toVertex1 toVertex2 : string) (P1 P2 : Z) (m : gmap string Z) :
  toVertex1 <> toVertex2 ->
  (call! idx1 := getVertexPartitionIdx toVertex1 P1 in
   call! idx2 := getVertexPartitionIdx toVertex2 P2 in
   ret (idx1, idx2)) m
  = (call! idx2 := getVertexPartitionIdx toVertex2 P2 in
     call! idx1 := getVertexPartitionIdx toVertex1 P1 in
     ret (idx1, idx2)) m.
Proof.
  intros Hne. unfold bind, getVertexPartitionIdx, ret.
  destruct (decide (P1 = 0)), (decide (P2 = 0)); try reflexivity.
  unfold map_read. rewrite !lookup_insert_ne by congruence.
  rewrite insert_insert_ne by congruence. reflexivity.
Qed.

Lemma partition_counter_commutes_witness :
  (call! idx1 := getVertexPartitionIdx "sink" 2 in
   call! idx2 := getVertexPartitionIdx "numbers" 3 in
   ret (idx1, idx2)) {["sink" := 1]}
  = (call! idx2 := getVertexPartitionIdx "numbers" 3 in
     call! idx1 := getVertexPartitionIdx "sink" 2 in
     ret (idx1, idx2)) {["sink" := 1]}.
Proof.
  apply (partition_counter_commutes "sink" "numbers" 2 3 {["sink" := 1]}).
  discriminate.
Defined.

Lemma map_read_insert_eq (m : gmap string Z) (k : string) (v : Z) :
  map_read (<[k := v]> m) k = v.
Proof. unfold map_read. rewrite lookup_insert_eq. reflexivity. Qed.

Lemma map_read_insert_ne (m : gmap string Z) (k k' : string) (v : Z) :
  k <> k' -> map_read (<[k := v]> m) k' = map_read m k'.
Proof. intros Hne. unfold map_read. rewrite lookup_insert_ne by exact Hne. reflexivity. Qed.

(** X4.  A negative partition count is taken by its absolute value: the
    call does not panic, it returns what the call with the positive count
    returns, and the stored counter stays a remainder, so that the counter
    map remains in good standing.  Only a zero count panics. *)
Theorem partition_counter_negative_count
    (toVertex : string) (P : Z) (m : gmap string Z) :
  counters_ok m -> 1 <= P -> GoInt.is_int P ->
  getVertexPartitionIdx toVertex (- P) m = getVertexPartitionIdx toVertex P m
  /\ exists idx m',
       getVertexPartitionIdx toVertex (- P) m = Ok (idx, m')
       /\ counters_ok m'
       /\ 0 <= map_read m' toVertex < P.
Proof.
  intros Hm HP Hint.
  assert (Heq : getVertexPartitionIdx toVertex (- P) m
                = getVertexPartitionIdx toVertex P m).
  { unfold getVertexPartitionIdx.
    destruct (decide (- P = 0)), (decide (P = 0)); try lia.
    rewrite Z.rem_opp_r'. reflexivity. }
  split; [exact Heq|]. rewrite Heq.
  rewrite getVertexPartitionIdx_positive by assumption.
  pose proof (Z.mod_pos_bound (map_read m toVertex + 1) P ltac:(lia)) as Hb.
  eexists _, _. split; [reflexivity|]. split.
  - apply counters_ok_insert; [assumption|].
    unfold GoInt.is_int, GoInt.int_max in *. lia.
  - rewrite map_read_insert_eq. lia.
Qed.

Lemma partition_counter_negative_count_witness :
  getVertexPartitionIdx "to-vertex" (- 3) {["to-vertex" := 1]}
  = getVertexPartitionIdx "to-vertex" 3 {["to-vertex" := 1]}
  /\ exists idx m',
       getVertexPartitionIdx "to-vertex" (- 3) {["to-vertex" := 1]} = Ok (idx, m')
       /\ counters_ok m'
       /\ 0 <= map_read m' "to-vertex" < 3.
Proof.
  apply (partition_counter_negative_count "to-vertex" 3 {["to-vertex" := 1]}).
  - intros k v Hk. apply lookup_singleton_Some in Hk as [_ <-].
    unfold GoInt.int_max. lia.
  - lia.
  - unfold GoInt.is_int, GoInt.int_min, GoInt.int_max. lia.
Defined.

(** ** The router: failure, ranges, frame *)

Section RouterFurther.

Context {ext : Collaborators}.

Lemma forwardEdge_divides_by_zero sfm keys tags result edge counters :
  spec_matched tags edge = true -> GetToVertexPartitionCount edge = 0 ->
  forwardEdge sfm keys tags result edge counters = Panic DivideByZero.
Proof.
  intros Hm Hzero. rewrite forwardEdge_matched by assumption.
  assert (Hneed : needShuffle edge = false).
  { destruct (needShuffle edge) eqn:Hneed; [|reflexivity].
    apply needShuffle_spec in Hneed. lia. }
  rewrite Hneed. unfold bind, getVertexPartitionIdx.
  destruct (decide (GetToVertexPartitionCount edge = 0)); [reflexivity|contradiction].
Qed.

Lemma forEdges_panics sfm keys tags edges :
  serves sfm edges ->
  forall result counters p,
    forEdges sfm keys tags result edges counters = Panic p ->
    p = DivideByZero
    /\ exists edge, edge ∈ edges /\ spec_matched tags edge = true
                    /\ GetToVertexPartitionCount edge = 0.
Proof.
  induction edges as [|edge edges IH]; intros Hsfm result counters p Hrun.
  - discriminate.
  - simpl in Hrun. unfold bind in Hrun.
    destruct (decide (spec_matched tags edge = true
                      /\ GetToVertexPartitionCount edge = 0)) as [[Hm Hz]|Hgood].
    + rewrite forwardEdge_divides_by_zero in Hrun by assumption.
      injection Hrun as <-. split; [reflexivity|].
      exists edge. split; [apply list_elem_of_here | auto].
    + assert (Hret : exists r1 c1,
                 forwardEdge sfm keys tags result edge counters = Ok (r1, c1)).
      { destruct (spec_matched tags edge) eqn:Hm.
        - assert (Hentry : needShuffle edge = true ->
                             is_Some (sfm !! shuffleKey edge)).
          { intros Hneed. apply Hsfm; [apply list_elem_of_here | exact Hneed]. }
          assert (Hnz : GetToVertexPartitionCount edge <> 0).
          { intros Hz. apply Hgood. auto. }
          destruct (forwardEdge_returns sfm keys tags result edge counters Hentry Hnz)
            as (r1 & c1 & H & _).
          eauto.
        - rewrite forwardEdge_unmatched by assumption. eauto. }
      destruct Hret as (r1 & c1 & Hstep). rewrite Hstep in Hrun.
      destruct (IH (fun e He => Hsfm e (list_elem_of_further _ _ _ He)) r1 c1 p Hrun)
        as (-> & e & He & Hm & Hz).
      split; [reflexivity|]. exists e. split; [apply list_elem_of_further, He | auto].
Qed.

Lemma forEdges_divides_by_zero sfm keys tags edges :
  serves sfm edges ->
  (exists edge, edge ∈ edges /\ spec_matched tags edge = true
                /\ GetToVertexPartitionCount edge = 0) ->
  forall result counters,
    forEdges sfm keys tags result edges counters = Panic DivideByZero.
Proof.
  intros Hsfm Hbad result counters.
  destruct (forEdges sfm keys tags result edges counters) as [[r c]|p] eqn:Hrun.
  - exfalso. revert result counters r c Hrun.
    induction edges as [|edge edges IH]; intros result counters r c Hrun.
    + destruct Hbad as (e & He & _). inversion He.
    + simpl in Hrun. unfold bind in Hrun.
      destruct (forwardEdge sfm keys tags result edge counters)
        as [[r1 c1]|p] eqn:Hstep; [|discriminate].
      destruct Hbad as (e & He & Hm & Hz).
      apply elem_of_cons in He as [->|He].
      * rewrite forwardEdge_divides_by_zero in Hstep by assumption. discriminate.
      * eapply (IH (fun e' He' => Hsfm e' (list_elem_of_further _ _ _ He')));
          eauto.
  - destruct (forEdges_panics sfm keys tags edges Hsfm result counters p Hrun)
      as [-> _]. reflexivity.
Qed.

(** X5.  When the router fails.  The closure panics exactly when the record
    is not dropped and some edge that matches it has a partition count of
    zero; the panic is then the division by zero in the partition counter,
    never a missing shuffle function. *)
Theorem route_panics_iff (ToEdges : list Edge) (keys tags : list string)
    (counters : gmap string Z) :
  ((exists p, conditionalForwarder ToEdges keys tags counters = Panic p) <->
   (MessageTagDrop ∉ tags)
   /\ exists edge, edge ∈ ToEdges /\ spec_matched tags edge = true
                   /\ GetToVertexPartitionCount edge = 0)
  /\ (forall p, conditionalForwarder ToEdges keys tags counters = Panic p ->
                p = DivideByZero).
Proof.
  assert (Hsfm : serves (populateShuffleFuncMap ToEdges) ToEdges)
    by (intros edge; apply populateShuffleFuncMap_covers).
  assert (Hpanic : forall p,
             conditionalForwarder ToEdges keys tags counters = Panic p ->
             p = DivideByZero
             /\ (MessageTagDrop ∉ tags)
             /\ exists edge, edge ∈ ToEdges /\ spec_matched tags edge = true
                             /\ GetToVertexPartitionCount edge = 0).
  { intros p. unfold conditionalForwarder, route.
    destruct (StringSliceContains tags MessageTagDrop) eqn:Hc; [discriminate|].
    unfold bind.
    destruct (forEdges (populateShuffleFuncMap ToEdges) keys tags [] ToEdges counters)
      as [[r c]|q] eqn:Hrun; [discriminate|].
    intros [= <-].
    destruct (forEdges_panics _ keys tags ToEdges Hsfm [] counters q Hrun) as [-> Hbad].
    split; [reflexivity|]. split; [|exact Hbad].
    intros Hin. apply StringSliceContains_spec in Hin. congruence. }
  split; [split|].
  - intros [p Hp]. apply (Hpanic p Hp).
  - intros [Hkeep Hbad]. exists DivideByZero.
    unfold conditionalForwarder, route.
    destruct (StringSliceContains tags MessageTagDrop) eqn:Hc.
    { apply StringSliceContains_spec in Hc. contradiction. }
    unfold bind.
    rewrite (forEdges_divides_by_zero _ keys tags ToEdges Hsfm Hbad). reflexivity.
  - intros p Hp. apply (Hpanic p Hp).
Qed.

(** *** Ranges and reachability *)

Lemma forwardEdge_in_range sfm keys tags result edge counters :
  reachable counters ->
  (needShuffle edge = true -> is_Some (sfm !! shuffleKey edge)) ->
  1 <= GetToVertexPartitionCount edge <= 2 ^ 31 ->
  exists added counters',
    forwardEdge sfm keys tags result edge counters = Ok (result ++ added, counters')
    /\ reachable counters'
    /\ Forall2 assignment_for (List.filter (spec_matched tags) [edge]) added.
Proof.
  intros Hreach Hsfm Hcount. simpl.
  destruct (spec_matched tags edge) eqn:Hm.
  - rewrite forwardEdge_matched by assumption.
    destruct (needShuffle edge) eqn:Hneed.
    + destruct (Hsfm eq_refl) as [s Hs].
      unfold bind, shuffleLookup, ret. rewrite Hs.
      eexists [_], counters. split; [reflexivity|]. split; [assumption|].
      constructor; [|constructor]. split; [reflexivity|].
      intros Hf. congruence.
    + unfold bind, ret.
      pose proof (reachable_counters_ok _ Hreach) as Hok.
      rewrite getVertexPartitionIdx_positive by (assumption || lia).
      eexists [_], _. split; [reflexivity|]. split.
      * eapply (reach_call counters (To edge) (GetToVertexPartitionCount edge));
          [assumption | | lia | apply getVertexPartitionIdx_positive; [assumption|lia]].
        unfold GoInt.is_int, GoInt.int_min, GoInt.int_max. lia.
      * constructor; [|constructor]. split; [reflexivity|].
        simpl. intros _.
        pose proof (Z.mod_pos_bound (map_read counters (To edge) + 1)
                      (GetToVertexPartitionCount edge) ltac:(lia)).
        rewrite to_int32_id; lia.
  - rewrite forwardEdge_unmatched by assumption.
    exists [], counters. rewrite app_nil_r. split; [reflexivity|].
    split; [assumption | constructor].
Qed.

Lemma forEdges_in_range sfm keys tags edges :
  serves sfm edges ->
  Forall (fun edge => 1 <= GetToVertexPartitionCount edge <= 2 ^ 31) edges ->
  forall result counters,
    reachable counters ->
    exists added counters',
      forEdges sfm keys tags result edges counters = Ok (result ++ added, counters')
      /\ reachable counters'
      /\ Forall2 assignment_for (List.filter (spec_matched tags) edges) added.
Proof.
  induction edges as [|edge edges IH]; intros Hsfm Hcounts result counters Hreach.
  - exists [], counters. rewrite app_nil_r. split; [reflexivity|].
    split; [assumption | constructor].
  - apply Forall_cons in Hcounts as [Hcount Hcounts].
    destruct (forwardEdge_in_range sfm keys tags result edge counters Hreach)
      as (a1 & c1 & Hstep & Hreach1 & Hfor1); [|assumption|].
    { intros Hneed. apply Hsfm; [apply list_elem_of_here | assumption]. }
    destruct (IH (fun e He => Hsfm e (list_elem_of_further _ _ _ He)) Hcounts
                 (result ++ a1) c1 Hreach1)
      as (a2 & c2 & Hrest & Hreach2 & Hfor2).
    exists (a1 ++ a2), c2. split; [|split; [assumption|]].
    + simpl. unfold bind. rewrite Hstep, Hrest, app_assoc. reflexivity.
    + change (edge :: edges) with ([edge] ++ edges).
      rewrite List.filter_app. apply Forall2_app; assumption.
Qed.

(** X6.  Assignments stay in range.  From a reachable partition counter
    and with partition counts between 1 and [2^31], the closure returns, to
    each matching edge in order, one assignment that names the edge's
    destination and, when the index comes from the partition counter, has
    an index within the destination's partitions; and it leaves the
    partition counter reachable, so that the same holds for the next
    record. *)
Theorem route_in_range (ToEdges : list Edge) (keys tags : list string)
    (counters : gmap string Z) :
  reachable counters ->
  Forall (fun edge => 1 <= GetToVertexPartitionCount edge <= 2 ^ 31) ToEdges ->
  MessageTagDrop ∉ tags ->
  exists result counters',
    conditionalForwarder ToEdges keys tags counters
    = Ok ((result, nil_error), counters')
    /\ reachable counters'
    /\ Forall2 assignment_for (List.filter (spec_matched tags) ToEdges) result.
Proof.
  intros Hreach Hcounts Hkeep. unfold conditionalForwarder, route.
  destruct (StringSliceContains tags MessageTagDrop) eqn:Hc.
  { apply StringSliceContains_spec in Hc. contradiction. }
  destruct (forEdges_in_range (populateShuffleFuncMap ToEdges) keys tags ToEdges)
    with (result := @List.nil VertexBuffer) (counters := counters)
    as (added & counters' & Hrun & Hreach' & Hfor); try assumption.
  { intros edge. apply populateShuffleFuncMap_covers. }
  exists added, counters'. split; [|auto].
  unfold bind. rewrite Hrun. reflexivity.
Qed.

(** *** The counters a call leaves alone *)

Lemma forwardEdge_frame sfm keys tags result edge counters result' counters' :
  forwardEdge sfm keys tags result edge counters = Ok (result', counters') ->
  counters' = counters
  \/ (spec_matched tags edge = true /\ needShuffle edge = false
      /\ exists v, counters' = <[To edge := v]> counters).
Proof.
  destruct (spec_matched tags edge) eqn:Hm.
  - rewrite forwardEdge_matched by assumption.
    destruct (needShuffle edge) eqn:Hneed.
    + unfold bind, shuffleLookup, ret.
      destruct (sfm !! shuffleKey edge); [|discriminate].
      intros [= _ <-]. left. reflexivity.
    + unfold bind, getVertexPartitionIdx, ret.
      destruct (decide (GetToVertexPartitionCount edge = 0)); [discriminate|].
      intros [= _ <-]. right. eauto.
  - rewrite forwardEdge_unmatched by assumption. intros [= _ <-]. left. reflexivity.
Qed.

Lemma forEdges_frame sfm keys tags edges (toVertex : string) :
  (forall edge, edge ∈ edges -> spec_matched tags edge = true ->
                needShuffle edge = false -> To edge <> toVertex) ->
  forall result counters result' counters',
    forEdges sfm keys tags result edges counters = Ok (result', counters') ->
    counters' !! toVertex = counters !! toVertex.
Proof.
  induction edges as [|edge edges IH]; intros Hother result counters result' counters'.
  - intros [= _ <-]. reflexivity.
  - simpl. unfold bind.
    destruct (forwardEdge sfm keys tags result edge counters)
      as [[r1 c1]|p] eqn:Hstep; [|discriminate].
    intros Hrest.
    rewrite (IH (fun e He => Hother e (list_elem_of_further _ _ _ He)) _ _ _ _ Hrest).
    apply forwardEdge_frame in Hstep as [->|(Hm & Hneed & v & ->)]; [reflexivity|].
    apply lookup_insert_ne. apply Hother; [apply list_elem_of_here | assumption..].
Qed.

(** X7.  The router touches no counter but those of the destinations it
    counts for.  Whenever the closure returns, the stored counter of every
    destination name that is not the destination of a matching edge served
    by the partition counter is as it was before, present or absent; in
    particular edges that do not match and edges that shuffle leave the
    counter map alone. *)
Theorem route_frame (ToEdges : list Edge) (keys tags : list string)
    (counters counters' : gmap string Z) (result : list VertexBuffer) (err : error)
    (toVertex : string) :
  conditionalForwarder ToEdges keys tags counters = Ok ((result, err), counters') ->
  (forall edge, edge ∈ ToEdges -> spec_matched tags edge = true ->
                needShuffle edge = false -> To edge <> toVertex) ->
  counters' !! toVertex = counters !! toVertex.
Proof.
  unfold conditionalForwarder, route.
  destruct (StringSliceContains tags MessageTagDrop).
  - intros [= _ _ <-] _. reflexivity.
  - unfold bind.
    destruct (forEdges (populateShuffleFuncMap ToEdges) keys tags [] ToEdges counters)
      as [[r c]|p] eqn:Hrun; [|discriminate].
    intros [= _ _ <-] Hother.
    exact (forEdges_frame _ keys tags ToEdges toVertex Hother _ _ _ _ Hrun).
Qed.

(** *** A stream of records over one counted edge *)

Lemma round_robin_from_cons (r n P : Z) :
  0 <= n -> 1 <= P ->
  round_robin_from r (n + 1) P
  = (r + 1) mod P :: round_robin_from ((r + 1) mod P) n P.
Proof.
  intros Hn HP. unfold round_robin_from.
  rewrite seqZ_cons by lia. rewrite fmap_cons. f_equal.
  replace (Z.pred (n + 1)) with n by lia.
  replace (Z.succ 1) with (1 + 1) by lia.
  rewrite <- fmap_add_seqZ, <- list_fmap_compose.
  apply list_fmap_ext. intros _ k _. simpl.
  rewrite Zplus_mod_idemp_l. f_equal. lia.
Qed.

Lemma route_dropped ToEdges keys tags (counters : gmap string Z) :
  StringSliceContains tags MessageTagDrop = true ->
  conditionalForwarder ToEdges keys tags counters = Ok (([], nil_error), counters).
Proof. intros H. unfold conditionalForwarder, route. rewrite H. reflexivity. Qed.

Lemma route_counted edge keys tags (counters : gmap string Z) :
  StringSliceContains tags MessageTagDrop = false ->
  tagConditions edge = None -> needShuffle edge = false ->
  1 <= GetToVertexPartitionCount edge <= 2 ^ 31 ->
  reachable counters ->
  let idx := (map_read counters (To edge) + 1) mod GetToVertexPartitionCount edge in
  conditionalForwarder [edge] keys tags counters
  = Ok (([{| ToVertexName := To edge; ToVertexPartitionIdx := idx |}], nil_error),
        <[To edge := idx]> counters).
Proof.
  intros Hkeep Hcond Hneed HP Hreach idx.
  unfold conditionalForwarder, route. rewrite Hkeep.
  unfold bind. simpl. unfold bind, forwardEdge. rewrite Hcond, Hneed.
  unfold bind, ret.
  rewrite getVertexPartitionIdx_positive
    by (auto using reachable_counters_ok || lia).
  pose proof (Z.mod_pos_bound (map_read counters (To edge) + 1)
                (GetToVertexPartitionCount edge) ltac:(lia)).
  rewrite to_int32_id by lia. reflexivity.
Qed.

Lemma kept_cons keys tags (records : list record) :
  kept ((keys, tags) :: records)
  = if StringSliceContains tags MessageTagDrop then kept records
    else (keys, tags) :: kept records.
Proof.
  unfold kept. cbn [List.filter snd].
  destruct (StringSliceContains tags MessageTagDrop); reflexivity.
Qed.

(** X8.  A stream of records over one counted edge.  When the vertex has a
    single outgoing edge, without tag condition, to a destination served by
    the partition counter with [P] partitions, [1 <= P <= 2^31], the
    closure of one input partition sends every dropped record nowhere and
    the k-th record that is not dropped to partition [(r + k) mod P],
    where [r] is what the counter read before: dropped records do not
    use up a turn. *)
Theorem route_stream_round_robin (edge : Edge) (records : list record)
    (counters : gmap string Z) :
  tagConditions edge = None -> needShuffle edge = false ->
  1 <= GetToVertexPartitionCount edge <= 2 ^ 31 ->
  reachable counters ->
  exists results counters',
    routeAll [edge] records counters = Ok (results, counters')
    /\ Forall2 (fun r routed =>
                  length routed
                  = if StringSliceContains r.2 MessageTagDrop then 0%nat else 1%nat)
               records results
    /\ concat results
       = (fun idx => {| ToVertexName := To edge; ToVertexPartitionIdx := idx |})
           <$> round_robin_from (map_read counters (To edge))
                 (Z.of_nat (length (kept records)))
                 (GetToVertexPartitionCount edge).
Proof.
  intros Hcond Hneed HP. revert counters.
  induction records as [|[keys tags] records IH]; intros counters Hreach.
  - exists [], counters. split; [reflexivity|]. split; [constructor | reflexivity].
  - cbn [routeAll]. unfold bind at 1.
    destruct (StringSliceContains tags MessageTagDrop) eqn:Hdrop.
    + rewrite route_dropped by assumption.
      destruct (IH counters Hreach) as (results & counters' & Hrun & Hlen & Hidx).
      unfold bind. rewrite Hrun. unfold ret.
      exists ([] :: results), counters'. split; [reflexivity|]. split.
      * constructor; [cbn [snd]; rewrite Hdrop; reflexivity | exact Hlen].
      * rewrite kept_cons, Hdrop. exact Hidx.
    + rewrite route_counted by assumption.
      set (idx := (map_read counters (To edge) + 1) mod GetToVertexPartitionCount edge).
      assert (Hreach' : reachable (<[To edge := idx]> counters)).
      { eapply (reach_call counters (To edge) (GetToVertexPartitionCount edge));
          [assumption | | lia | ].
        - unfold GoInt.is_int, GoInt.int_min, GoInt.int_max. lia.
        - apply getVertexPartitionIdx_positive;
            [apply reachable_counters_ok; assumption | lia]. }
      destruct (IH _ Hreach') as (results & counters' & Hrun & Hlen & Hidx).
      unfold bind. rewrite Hrun. unfold ret.
      eexists (_ :: results), counters'. split; [reflexivity|]. split.
      * constructor; [cbn [snd]; rewrite Hdrop; reflexivity | exact Hlen].
      * rewrite kept_cons, Hdrop. cbn [length concat app].
        rewrite Hidx, map_read_insert_eq.
        rewrite Nat2Z.inj_succ, <- Z.add_1_r.
        rewrite round_robin_from_cons by lia. reflexivity.
Qed.

End RouterFurther.

(** *** The router on the example topology, again *)

Lemma route_panics_iff_witness :
  conditionalForwarder (ext := example_collaborators)
    [edge_to_sink; edge_without_partitions] ["key"] ["odd"] ∅
  = Panic DivideByZero.
Proof.
  destruct (route_panics_iff (ext := example_collaborators)
              [edge_to_sink; edge_without_partitions] ["key"] ["odd"] ∅)
    as [[_ Hbad] Hkind].
  destruct Hbad as [p Hp].
  - split.
    + intros Hin. apply elem_of_cons in Hin as [Heq|Hin]; [discriminate Heq|].
      inversion Hin.
    + exists edge_without_partitions.
      split; [apply list_elem_of_further, list_elem_of_here|].
      split; reflexivity.
  - rewrite Hp. f_equal. exact (Hkind p Hp).
Defined.

Lemma route_in_range_witness :
  exists result counters',
    conditionalForwarder (ext := example_collaborators)
      [edge_to_reduce; edge_tagged; edge_to_sink] ["key"] ["odd"] ∅
    = Ok ((result, nil_error), counters')
    /\ reachable counters'
    /\ Forall2 assignment_for [edge_to_reduce; edge_tagged; edge_to_sink] result.
Proof.
  apply (route_in_range (ext := example_collaborators)
           [edge_to_reduce; edge_tagged; edge_to_sink] ["key"] ["odd"] ∅).
  - apply reach_fresh.
  - repeat constructor; simpl; lia.
  - intros Hin. apply elem_of_cons in Hin as [Heq|Hin]; [discriminate Heq|].
    inversion Hin.
Defined.

Lemma route_frame_witness :
  (<["sink" := 1]> {["numbers" := 2]} : gmap string Z) !! "numbers"
  = ({["numbers" := 2]} : gmap string Z) !! "numbers".
Proof.
  apply (route_frame (ext := example_collaborators)
           [edge_to_reduce; edge_to_sink] ["key"] [] {["numbers" := 2]}
           (<["sink" := 1]> {["numbers" := 2]})
           [ {| ToVertexName := "reduce"; ToVertexPartitionIdx := 3 |};
             {| ToVertexName := "sink"; ToVertexPartitionIdx := 1 |} ]
           nil_error "numbers").
  - vm_compute. reflexivity.
  - intros edge Hin _ _.
    apply elem_of_cons in Hin as [->|Hin]; [discriminate|].
    apply elem_of_cons in Hin as [->|Hin]; [discriminate|].
    inversion Hin.
Defined.

Lemma route_stream_round_robin_witness :
  exists results counters',
    routeAll (ext := example_collaborators) [edge_to_sink]
      [(["a"], []); (["b"], ["DROP"]); (["c"], ["odd"])]%string ∅
    = Ok (results, counters')
    /\ Forall2 (fun r routed =>
                  length routed
                  = if StringSliceContains r.2 "DROP" then 0%nat else 1%nat)
               [(["a"], []); (["b"], ["DROP"]); (["c"], ["odd"])]%string results
    /\ concat results
       = [ {| ToVertexName := "sink"; ToVertexPartitionIdx := 1 |};
           {| ToVertexName := "sink"; ToVertexPartitionIdx := 0 |} ].
Proof.
  assert (Hcount : 1 <= GetToVertexPartitionCount edge_to_sink <= 2 ^ 31)
    by (simpl; lia).
  exact (route_stream_round_robin (ext := example_collaborators) edge_to_sink
           [(["a"], []); (["b"], ["DROP"]); (["c"], ["odd"])]%string ∅
           eq_refl eq_refl Hcount reach_fresh).
Defined.

(** ** The shuffle function map *)

Lemma populate_sound (edges : list Edge) (m0 : gmap string Shuffle)
    (key : string) (s : Shuffle) :
  foldl populateStep m0 edges !! key = Some s ->
  m0 !! key = Some s
  \/ exists edge, edge ∈ edges /\ needShuffle edge = true
                  /\ shuffleKey edge = key
                  /\ s = NewShuffle (To edge) (GetToVertexPartitionCount edge).
Proof.
  revert m0. induction edges as [|e edges IH]; intros m0 Hs; [left; exact Hs|].
  simpl in Hs. apply IH in Hs as [Hs|(edge & Hin & Hrest)].
  - unfold populateStep in Hs. destruct (needShuffle e) eqn:Hneed; [|left; exact Hs].
    rewrite lookup_insert in Hs. destruct (decide (shuffleKey e = key)) as [Hk|_].
    + injection Hs as <-. right. exists e. split; [apply list_elem_of_here | auto].
    + left. exact Hs.
  - right. exists edge. split; [apply list_elem_of_further, Hin | exact Hrest].
Qed.

Lemma populate_skips (edges : list Edge) (m0 : gmap string Shuffle) (key : string) :
  (forall e, e ∈ edges -> needShuffle e = true -> shuffleKey e <> key) ->
  foldl populateStep m0 edges !! key = m0 !! key.
Proof.
  revert m0. induction edges as [|e edges IH]; intros m0 Hother; [reflexivity|].
  simpl. rewrite IH by (intros e' He'; apply Hother, list_elem_of_further, He').
  unfold populateStep. destruct (needShuffle e) eqn:Hneed; [|reflexivity].
  apply lookup_insert_ne. apply Hother; [apply list_elem_of_here | exact Hneed].
Qed.

(** X9.  What the shuffle function map holds.  Every entry of the map built
    for an input partition is the shuffle function of an edge of the vertex
    that goes to a reduce vertex with more than one partition: it sits
    under that edge's [From:To] key and was built for the edge's
    destination and partition count, so it never shuffles over fewer than
    two partitions. *)
Theorem shuffle_map_sound (ToEdges : list Edge) (key : string) (s : Shuffle) :
  populateShuffleFuncMap ToEdges !! key = Some s ->
  exists edge,
    edge ∈ ToEdges
    /\ ToVertexType edge = VertexTypeReduceUDF
    /\ shuffleKey edge = key
    /\ s = NewShuffle (To edge) (GetToVertexPartitionCount edge)
    /\ 1 < buffersCount s.
Proof.
  intros Hs. apply populate_sound in Hs as [Hs|(edge & Hin & Hneed & Hk & ->)].
  - rewrite lookup_empty in Hs. discriminate.
  - apply andb_true_iff in Hneed as [Htype Hcount].
    apply bool_decide_eq_true in Htype. apply Z.ltb_lt in Hcount.
    exists edge. simpl. auto.
Qed.

Lemma shuffle_map_sound_witness :
  exists edge,
    edge ∈ [edge_to_reduce; edge_to_sink]
    /\ ToVertexType edge = VertexTypeReduceUDF
    /\ shuffleKey edge = "map:reduce"%string
    /\ NewShuffle "reduce" 4 = NewShuffle (To edge) (GetToVertexPartitionCount edge)
    /\ 1 < buffersCount (NewShuffle "reduce" 4).
Proof.
  apply (shuffle_map_sound [edge_to_reduce; edge_to_sink] "map:reduce"
           (NewShuffle "reduce" 4)).
  vm_compute. reflexivity.
Defined.

(** X10.  The last edge wins its key.  An edge to a reduce vertex with more
    than one partition finds under its [From:To] key the shuffle function
    built for its own destination and partition count, provided no later
    shuffling edge of the list has the same key; a later one would have
    overwritten the entry. *)
Theorem shuffle_map_last_wins (before after : list Edge) (edge : Edge) :
  ToVertexType edge = VertexTypeReduceUDF ->
  1 < GetToVertexPartitionCount edge ->
  (forall e, e ∈ after -> needShuffle e = true -> shuffleKey e <> shuffleKey edge) ->
  populateShuffleFuncMap (before ++ edge :: after) !! shuffleKey edge
  = Some (NewShuffle (To edge) (GetToVertexPartitionCount edge)).
Proof.
  intros Htype Hcount Hlater. unfold populateShuffleFuncMap.
  rewrite foldl_app. simpl. rewrite populate_skips by exact Hlater.
  unfold populateStep at 1.
  assert (Hneed : needShuffle edge = true).
  { unfold needShuffle. apply andb_true_iff. split;
      [apply bool_decide_eq_true; exact Htype | apply Z.ltb_lt; exact Hcount]. }
  rewrite Hneed. apply lookup_insert_eq.
Qed.

(** An edge list in which two edges to reduce vertices share the key
    [a:b:c]. *)
Lemma shuffle_map_last_wins_witness :
  populateShuffleFuncMap
    ([ {| From := "a:b"; To := "c"; Conditions := None;
          ToVertexType := VertexTypeReduceUDF; GetToVertexPartitionCount := 2 |} ]
     ++ {| From := "a"; To := "b:c"; Conditions := None;
           ToVertexType := VertexTypeReduceUDF; GetToVertexPartitionCount := 5 |}
     :: [edge_to_sink])
  !! "a:b:c"
  = Some (NewShuffle "b:c" 5).
Proof.
  apply (shuffle_map_last_wins
           [ {| From := "a:b"; To := "c"; Conditions := None;
                ToVertexType := VertexTypeReduceUDF; GetToVertexPartitionCount := 2 |} ]
           [edge_to_sink]
           {| From := "a"; To := "b:c"; Conditions := None;
              ToVertexType := VertexTypeReduceUDF; GetToVertexPartitionCount := 5 |}).
  - reflexivity.
  - simpl. lia.
  - intros e Hin Hneed.
    apply elem_of_cons in Hin as [->|Hin]; [discriminate Hneed | inversion Hin].
Defined.

(** ** The lifecycle: exits, releases and the join *)

(** Case analysis of the provisioning before the loop, answer by answer. *)
Ltac provisioning_cases w :=
  unfold provisioningPhase, provision, connectHandler, check, try;
  destruct (NewClientPool w); cbn;
  [| destruct (ISBSvcType w); cbn;
     [ destruct (buildRedisBufferIO w); cbn
     | destruct (WatermarkDisabled w); cbn;
       [| destruct (BuildProcessorManagers w); cbn;
          [ destruct (BuildToVertexWatermarkStores w); cbn;
            [ destruct (buildJetStreamBufferIO w); cbn | ] | ] ]
     | ] ];
  try (destruct (MapUdfStreamEnabled w) as [[|]|]; cbn;
       [ destruct (mapstreamer_New w); cbn; [| destruct (WaitUntilReady w); cbn ]
       | destruct (mapper_New w); cbn; [| destruct (WaitUntilReady w); cbn ]
       | ]).

(** The deferred functions pending at the end of the provisioning, however
    it ends: the close of the handler connection if the readiness check has
    passed, the close of the NATS pool if it was created, and [cancel]. *)
Lemma deferred_provisioningPhase_any (w : World) :
  deferred (provisioningPhase w)
  = (match result (provisioningPhase w) with
     | inl _ => [deferredCloseConn w]
     | inr _ => []
     end)
    ++ (match NewClientPool w with
        | None => [[EvClose NatsClientPool nil_error]]
        | Some _ => []
        end)
    ++ [[EvCancel]].
Proof. provisioning_cases w; reflexivity. Qed.

Ltac absent H :=
  repeat (apply elem_of_cons in H as [H|H]; [discriminate H|]); inversion H.

Ltac present := repeat first [apply list_elem_of_here | apply list_elem_of_further].

(** The provisioning goes through exactly when the readiness check of the
    handler has passed. *)
Lemma provisioningPhase_ready (w : World) :
  (exists p, result (provisioningPhase w) = inl p)
  <-> EvCall CallWaitUntilReady nil_error ∈ emitted (provisioningPhase w).
Proof.
  provisioning_cases w;
    (split; [intros [p Hp]; first [discriminate Hp | solve [present]]
            | intros Hin; first [solve [eauto] | solve [absent Hin]]]).
Qed.

(** On JetStream with the watermark disabled nothing is assigned to
    [readers]. *)
Lemma provisioningPhase_without_watermark (w : World) (p : Provisioned) :
  ISBSvcType w = ISBSvcTypeJetStream -> WatermarkDisabled w = true ->
  result (provisioningPhase w) = inl p ->
  readers p = [] /\ processorManagers p = [] /\ wmStores p = [].
Proof.
  revert p. provisioning_cases w; intros p Hsvc Hwm Hp;
    try discriminate; injection Hp as <-; auto.
Qed.

(** How the loop over the input partitions can end early. *)
Lemma forEachIndexed_startPartition_exits w readers partitions :
  forall index x,
  let r := forEachIndexed (startPartition w readers) index partitions in
  result r = inr x ->
  (exists err, x = Returned (Some err))
  \/ (x = Panicked IndexOutOfRange
      /\ exists j, (index <= j < index + length partitions)%nat
                   /\ readers !! j = None
                   /\ started (emitted r) = take (j - index) partitions).
Proof.
  induction partitions as [|b rest IH]; intros index x; simpl.
  - discriminate.
  - destruct (readers !! index) as [reader|] eqn:Hreader.
    2:{ rewrite (startPartition_panics w readers index b Hreader).
        unfold andThen; simpl. intros [= <-]. right. split; [reflexivity|].
        exists index. rewrite Nat.sub_diag. repeat split; [lia | lia | assumption]. }
    destruct (NewInterStepDataForward w index) as [err|] eqn:Hnew.
    + rewrite (startPartition_fails w readers index b reader err Hreader Hnew).
      unfold andThen; simpl. intros [= <-]. left. eauto.
    + rewrite (startPartition_starts w readers index b reader Hreader Hnew).
      unfold andThen; simpl. intros Hres.
      destruct (IH (S index) x Hres) as [Herr|(-> & j & Hj & Hnone & Hs)];
        [left; exact Herr|].
      right. split; [reflexivity|]. exists j. split; [lia|]. split; [assumption|].
      replace (j - index)%nat with (S (j - S index)) by lia.
      unfold started in *. simpl. f_equal. exact Hs.
Qed.

(** X11.  How [Start] ends.  [Start] returns nil exactly when it has reached
    [finalWg.Wait()]; every other run ends in a non-nil error or in a panic.
    The only panic is the index out of range of [readers[index]]: it
    happens when the provisioning has left fewer readers than there are
    input partitions, at the first partition without a reader, after the
    workers of the partitions before it have been started. *)
Theorem Start_exits (w : World) :
  (EvWait ∈ (Start w).1 <-> (Start w).2 = Returned nil_error)
  /\ (forall q, (Start w).2 = Panicked q ->
        q = IndexOutOfRange
        /\ exists p index,
             result (provisioningPhase w) = inl p
             /\ (index < length (OwnedBuffers w))%nat
             /\ readers p !! index = None
             /\ started (Start w).1 = take index (OwnedBuffers w)).
Proof.
  pose proof (setup_provisioningPhase w) as (Hsetup & _ & Hres).
  destruct (result (provisioningPhase w)) as [p|x] eqn:Hp.
  2:{ destruct Hres as [err ->].
      rewrite (Start_provisioning_fails w _ Hp). cbn [fst snd].
      split; [split|]; try discriminate.
      intros Hin. exfalso. apply elem_of_app in Hin as [Hin|Hin]; revert Hin.
      - apply (uniform_not_join 0); [lia | apply emitted_provisioningPhase_early].
      - apply (uniform_not_join 5); [lia | apply setup_late]. }
  destruct (result (runningPhase w p)) as [[]|x] eqn:Hr.
  2:{ rewrite (Start_running_fails w p x Hp Hr). cbn [fst snd].
      pose proof (forEachIndexed_startPartition_exits w (readers p)
                    (OwnedBuffers w) 0 x Hr) as Hx.
      split; [split|].
      - intros Hin. exfalso.
        apply elem_of_app in Hin as [Hin|Hin];
          [|apply elem_of_app in Hin as [Hin|Hin]]; revert Hin.
        + apply (uniform_not_join 0); [lia | apply emitted_provisioningPhase_early].
        + apply (uniform_not_join 0); [lia | apply emitted_runningPhase_early].
        + apply (uniform_not_join 5); [lia | apply lateCloses_phase].
      - intros ->. destruct Hx as [[err Herr]|[Hq _]]; discriminate.
      - intros q ->. destruct Hx as [[err Herr]|(Hq & j & Hj & Hnone & Hs)];
          [discriminate|].
        injection Hq as ->. split; [reflexivity|].
        exists p, j. split; [reflexivity|]. split; [lia|]. split; [assumption|].
        rewrite !started_app, (started_setup _ Hsetup).
        fold (runningPhase w p) in Hs. rewrite Hs, Nat.sub_0_r.
        rewrite (started_late (lateCloses w)); [apply app_nil_r|].
        eapply Forall_impl; [apply lateCloses_phase|]. simpl. intros; lia. }
  destruct (MetricsServerStart w) as [err|] eqn:Hm.
  - rewrite (Start_metrics_fails w p err Hp Hr Hm). cbn [fst snd].
    split; [split|]; try discriminate.
    intros Hin. exfalso.
    apply elem_of_app in Hin as [Hin|Hin];
      [|apply elem_of_app in Hin as [Hin|Hin]]; revert Hin.
    + apply (uniform_not_join 0); [lia | apply emitted_provisioningPhase_early].
    + apply (uniform_not_join 0); [lia | apply emitted_runningPhase_early].
    + intros Hin. apply elem_of_cons in Hin as [Hin|Hin]; [discriminate|].
      revert Hin. apply (uniform_not_join 5); [lia | apply lateCloses_phase].
  - rewrite (Start_around_join w p Hp Hr Hm). cbn [fst snd].
    split; [split|]; try discriminate; [reflexivity|].
    intros _. apply elem_of_app. right. apply list_elem_of_here.
Qed.

Lemma body_event_phase (t : list event) :
  Forall (fun e => (phase e <= 4)%nat) t -> Forall (fun e => body_event e = true) t.
Proof.
  intros H. eapply Forall_impl; [exact H|].
  intros e He. destruct e as [| | | | |r ?|r|]; simpl in *;
    try reflexivity; try lia; destruct r; simpl in *; try reflexivity; lia.
Qed.

Lemma body_event_uniform (k : nat) (t : list event) :
  (k <= 4)%nat -> Forall (fun e => phase e = k) t ->
  Forall (fun e => body_event e = true) t.
Proof.
  intros Hk H. apply body_event_phase. eapply Forall_impl; [exact H|].
  intros e He. simpl in He. lia.
Qed.

Lemma provisioned_with_pool (w : World) (p : Provisioned) :
  result (provisioningPhase w) = inl p -> NewClientPool w = None.
Proof. revert p. provisioning_cases w; intros p Hp; (discriminate || reflexivity). Qed.

Lemma lateCloses_releases (w : World) (p : Provisioned) :
  result (provisioningPhase w) = inl p -> lateCloses w = releases w.
Proof.
  intros Hp. unfold lateCloses, releases.
  rewrite Hp, (provisioned_with_pool w p Hp). reflexivity.
Qed.

(** Every run of [Start] is a body followed by the releases. *)
Lemma Start_releases (w : World) :
  exists front,
    (Start w).1 = front ++ releases w
    /\ Forall (fun e => body_event e = true) front
    /\ (EvWait ∉ (Start w).1 -> closed front = []).
Proof.
  pose proof (setup_provisioningPhase w) as (Hsetup & _ & Hres).
  pose proof (body_event_uniform 0 _ ltac:(lia) (emitted_provisioningPhase_early w))
    as Hprov.
  destruct (result (provisioningPhase w)) as [p|x] eqn:Hp.
  2:{ exists (emitted (provisioningPhase w)).
      rewrite (Start_provisioning_fails w x Hp). cbn [fst snd].
      split; [|split; [exact Hprov | intros _; apply closed_setup, Hsetup]].
      f_equal. rewrite deferred_provisioningPhase_any. unfold releases.
      rewrite Hp. destruct (NewClientPool w); reflexivity. }
  pose proof (body_event_uniform 0 _ ltac:(lia) (emitted_runningPhase_early w p))
    as Hrun.
  assert (Hclosed0 : closed (emitted (provisioningPhase w)
                             ++ emitted (runningPhase w p)) = []).
  { rewrite closed_app, (closed_setup _ Hsetup).
    apply (closed_early _ (emitted_runningPhase_early w p)). }
  destruct (result (runningPhase w p)) as [[]|x] eqn:Hr.
  2:{ exists (emitted (provisioningPhase w) ++ emitted (runningPhase w p)).
      rewrite (Start_running_fails w p x Hp Hr). cbn [fst snd].
      rewrite (lateCloses_releases w p Hp), <- app_assoc.
      split; [reflexivity|]. split; [apply Forall_app; auto | auto]. }
  destruct (MetricsServerStart w) as [err|] eqn:Hm.
  - exists (emitted (provisioningPhase w) ++ emitted (runningPhase w p)
            ++ [EvCall CallMetricsServerStart (Some err)]).
    rewrite (Start_metrics_fails w p err Hp Hr Hm). cbn [fst snd].
    rewrite (lateCloses_releases w p Hp), <- !app_assoc.
    split; [reflexivity|]. split.
    + rewrite !Forall_app. repeat split; auto; repeat constructor.
    + intros _. rewrite app_assoc, closed_app, Hclosed0. reflexivity.
  - exists (beforeJoin w p ++ EvWait
            :: (closesOfManagers p ++ closesOfPublishers p ++ closesOfStores p)
            ++ [EvClose MetricsServer nil_error]).
    rewrite (Start_around_join w p Hp Hr Hm). cbn [fst snd].
    unfold afterJoin. rewrite (lateCloses_releases w p Hp).
    split; [|split].
    + rewrite <- !app_assoc. simpl. rewrite <- !app_assoc. reflexivity.
    + apply Forall_app. split.
      * apply (body_event_uniform 0); [lia | apply beforeJoin_early].
      * constructor; [reflexivity|]. apply Forall_app. split.
        -- apply body_event_phase. destruct (closes_staged p) as [_ H].
           eapply Forall_impl; [exact H|]. intros e He. simpl in He. lia.
        -- repeat constructor.
    + intros Hno. exfalso. apply Hno.
      apply elem_of_app. right. apply list_elem_of_here.
Qed.

Lemma closed_body_only (front : list event) (r : resource) :
  Forall (fun e => body_event e = true) front ->
  r ∈ closed front -> r <> NatsClientPool /\ r <> HandlerConn.
Proof.
  induction 1 as [|e t He _ IH]; intros Hin; [inversion Hin|].
  unfold closed in *. destruct e as [| | | | |r' ?|r'|]; simpl in *; try (apply IH, Hin).
  apply elem_of_cons in Hin as [->|Hin]; [|apply IH, Hin].
  destruct r'; simpl in He; split; congruence.
Qed.

Lemma closed_releases (w : World) :
  closed (releases w)
  = (match result (provisioningPhase w) with
     | inl _ => [HandlerConn]
     | inr _ => []
     end)
    ++ (match NewClientPool w with
        | None => [NatsClientPool]
        | Some _ => []
        end).
Proof.
  unfold releases, deferredCloseConn.
  destruct (result (provisioningPhase w)), (NewClientPool w), (CloseConn w);
    reflexivity.
Qed.

(** X12.  What is released on every path.  Whatever way [Start] leaves, by
    a nil return, an error or a panic, [cancel()] is the last thing it does
    and it does it once; the NATS client pool is closed exactly when it was
    created; and the handler connection is closed exactly when the
    readiness check has passed. *)
Theorem Start_releases_on_every_path (w : World) :
  (exists front, (Start w).1 = front ++ [EvCancel] /\ EvCancel ∉ front)
  /\ (NatsClientPool ∈ closed (Start w).1 <-> NewClientPool w = None)
  /\ (HandlerConn ∈ closed (Start w).1
      <-> EvCall CallWaitUntilReady nil_error ∈ (Start w).1).
Proof.
  destruct (Start_releases w) as (front & Htrace & Hfront & _).
  rewrite Htrace. split; [|split].
  - unfold releases. rewrite !app_assoc. eexists. split; [reflexivity|].
    intros Hin. rewrite <- app_assoc in Hin.
    apply elem_of_app in Hin as [Hin|Hin].
    + rewrite Forall_forall in Hfront. specialize (Hfront _ Hin). discriminate.
    + unfold deferredCloseConn in Hin.
      destruct (result (provisioningPhase w)), (NewClientPool w), (CloseConn w);
        simpl in Hin; absent Hin.
  - rewrite closed_app, closed_releases. split.
    + intros Hin. apply elem_of_app in Hin as [Hin|Hin].
      * destruct (closed_body_only front _ Hfront Hin) as [Hne _]. congruence.
      * destruct (NewClientPool w); [|reflexivity].
        destruct (result (provisioningPhase w)); simpl in Hin; absent Hin.
    + intros ->. apply elem_of_app. right.
      apply elem_of_app. right. apply list_elem_of_here.
  - rewrite closed_app, closed_releases.
    assert (Hready : EvCall CallWaitUntilReady nil_error ∈ front ++ releases w
                     <-> exists p, result (provisioningPhase w) = inl p).
    { rewrite provisioningPhase_ready. rewrite <- Htrace.
      pose proof (setup_provisioningPhase w) as (Hsetup & _ & Hres).
      destruct (result (provisioningPhase w)) as [p|x] eqn:Hp.
      - destruct (result (runningPhase w p)) as [[]|x] eqn:Hr;
          [destruct (MetricsServerStart w) as [err|] eqn:Hm|].
        + rewrite (Start_metrics_fails w p err Hp Hr Hm). cbn [fst snd].
          assert (Hin : EvCall CallWaitUntilReady nil_error
                        ∈ emitted (provisioningPhase w))
            by (apply provisioningPhase_ready; eauto).
          split; [auto | intros _; apply elem_of_app; auto].
        + rewrite (Start_joins w p Hp Hr Hm). cbn [fst snd].
          assert (Hin : EvCall CallWaitUntilReady nil_error
                        ∈ emitted (provisioningPhase w))
            by (apply provisioningPhase_ready; eauto).
          split; [auto | intros _; apply elem_of_app; auto].
        + rewrite (Start_running_fails w p x Hp Hr). cbn [fst snd].
          assert (Hin : EvCall CallWaitUntilReady nil_error
                        ∈ emitted (provisioningPhase w))
            by (apply provisioningPhase_ready; eauto).
          split; [auto | intros _; apply elem_of_app; auto].
      - rewrite (Start_provisioning_fails w x Hp). cbn [fst snd].
        rewrite elem_of_app. split; [|auto].
        intros [Hin|Hin]; [exact Hin|]. exfalso.
        pose proof (setup_late w) as Hlate. rewrite Forall_forall in Hlate.
        specialize (Hlate _ Hin). discriminate. }
    rewrite Hready. split.
    + intros Hin. apply elem_of_app in Hin as [Hin|Hin].
      * destruct (closed_body_only front _ Hfront Hin) as [_ Hne]. congruence.
      * destruct (result (provisioningPhase w)) as [p|x]; [eauto|].
        destruct (NewClientPool w); simpl in Hin; absent Hin.
    + intros [p Hp]. rewrite Hp. apply elem_of_app. right.
      apply list_elem_of_here.
Qed.

(** X13.  What an aborted run leaves open.  A run of [Start] that does not
    reach [finalWg.Wait()] closes nothing but the handler connection and
    the NATS client pool: the processor managers, the watermark publishers
    and the watermark stores that the provisioning may have built are not
    closed on that path. *)
Theorem aborted_run_closes (w : World) :
  EvWait ∉ (Start w).1 ->
  Forall (fun r => r = HandlerConn \/ r = NatsClientPool) (closed (Start w).1).
Proof.
  intros Hno. destruct (Start_releases w) as (front & Htrace & _ & Hclosed).
  rewrite Htrace, closed_app, (Hclosed Hno), closed_releases.
  destruct (result (provisioningPhase w)), (NewClientPool w); simpl;
    repeat (apply Forall_cons; split; [tauto|]); apply Forall_nil_2.
Qed.

Lemma aborted_run_closes_witness :
(EvWait ∉ (Start world_second_forwarder_fails).1)
  /\ Forall (fun r => r = HandlerConn \/ r = NatsClientPool)
            (closed (Start world_second_forwarder_fails).1).
Proof.
  assert (Hno : EvWait ∉ (Start world_second_forwarder_fails).1).
  { intros Hin. vm_compute in Hin. absent Hin. }
  split; [exact Hno|].
  exact (aborted_run_closes world_second_forwarder_fails Hno).
Defined.

(** How [Start] ends, phase by phase. *)
Lemma Start_exit (w : World) :
  (Start w).2
  = match result (provisioningPhase w) with
    | inr x => x
    | inl p =>
        match result (runningPhase w p) with
        | inr x => x
        | inl _ =>
            match MetricsServerStart w with
            | Some err =>
                Returned (Some ("failed to start metrics server, error: " ++ err)%string)
            | None => Returned nil_error
            end
        end
    end.
Proof.
  destruct (result (provisioningPhase w)) as [p|x] eqn:Hp.
  2:{ rewrite (Start_provisioning_fails w x Hp). reflexivity. }
  destruct (result (runningPhase w p)) as [[]|x] eqn:Hr.
  2:{ rewrite (Start_running_fails w p x Hp Hr). reflexivity. }
  destruct (MetricsServerStart w) as [err|] eqn:Hm.
  - rewrite (Start_metrics_fails w p err Hp Hr Hm). reflexivity.
  - rewrite (Start_joins w p Hp Hr Hm). reflexivity.
Qed.

(** The loop panics exactly when it gets to a partition without a reader:
    every partition before it has a reader and a forwarder. *)
Lemma forEachIndexed_startPartition_panics w readers partitions :
  forall index,
  result (forEachIndexed (startPartition w readers) index partitions)
  = inr (Panicked IndexOutOfRange)
  <-> exists j, (index <= j < index + length partitions)%nat
                /\ readers !! j = None
                /\ forall i, (index <= i < j)%nat ->
                             is_Some (readers !! i)
                             /\ NewInterStepDataForward w i = None.
Proof.
  induction partitions as [|b rest IH]; intros index; simpl.
  - split; [discriminate|]. intros (j & Hj & _). lia.
  - destruct (readers !! index) as [reader|] eqn:Hreader.
    2:{ rewrite (startPartition_panics w readers index b Hreader).
        unfold andThen; simpl. split; [intros _|reflexivity].
        exists index. split; [lia|]. split; [assumption|]. intros i Hi. lia. }
    destruct (NewInterStepDataForward w index) as [err|] eqn:Hnew.
    + rewrite (startPartition_fails w readers index b reader err Hreader Hnew).
      unfold andThen; simpl. split; [discriminate|].
      intros (j & Hj & Hnone & Hbefore). exfalso.
      destruct (decide (j = index)) as [->|Hne]; [congruence|].
      destruct (Hbefore index ltac:(lia)) as [_ Hok]. congruence.
    + rewrite (startPartition_starts w readers index b reader Hreader Hnew).
      unfold andThen; simpl. rewrite (IH (S index)). split.
      * intros (j & Hj & Hnone & Hbefore). exists j.
        split; [lia|]. split; [assumption|]. intros i Hi.
        destruct (decide (i = index)) as [->|Hne]; [|apply Hbefore; lia].
        rewrite Hreader. split; [eauto | assumption].
      * intros (j & Hj & Hnone & Hbefore).
        assert (j <> index) by congruence.
        exists j. split; [lia|]. split; [assumption|].
        intros i Hi. apply Hbefore. lia.
Qed.

Lemma runningPhase_panics (w : World) (p : Provisioned) :
  result (runningPhase w p) = inr (Panicked IndexOutOfRange)
  <-> (length (readers p) < length (OwnedBuffers w))%nat
      /\ forall i, (i < length (readers p))%nat -> NewInterStepDataForward w i = None.
Proof.
  unfold runningPhase. rewrite forEachIndexed_startPartition_panics. split.
  - intros (j & Hj & Hnone & Hbefore).
    apply lookup_ge_None in Hnone.
    assert (j = length (readers p)) as ->.
    { destruct (decide (length (readers p) < j)%nat) as [Hlt|]; [|lia].
      destruct (Hbefore (length (readers p)) ltac:(lia)) as [Hsome _].
      apply lookup_lt_is_Some in Hsome. lia. }
    split; [lia|]. intros i Hi. apply Hbefore. lia.
  - intros [Hlt Hok]. exists (length (readers p)).
    split; [lia|]. split; [apply lookup_ge_None; lia|].
    intros i Hi. split; [apply lookup_lt_is_Some; lia | apply Hok; lia].
Qed.

(** X14.  When [Start] panics.  [Start] panics at [readers[index]] exactly
    when the provisioning has gone through, it has left fewer readers than
    the vertex owns input partitions, and the forwarder of every partition
    that has a reader could be constructed. *)
Theorem Start_panics_iff (w : World) :
  (Start w).2 = Panicked IndexOutOfRange
  <-> exists p,
        result (provisioningPhase w) = inl p
        /\ (length (readers p) < length (OwnedBuffers w))%nat
        /\ forall i, (i < length (readers p))%nat ->
                     NewInterStepDataForward w i = None.
Proof.
  rewrite Start_exit.
  pose proof (setup_provisioningPhase w) as (_ & _ & Hres).
  destruct (result (provisioningPhase w)) as [p|x] eqn:Hp.
  - assert (Hiff : match result (runningPhase w p) with
                   | inl _ =>
                       match MetricsServerStart w with
                       | Some err =>
                           Returned
                             (Some ("failed to start metrics server, error: " ++ err)%string)
                       | None => Returned nil_error
                       end
                   | inr x => x
                   end = Panicked IndexOutOfRange
                   <-> result (runningPhase w p) = inr (Panicked IndexOutOfRange)).
    { destruct (result (runningPhase w p)) as [[]|x].
      - destruct (MetricsServerStart w); split; discriminate.
      - split; [intros ->; reflexivity | intros [= ->]; reflexivity]. }
    rewrite Hiff, runningPhase_panics. split.
    + intros H. exists p. split; [reflexivity | exact H].
    + intros (p' & [= <-] & H). exact H.
  - destruct Hres as [err ->]. split; [discriminate|].
    intros (p & Hp' & _). discriminate.
Qed.

(** X15.  JetStream with the watermark disabled.  That branch of the
    provisioning assigns nothing to [readers].  With at least one input
    partition such a run never returns nil and never starts a worker: it
    returns the error of an earlier failure, or, once the readiness check
    of the handler has passed, it panics at [readers[0]]. *)
Theorem Start_without_readers (w : World) :
  ISBSvcType w = ISBSvcTypeJetStream ->
  WatermarkDisabled w = true ->
  OwnedBuffers w <> [] ->
  (Start w).2 <> Returned nil_error
  /\ started (Start w).1 = []
  /\ (EvCall CallWaitUntilReady nil_error ∈ (Start w).1
      <-> (Start w).2 = Panicked IndexOutOfRange).
Proof.
  intros Hsvc Hwm Hbuffers.
  pose proof (setup_provisioningPhase w) as (Hsetup & _ & Hres).
  destruct (result (provisioningPhase w)) as [p|x] eqn:Hp.
  - destruct (provisioningPhase_without_watermark w p Hsvc Hwm Hp) as (Hreaders & _).
    assert (Hr : runningPhase w p = MkRun [] [] (inr (Panicked IndexOutOfRange))).
    { unfold runningPhase. rewrite Hreaders.
      destruct (OwnedBuffers w) as [|b rest]; [contradiction|]. simpl.
      rewrite (startPartition_panics w [] 0 b eq_refl). reflexivity. }
    rewrite (Start_running_fails w p (Panicked IndexOutOfRange) Hp)
      by (rewrite Hr; reflexivity).
    rewrite Hr. cbn [fst snd emitted]. split; [discriminate|]. split.
    + rewrite !started_app, (started_setup _ Hsetup).
      rewrite (started_late (lateCloses w)); [reflexivity|].
      eapply Forall_impl; [apply lateCloses_phase|]. simpl. intros; lia.
    + split; [reflexivity|]. intros _. apply elem_of_app. left.
      apply provisioningPhase_ready. eauto.
  - destruct Hres as [err ->].
    rewrite (Start_provisioning_fails w _ Hp). cbn [fst snd].
    split; [discriminate|]. split.
    + rewrite started_app, (started_setup _ Hsetup).
      rewrite (started_late (concat (deferred (provisioningPhase w))));
        [reflexivity|].
      eapply Forall_impl; [apply setup_late|]. simpl. intros; lia.
    + split; [|discriminate]. intros Hin. exfalso.
      apply elem_of_app in Hin as [Hin|Hin].
      * apply provisioningPhase_ready in Hin as [p Hp']. congruence.
      * pose proof (setup_late w) as Hlate. rewrite Forall_forall in Hlate.
        specialize (Hlate _ Hin). discriminate.
Qed.

Lemma Start_without_readers_witness :
  (Start world_watermark_disabled).2 <> Returned nil_error
  /\ started (Start world_watermark_disabled).1 = []
  /\ (EvCall CallWaitUntilReady nil_error ∈ (Start world_watermark_disabled).1
      <-> (Start world_watermark_disabled).2 = Panicked IndexOutOfRange).
Proof.
  apply (Start_without_readers world_watermark_disabled);
    [reflexivity | reflexivity | discriminate].
Defined.

(** *** The calling goroutine and the workers *)

(** The calling goroutine is never blocked but at the join. *)
Lemma act_runs (s : system) (e : event) (rest : list event) :
  pending s = e :: rest -> e <> EvWait ->
  exists s',
    act s = Some s'
    /\ pending s' = rest
    /\ executed s' = executed s ++ [e]
    /\ workers s' = workers s ++ (forwarding <$> started [e])
    /\ (ctxDone s = true -> ctxDone s' = true).
Proof.
  intros Hp He. unfold act. rewrite Hp.
  destruct e; try contradiction; eexists; (split; [reflexivity|]);
    simpl; rewrite ?app_nil_r; auto.
Qed.

Lemma main_runs (pre : list event) :
  forall s rest,
  EvWait ∉ pre -> pending s = pre ++ rest ->
  exists s',
    rtc step s s'
    /\ pending s' = rest
    /\ executed s' = executed s ++ pre
    /\ workers s' = workers s ++ (forwarding <$> started pre)
    /\ (ctxDone s = true -> ctxDone s' = true).
Proof.
  induction pre as [|e pre IH]; intros s rest Hno Hp.
  - exists s. simpl. rewrite !app_nil_r. repeat split; auto. apply rtc_refl.
  - apply not_elem_of_cons in Hno as [He Hno].
    destruct (act_runs s e (pre ++ rest) Hp ltac:(congruence))
      as (s1 & Hact & Hp1 & He1 & Hw1 & Hc1).
    destruct (IH s1 rest Hno Hp1) as (s2 & Hrun & Hp2 & He2 & Hw2 & Hc2).
    exists s2. split; [eapply rtc_l; [apply step_start; exact Hact | exact Hrun]|].
    split; [exact Hp2|]. split; [rewrite He2, He1, <- app_assoc; reflexivity|].
    split; [|auto].
    rewrite Hw2, Hw1, <- app_assoc, <- fmap_app, <- started_app. reflexivity.
Qed.

Lemma insert_middle_worker (done todo : list (string * worker_state))
    (x y : string * worker_state) :
  <[length done := x]> (done ++ y :: todo) = done ++ x :: todo.
Proof. rewrite insert_app_r_alt by lia. rewrite Nat.sub_diag. reflexivity. Qed.

(** Once the context is cancelled, every worker can stop and return. *)
Lemma workers_drain (todo : list (string * worker_state)) :
  forall done s,
  workers s = done ++ todo -> Forall has_exited done -> ctxDone s = true ->
  exists s',
    rtc step s s'
    /\ pending s' = pending s
    /\ executed s' = executed s
    /\ ctxDone s' = true
    /\ Forall has_exited (workers s').
Proof.
  induction todo as [|[name st] todo IH]; intros done s Hws Hdone Hctx.
  - exists s. rewrite Hws, app_nil_r. repeat split; auto. apply rtc_refl.
  - assert (Hexit : forall s1,
              workers s1 = done ++ (name, Stopping) :: todo -> ctxDone s1 = true ->
              exists s', rtc step s1 s' /\ pending s' = pending s1
                         /\ executed s' = executed s1 /\ ctxDone s' = true
                         /\ Forall has_exited (workers s')).
    { intros s1 Hws1 Hctx1.
      assert (Hi : workers s1 !! length done = Some (name, Stopping))
        by (rewrite Hws1; apply list_lookup_middle; reflexivity).
      destruct (IH (done ++ [(name, Exited)])
                  {| pending := pending s1; executed := executed s1;
                     workers := <[length done := (name, Exited)]> (workers s1);
                     finalWg := finalWg s1 - 1; ctxDone := ctxDone s1 |})
        as (s' & Hrun & Hp & He & Hc & Hall).
      - simpl. rewrite Hws1, insert_middle_worker, <- app_assoc. reflexivity.
      - apply Forall_app. split; [exact Hdone|]. repeat constructor.
      - exact Hctx1.
      - exists s'. split; [|auto].
        eapply rtc_l; [apply (step_exit s1 (length done) name Hi) | exact Hrun]. }
    destruct st.
    + assert (Hi : workers s !! length done = Some (name, Forwarding))
        by (rewrite Hws; apply list_lookup_middle; reflexivity).
      destruct (Hexit (set_worker (length done) name Stopping s))
        as (s' & Hrun & Hp & He & Hc & Hall).
      * simpl. rewrite Hws. apply insert_middle_worker.
      * exact Hctx.
      * exists s'. split; [|auto].
        eapply rtc_l; [apply (step_stop s (length done) name Hi Hctx) | exact Hrun].
    + exact (Hexit s Hws Hctx).
    + apply (IH (done ++ [(name, Exited)]) s).
      * rewrite Hws, <- app_assoc. reflexivity.
      * apply Forall_app. split; [exact Hdone|]. repeat constructor.
      * exact Hctx.
Qed.

Lemma exits_all_exited (ws : list (string * worker_state)) :
  Forall has_exited ws -> exits ws = length ws.
Proof.
  induction 1 as [|x ws Hx _ IH]; [reflexivity|].
  unfold exits in *. rewrite filter_cons.
  destruct (decide (has_exited x)); [simpl; lia | contradiction].
Qed.

(** No worker leaves [<-ctx.Done()] before the context is cancelled, and
    the calling goroutine cancels it last. *)
Lemma forwarding_until_cancelled (program : list event) (s : system) :
  reaches program s -> ctxDone s = false ->
  Forall (fun x => x.2 = Forwarding) (workers s).
Proof.
  intros Hreach. unfold reaches in Hreach. revert s Hreach.
  apply (rtc_ind_r (fun s => ctxDone s = false ->
                             Forall (fun x => x.2 = Forwarding) (workers s))
                   (initial program)).
  - intros _. constructor.
  - intros s1 s2 _ Hstep IH.
    destruct Hstep as [s s' Hact|s|s i name Hi Hdone|s i name Hi]; simpl.
    + unfold act in Hact. destruct (pending s) as [|e rest]; [discriminate|].
      destruct e; try (injection Hact as <-; simpl; exact IH).
      * injection Hact as <-. simpl. intros Hctx. apply Forall_app.
        split; [auto | repeat constructor].
      * destruct (decide (finalWg s = 0)); [|discriminate].
        injection Hact as <-. simpl. exact IH.
      * injection Hact as <-. simpl. discriminate.
    + discriminate.
    + intros Hctx. congruence.
    + intros Hctx. specialize (IH Hctx). rewrite Forall_lookup in IH.
      specialize (IH i _ Hi). discriminate.
Qed.

(** [cancel()] leaves the context cancelled for good. *)
Lemma cancel_is_final (program : list event) (s : system) :
  reaches program s -> EvCancel ∈ executed s -> ctxDone s = true.
Proof.
  intros Hreach. unfold reaches in Hreach. revert s Hreach.
  apply (rtc_ind_r (fun s => EvCancel ∈ executed s -> ctxDone s = true)
                   (initial program)).
  - intros H. inversion H.
  - intros s1 s2 _ Hstep IH.
    destruct Hstep as [s s' Hact|s|s i name Hi Hdone|s i name Hi]; simpl; auto.
    unfold act in Hact. destruct (pending s) as [|e rest]; [discriminate|].
    destruct e; try (destruct (decide (finalWg s = 0)); [|discriminate]);
      injection Hact as <-; simpl; intros H; try reflexivity;
      (apply elem_of_app in H as [H|H];
       [auto | apply elem_of_cons in H as [H|H]; [discriminate H | inversion H]]).
Qed.

Lemma phase_not_in (k : nat) (t : list event) (e : event) :
  Forall (fun e => phase e = k) t -> phase e <> k -> e ∉ t.
Proof.
  intros H Hne Hin. rewrite Forall_forall in H. exact (Hne (H e Hin)).
Qed.

Lemma metrics_not_in_loop w readers partitions err :
  forall index,
  EvCall CallMetricsServerStart err
  ∉ emitted (forEachIndexed (startPartition w readers) index partitions).
Proof.
  induction partitions as [|b rest IH]; intros index; simpl.
  - intros Hin. inversion Hin.
  - destruct (readers !! index) as [reader|] eqn:Hreader.
    2:{ rewrite (startPartition_panics w readers index b Hreader).
        unfold andThen; simpl. intros Hin. inversion Hin. }
    destruct (NewInterStepDataForward w index) as [err'|] eqn:Hnew.
    + rewrite (startPartition_fails w readers index b reader err' Hreader Hnew).
      unfold andThen; simpl. intros Hin. absent Hin.
    + rewrite (startPartition_starts w readers index b reader Hreader Hnew).
      unfold andThen; simpl. intros Hin.
      repeat (apply elem_of_cons in Hin as [Hin|Hin]; [discriminate Hin|]).
      exact (IH (S index) Hin).
Qed.

(** A failed start of the metrics server is found only in runs that have
    started every worker. *)
Lemma metrics_failure_origin (w : World) (err : string) :
  EvCall CallMetricsServerStart (Some err) ∈ (Start w).1 ->
  exists p,
    result (provisioningPhase w) = inl p
    /\ result (runningPhase w p) = inl tt
    /\ MetricsServerStart w = Some err.
Proof.
  intros Hin.
  pose proof (setup_provisioningPhase w) as (Hsetup & _ & _).
  assert (Hprov : EvCall CallMetricsServerStart (Some err)
                  ∉ emitted (provisioningPhase w)).
  { intros H. rewrite Forall_forall in Hsetup. specialize (Hsetup _ H).
    discriminate. }
  destruct (result (provisioningPhase w)) as [p|x] eqn:Hp.
  2:{ exfalso. rewrite (Start_provisioning_fails w x Hp) in Hin. cbn [fst] in Hin.
      apply elem_of_app in Hin as [Hin|Hin]; [exact (Hprov Hin)|].
      revert Hin. apply (phase_not_in 5); [apply setup_late | discriminate]. }
  assert (Hlate : EvCall CallMetricsServerStart (Some err) ∉ lateCloses w)
    by (apply (phase_not_in 5); [apply lateCloses_phase | discriminate]).
  pose proof (metrics_not_in_loop w (readers p) (OwnedBuffers w) (Some err) 0)
    as Hloop. fold (runningPhase w p) in Hloop.
  destruct (result (runningPhase w p)) as [[]|x] eqn:Hr.
  2:{ exfalso. rewrite (Start_running_fails w p x Hp Hr) in Hin. cbn [fst] in Hin.
      apply elem_of_app in Hin as [Hin|Hin]; [exact (Hprov Hin)|].
      apply elem_of_app in Hin as [Hin|Hin]; [exact (Hloop Hin) | exact (Hlate Hin)]. }
  destruct (MetricsServerStart w) as [err'|] eqn:Hm.
  - rewrite (Start_metrics_fails w p err' Hp Hr Hm) in Hin. cbn [fst] in Hin.
    apply elem_of_app in Hin as [Hin|Hin]; [destruct (Hprov Hin)|].
    apply elem_of_app in Hin as [Hin|Hin]; [destruct (Hloop Hin)|].
    apply elem_of_cons in Hin as [Hin|Hin]; [|destruct (Hlate Hin)].
    injection Hin as ->. eauto.
  - exfalso. rewrite (Start_joins w p Hp Hr Hm) in Hin. cbn [fst] in Hin.
    apply elem_of_app in Hin as [Hin|Hin]; [exact (Hprov Hin)|].
    apply elem_of_app in Hin as [Hin|Hin]; [exact (Hloop Hin)|].
    apply elem_of_cons in Hin as [Hin|Hin]; [discriminate|].
    apply elem_of_cons in Hin as [Hin|Hin]; [discriminate|].
    pose proof (afterJoin_staged w p) as [_ Hafter]. unfold afterJoin in Hafter.
    rewrite Forall_forall in Hafter. specialize (Hafter _ Hin). simpl in Hafter. lia.
Qed.

(** X16.  A metrics server that does not start.  When [ms.Start] fails,
    [Start] returns its error wrapped, after the worker of every input
    partition has been started and without [finalWg.Wait()]: the calling
    goroutine can run to its end while every worker is still forwarding,
    and nothing has waited for them. *)
Theorem metrics_failure_strands_workers (w : World) (err : string) :
  EvCall CallMetricsServerStart (Some err) ∈ (Start w).1 ->
  (Start w).2
  = Returned (Some ("failed to start metrics server, error: " ++ err)%string)
  /\ started (Start w).1 = OwnedBuffers w
  /\ (EvWait ∉ (Start w).1)
  /\ exists s,
       reaches (Start w).1 s
       /\ pending s = []
       /\ executed s = (Start w).1
       /\ workers s = forwarding <$> OwnedBuffers w.
Proof.
  intros Hin. destruct (metrics_failure_origin w err Hin) as (p & Hp & Hr & Hm).
  pose proof (setup_provisioningPhase w) as (Hsetup & _ & _).
  destruct (forEachIndexed_startPartition w (readers p) (OwnedBuffers w) 0)
    as (_ & _ & Hok & _).
  destruct (Hok Hr) as (Hs & _ & _). fold (runningPhase w p) in Hs.
  assert (Hlate : started (lateCloses w) = []).
  { apply started_late. eapply Forall_impl; [apply lateCloses_phase|].
    simpl. intros; lia. }
  assert (Hstarted : started (Start w).1 = OwnedBuffers w).
  { rewrite (Start_metrics_fails w p err Hp Hr Hm). cbn [fst].
    rewrite !started_app, (started_setup _ Hsetup), Hs, Hlate.
    simpl. apply app_nil_r. }
  assert (Hno : EvWait ∉ (Start w).1).
  { rewrite (Start_metrics_fails w p err Hp Hr Hm). cbn [fst]. intros H.
    apply elem_of_app in H as [H|H];
      [|apply elem_of_app in H as [H|H]]; revert H.
    - apply (uniform_not_join 0); [lia | apply emitted_provisioningPhase_early].
    - apply (uniform_not_join 0); [lia | apply emitted_runningPhase_early].
    - intros H. apply elem_of_cons in H as [H|H]; [discriminate|].
      revert H. apply (uniform_not_join 5); [lia | apply lateCloses_phase]. }
  split; [rewrite (Start_metrics_fails w p err Hp Hr Hm); reflexivity|].
  split; [exact Hstarted|]. split; [exact Hno|].
  destruct (main_runs (Start w).1 (initial (Start w).1) [] Hno)
    as (s & Hrun & Hpending & Hexecuted & Hworkers & _).
  { simpl. rewrite app_nil_r. reflexivity. }
  exists s. split; [exact Hrun|]. split; [exact Hpending|].
  split; [exact Hexecuted|]. rewrite Hworkers, Hstarted. reflexivity.
Qed.

Lemma metrics_failure_strands_workers_witness :
  (Start world_metrics_fails).2
  = Returned (Some "failed to start metrics server, error: address already in use"%string)
  /\ started (Start world_metrics_fails).1 = ["in-0"; "in-1"]%string
  /\ (EvWait ∉ (Start world_metrics_fails).1)
  /\ exists s,
       reaches (Start world_metrics_fails).1 s
       /\ pending s = []
       /\ executed s = (Start world_metrics_fails).1
       /\ workers s = forwarding <$> ["in-0"; "in-1"]%string.
Proof.
  apply (metrics_failure_strands_workers world_metrics_fails "address already in use").
  apply list_elem_of_In. vm_compute. tauto.
Defined.

(** X17.  The join waits for a cancellation.  In a run of a vertex with at
    least one input partition, as long as nothing has cancelled the
    context no worker has left [<-ctx.Done()] and the calling goroutine
    has not passed [finalWg.Wait()].  [Start] cancels the context itself
    only in a deferred function, after the join: it gets past the join
    only when the context it was given is cancelled. *)
Theorem join_waits_for_cancellation (w : World) (s : system) :
  OwnedBuffers w <> [] ->
  reaches (Start w).1 s ->
  ctxDone s = false ->
  Forall (fun x => x.2 = Forwarding) (workers s)
  /\ (EvWait ∉ executed s)
  /\ (EvCancel ∉ executed s).
Proof.
  intros Hbuffers Hreach Hctx.
  pose proof (forwarding_until_cancelled _ s Hreach Hctx) as Hfwd.
  destruct (invariant_reaches _ s (Start_join_ready w) Hreach)
    as [Hprog Hws _ Hjoin].
  split; [exact Hfwd|].
  assert (Hwait : EvWait ∉ executed s).
  { intros Hwait.
    assert (Hin : EvWait ∈ (Start w).1)
      by (rewrite <- Hprog; apply elem_of_app; left; exact Hwait).
    destruct (Start_reaches_join w Hin) as (p & Hp & Hr & Hm).
    rewrite (Start_around_join w p Hp Hr Hm) in Hprog. cbn [fst] in Hprog.
    destruct (executed_past_join (beforeJoin w p) (afterJoin w p)
                (executed s) (pending s) EvWait Hprog (beforeJoin_early w p) Hwait)
      as (rest & Hexec & _); [discriminate|].
    specialize (Hjoin Hwait).
    assert (Hnames : (workers s).*1 = OwnedBuffers w ++ started (EvWait :: rest)).
    { rewrite Hws, Hexec, started_app.
      destruct (beforeJoin_started w p Hr) as [-> _]. reflexivity. }
    destruct (workers s) as [|x ws].
    - destruct (OwnedBuffers w); [contradiction | discriminate Hnames].
    - apply Forall_cons in Hfwd as [Hx _]. apply Forall_cons in Hjoin as [Hx' _].
      unfold has_exited in Hx'. congruence. }
  split; [exact Hwait|].
  intros Hcancel. rewrite (cancel_is_final _ s Hreach Hcancel) in Hctx.
  discriminate.
Qed.

Lemma join_waits_for_cancellation_witness :
  reaches (Start world_jetstream).1 system_at_join
  /\ Forall (fun x => x.2 = Forwarding) (workers system_at_join)
  /\ (EvWait ∉ executed system_at_join)
  /\ (EvCancel ∉ executed system_at_join).
Proof.
  assert (Hreach : reaches (Start world_jetstream).1 system_at_join).
  { unfold reaches.
    do 14 (eapply rtc_l; [apply step_start; vm_compute; reflexivity|]).
    vm_compute. apply rtc_refl. }
  split; [exact Hreach|].
  apply (join_waits_for_cancellation world_jetstream);
    [discriminate | exact Hreach | reflexivity].
Defined.

(** *** [finalWg.Add(1)] comes before [go] *)

Lemma adds_first_app (t1 t2 : list event) :
  adds_first t1 -> adds_first t2 -> adds_first (t1 ++ t2).
Proof.
  intros H1 H2 before after Heq.
  apply app_eq_inv in Heq as [(k & -> & Hk)|(k & -> & Hk)].
  - exact (H1 before k eq_refl).
  - rewrite started_app, adds_app, length_app.
    pose proof (H1 t1 [] (eq_sym (app_nil_r t1))).
    pose proof (H2 k after Hk). lia.
Qed.

Lemma adds_first_quiet (t : list event) : started t = [] -> adds_first t.
Proof.
  intros H before after ->. rewrite started_app in H.
  apply app_eq_nil in H as [-> _]. simpl. lia.
Qed.

Lemma adds_first_turn (c : callee) (err : error) (name : string) :
  adds_first [EvCall c err; EvAdd; EvGo name].
Proof.
  intros before after Heq.
  destruct before as [|e1 [|e2 [|e3 [|e4 before]]]]; simpl in Heq.
  - simpl. lia.
  - injection Heq as <- _. vm_compute. lia.
  - injection Heq as <- <- _. vm_compute. lia.
  - injection Heq as <- <- <- _. vm_compute. lia.
  - discriminate Heq.
Qed.

Lemma forEachIndexed_adds_first w readers partitions :
  forall index,
  let r := forEachIndexed (startPartition w readers) index partitions in
  adds_first (emitted r)
  /\ (adds (emitted r) <= length partitions)%nat
  /\ adds (emitted r) = length (started (emitted r)).
Proof.
  induction partitions as [|b rest IH]; intros index; simpl.
  - split; [apply adds_first_quiet; reflexivity | unfold adds; simpl; lia].
  - destruct (readers !! index) as [reader|] eqn:Hreader.
    2:{ rewrite (startPartition_panics w readers index b Hreader).
        unfold andThen; simpl.
        split; [apply adds_first_quiet; reflexivity | unfold adds; simpl; lia]. }
    destruct (NewInterStepDataForward w index) as [err|] eqn:Hnew.
    + rewrite (startPartition_fails w readers index b reader err Hreader Hnew).
      unfold andThen; simpl.
      split; [apply adds_first_quiet; reflexivity | unfold adds; simpl; lia].
    + rewrite (startPartition_starts w readers index b reader Hreader Hnew).
      unfold andThen; simpl. destruct (IH (S index)) as (Hfirst & Hle & Heq).
      split; [|split].
      * apply (adds_first_app [_; _; _]); [apply adds_first_turn | exact Hfirst].
      * change (S (adds (emitted (forEachIndexed (startPartition w readers)
                                    (S index) rest))) <= S (length rest))%nat.
        lia.
      * change (S (adds (emitted (forEachIndexed (startPartition w readers)
                                    (S index) rest)))
                = S (length (started (emitted (forEachIndexed
                                                 (startPartition w readers)
                                                 (S index) rest))))).
        lia.
Qed.

Lemma adds_first_late (t : list event) :
  Forall (fun e => phase e <> 0%nat) t ->
  adds_first t /\ adds t = 0%nat /\ started t = [].
Proof.
  intros H. split; [apply adds_first_quiet, started_late, H|].
  split; [apply adds_late, H | apply started_late, H].
Qed.

Lemma late_uniform (k : nat) (t : list event) :
  k <> 0%nat -> Forall (fun e => phase e = k) t ->
  Forall (fun e => phase e <> 0%nat) t.
Proof.
  intros Hk H. eapply Forall_impl; [exact H|]. intros e He. simpl in He. lia.
Qed.

(** In every run of [Start], each [go] comes after its [finalWg.Add(1)],
    there is at most one [Add] for each input partition, and as many
    workers are started as there are [Add]s. *)
Lemma Start_adds_first (w : World) :
  adds_first (Start w).1
  /\ (adds (Start w).1 <= length (OwnedBuffers w))%nat
  /\ adds (Start w).1 = length (started (Start w).1).
Proof.
  pose proof (setup_provisioningPhase w) as (Hsetup & _ & _).
  pose proof (started_setup _ Hsetup) as Hprov1.
  pose proof (adds_first_quiet _ Hprov1) as Hprov.
  pose proof (adds_setup _ Hsetup) as Hprov0.
  destruct (result (provisioningPhase w)) as [p|x] eqn:Hp.
  2:{ rewrite (Start_provisioning_fails w x Hp). cbn [fst].
      destruct (adds_first_late _ (late_uniform 5 _ ltac:(lia) (setup_late w)))
        as (Hlate & Hlate0 & Hlate1).
      split; [apply adds_first_app; assumption|].
      rewrite started_app, adds_app, Hprov0, Hlate0, Hprov1, Hlate1. simpl. lia. }
  assert (Hloop : adds_first (emitted (runningPhase w p))
                  /\ (adds (emitted (runningPhase w p))
                      <= length (OwnedBuffers w))%nat
                  /\ adds (emitted (runningPhase w p))
                     = length (started (emitted (runningPhase w p))))
    by apply (forEachIndexed_adds_first w (readers p) (OwnedBuffers w) 0).
  destruct Hloop as (Hrun & Hrun0 & Hrun1).
  destruct (adds_first_late _ (late_uniform 5 _ ltac:(lia) (lateCloses_phase w)))
    as (Hlate & Hlate0 & Hlate1).
  destruct (result (runningPhase w p)) as [[]|x] eqn:Hr.
  2:{ rewrite (Start_running_fails w p x Hp Hr). cbn [fst].
      split; [apply adds_first_app; [exact Hprov|];
              apply adds_first_app; [exact Hrun | exact Hlate]|].
      rewrite !started_app, !adds_app, Hprov0, Hlate0, Hprov1, Hlate1, !length_app.
      simpl. lia. }
  destruct (MetricsServerStart w) as [err|] eqn:Hm.
  - rewrite (Start_metrics_fails w p err Hp Hr Hm). cbn [fst].
    split.
    + apply adds_first_app; [exact Hprov|].
      apply adds_first_app; [exact Hrun|].
      apply adds_first_app; [apply adds_first_quiet; reflexivity | exact Hlate].
    + rewrite !started_app, !adds_app, Hprov0, Hlate0, Hprov1, Hlate1, !length_app.
      change (adds [EvCall CallMetricsServerStart (Some err)]) with 0%nat.
      change (started [EvCall CallMetricsServerStart (Some err)]) with (@nil string).
      simpl. lia.
  - rewrite (Start_around_join w p Hp Hr Hm). cbn [fst].
    destruct (adds_first_late (EvWait :: afterJoin w p))
      as (Hafter & Hafter0 & Hafter1).
    { constructor; [discriminate|].
      apply (staged_not_early 2 5); [lia | apply afterJoin_staged]. }
    unfold beforeJoin. split.
    + apply adds_first_app; [|exact Hafter].
      apply adds_first_app; [exact Hprov|].
      apply adds_first_app; [exact Hrun | apply adds_first_quiet; reflexivity].
    + rewrite !started_app, !adds_app, Hprov0, Hafter0, Hprov1, Hafter1, !length_app.
      change (adds [EvCall CallMetricsServerStart nil_error]) with 0%nat.
      change (started [EvCall CallMetricsServerStart nil_error]) with (@nil string).
      simpl. lia.
Qed.

(** X18.  The wait group.  Throughout every run of [Start], every worker
    that has been started has been counted by a [finalWg.Add(1)] before,
    the counter of [finalWg] stays between zero and the number of input
    partitions (so no [Done] can bring it below zero), and the counter is
    zero only when every worker started so far has returned. *)
Theorem wait_group_counter (w : World) (s : system) :
  reaches (Start w).1 s ->
  (length (workers s) <= adds (executed s) <= length (OwnedBuffers w))%nat
  /\ 0 <= finalWg s <= Z.of_nat (length (OwnedBuffers w))
  /\ (finalWg s = 0 -> Forall has_exited (workers s)).
Proof.
  intros Hreach.
  destruct (invariant_reaches _ s (Start_join_ready w) Hreach)
    as [Hprog Hws Hwg _].
  destruct (Start_adds_first w) as (Hfirst & Hbound & _).
  pose proof (Hfirst (executed s) (pending s) (eq_sym Hprog)) as Hle.
  assert (Hlen : length (workers s) = length (started (executed s))).
  { rewrite <- Hws. symmetry. apply length_fmap. }
  rewrite <- Hprog, adds_app in Hbound.
  pose proof (exits_le (workers s)) as Hexits.
  split; [lia|]. split; [lia|].
  intros Hzero. apply exits_all. lia.
Qed.

Lemma wait_group_counter_witness :
  reaches (Start world_jetstream).1 system_at_join
  /\ (length (workers system_at_join) <= adds (executed system_at_join)
      <= length (OwnedBuffers world_jetstream))%nat
  /\ 0 <= finalWg system_at_join <= Z.of_nat (length (OwnedBuffers world_jetstream))
  /\ (finalWg system_at_join = 0 -> Forall has_exited (workers system_at_join)).
Proof.
  assert (Hreach : reaches (Start world_jetstream).1 system_at_join).
  { unfold reaches.
    do 14 (eapply rtc_l; [apply step_start; vm_compute; reflexivity|]).
    vm_compute. apply rtc_refl. }
  split; [exact Hreach|].
  exact (wait_group_counter world_jetstream system_at_join Hreach).
Defined.

(** *** The run can always be brought to its end *)

Lemma can_finish (program : list event) :
  join_ready program ->
  forall l s,
  pending s = l -> reaches program s -> ctxDone s = true ->
  exists s', rtc step s s' /\ pending s' = [] /\ Forall has_exited (workers s').
Proof.
  intros Hready. induction l as [|e l IH]; intros s Hpending Hreach Hctx.
  - destruct (workers_drain (workers s) [] s eq_refl ltac:(constructor) Hctx)
      as (s' & Hrun & Hp & _ & _ & Hall).
    exists s'. split; [exact Hrun|]. split; [congruence | exact Hall].
  - destruct (decide (e = EvWait)) as [->|He].
    + destruct (workers_drain (workers s) [] s eq_refl ltac:(constructor) Hctx)
        as (s1 & Hrun1 & Hp1 & _ & Hctx1 & Hall1).
      assert (Hreach1 : reaches program s1)
        by (unfold reaches in *; eapply rtc_trans; eassumption).
      destruct (invariant_reaches _ s1 Hready Hreach1) as [Hprog Hws Hwg _].
      rewrite Hp1, Hpending in Hprog.
      destruct (Hready (executed s1) l (eq_sym Hprog)) as [Hadds _].
      assert (Hzero : finalWg s1 = 0).
      { rewrite Hwg, Hadds, (exits_all_exited _ Hall1), <- Hws, length_fmap. lia. }
      assert (Hact : act s1
                     = Some {| pending := l; executed := executed s1 ++ [EvWait];
                               workers := workers s1; finalWg := finalWg s1;
                               ctxDone := ctxDone s1 |}).
      { unfold act. rewrite Hp1, Hpending.
        destruct (decide (finalWg s1 = 0)); [reflexivity | contradiction]. }
      destruct (IH {| pending := l; executed := executed s1 ++ [EvWait];
                      workers := workers s1; finalWg := finalWg s1;
                      ctxDone := ctxDone s1 |} eq_refl)
        as (s' & Hrun & Hp & Hall).
      * unfold reaches in *. eapply rtc_r; [exact Hreach1|].
        apply step_start. exact Hact.
      * exact Hctx1.
      * exists s'. split; [|auto].
        eapply rtc_trans; [exact Hrun1|].
        eapply rtc_l; [apply step_start; exact Hact | exact Hrun].
    + destruct (act_runs s e l Hpending He) as (s1 & Hact & Hp1 & _ & _ & Hctx1).
      destruct (IH s1 Hp1) as (s' & Hrun & Hp & Hall).
      * unfold reaches in *. eapply rtc_r; [exact Hreach|].
        apply step_start. exact Hact.
      * exact (Hctx1 Hctx).
      * exists s'. split; [|auto].
        eapply rtc_l; [apply step_start; exact Hact | exact Hrun].
Qed.

(** X19.  No run gets stuck.  From every state that a run of [Start]
    passes through, the run can be brought to its end: once the context is
    cancelled, every worker that has been started can stop and return,
    which lets the calling goroutine through [finalWg.Wait()], and the
    calling goroutine then executes everything that is left, up to the
    last deferred function.  (A worker returns when its forwarder, told to
    stop, closes the channel the worker waits on.) *)
Theorem Start_can_finish (w : World) (s : system) :
  reaches (Start w).1 s ->
  exists s',
    rtc step s s'
    /\ pending s' = []
    /\ executed s' = (Start w).1
    /\ (workers s').*1 = started (Start w).1
    /\ Forall has_exited (workers s')
    /\ finalWg s' = 0.
Proof.
  intros Hreach.
  set (s0 := {| pending := pending s; executed := executed s;
                workers := workers s; finalWg := finalWg s; ctxDone := true |}).
  assert (Hreach0 : reaches (Start w).1 s0)
    by (unfold reaches in *; eapply rtc_r; [exact Hreach | apply step_sigterm]).
  destruct (can_finish _ (Start_join_ready w) _ s0 eq_refl Hreach0 eq_refl)
    as (s' & Hrun & Hp & Hall).
  assert (Hreach' : reaches (Start w).1 s')
    by (unfold reaches in *; eapply rtc_trans; eassumption).
  destruct (invariant_reaches _ s' (Start_join_ready w) Hreach')
    as [Hprog Hws Hwg _].
  rewrite Hp, app_nil_r in Hprog.
  exists s'. split; [eapply rtc_l; [apply step_sigterm | exact Hrun]|].
  split; [exact Hp|]. split; [exact Hprog|].
  rewrite Hprog in Hws, Hwg.
  split; [exact Hws|]. split; [exact Hall|].
  destruct (Start_adds_first w) as (_ & _ & Hadds).
  rewrite Hwg, (exits_all_exited _ Hall), Hadds, <- Hws, length_fmap. lia.
Qed.

Lemma Start_can_finish_witness :
  reaches (Start world_jetstream).1 system_at_join
  /\ exists s',
       rtc step system_at_join s'
       /\ pending s' = []
       /\ executed s' = (Start world_jetstream).1
       /\ (workers s').*1 = started (Start world_jetstream).1
       /\ Forall has_exited (workers s')
       /\ finalWg s' = 0.
Proof.
  assert (Hreach : reaches (Start world_jetstream).1 system_at_join).
  { unfold reaches.
    do 14 (eapply rtc_l; [apply step_start; vm_compute; reflexivity|]).
    vm_compute. apply rtc_refl. }
  split; [exact Hreach|].
  exact (Start_can_finish world_jetstream system_at_join Hreach).
Defined.

(** ** The partition of a matched edge *)

Section MatchedEdge.

Context {ext : Collaborators}.









End MatchedEdge.



(** ** The order of the shutdown *)

(** Every run of [Start] is in order, also one that does not reach the
    join. *)
Lemma Start_in_order (w : World) : in_order (Start w).1.
Proof.
  pose proof (staged_uniform 0 _ (emitted_provisioningPhase_early w)) as Hprov.
  destruct (result (provisioningPhase w)) as [p|x] eqn:Hp.
  2:{ rewrite (Start_provisioning_fails w x Hp). cbn [fst].
      apply (staged_app 0 0 5 5); try lia; [exact Hprov|].
      apply staged_uniform, setup_late. }
  pose proof (staged_uniform 0 _ (emitted_runningPhase_early w p)) as Hrun.
  pose proof (staged_uniform 5 _ (lateCloses_phase w)) as Hlate.
  destruct (result (runningPhase w p)) as [[]|x] eqn:Hr.
  2:{ rewrite (Start_running_fails w p x Hp Hr). cbn [fst].
      apply (staged_app 0 0 0 5); try lia; [exact Hprov|].
      apply (staged_app 0 0 5 5); try lia; assumption. }
  destruct (MetricsServerStart w) as [err|] eqn:Hm.
  - rewrite (Start_metrics_fails w p err Hp Hr Hm). cbn [fst].
    apply (staged_app 0 0 0 5); try lia; [exact Hprov|].
    apply (staged_app 0 0 0 5); try lia; [exact Hrun|].
    apply (staged_app 0 0 5 5); try lia; [|exact Hlate].
    apply staged_uniform. repeat constructor.
  - rewrite (Start_around_join w p Hp Hr Hm). cbn [fst].
    change (EvWait :: afterJoin w p) with ([EvWait] ++ afterJoin w p).
    apply (staged_app 0 0 1 5); try lia.
    + apply staged_uniform, beforeJoin_early.
    + apply (staged_app 1 1 2 5); try lia.
      * apply staged_uniform. repeat constructor.
      * apply afterJoin_staged.
Qed.

(** In a run that does not reach the join, the only closes are those of
    the handler connection and of the NATS client pool. *)
Lemma close_without_join (w : World) (r : resource) (err : error) :
  EvWait ∉ (Start w).1 -> EvClose r err ∈ (Start w).1 ->
  r = HandlerConn \/ r = NatsClientPool.
Proof.
  intros Hno Hin.
  destruct (Start_releases w) as (front & Htrace & _ & Hclosed).
  assert (Hr : r ∈ closed (Start w).1).
  { unfold closed. apply list_elem_of_omap. exists (EvClose r err). auto. }
  rewrite Htrace, closed_app, (Hclosed Hno), closed_releases in Hr.
  destruct (result (provisioningPhase w)), (NewClientPool w);
    simpl in Hr; repeat (apply elem_of_cons in Hr as [Hr|Hr]; [auto|]);
    inversion Hr.
Qed.

(** [Start] returns nil only when it has gone through the join. *)
Lemma nil_return_joins (w : World) :
  (Start w).2 = Returned nil_error -> EvWait ∈ (Start w).1.
Proof.
  intros Hnil. rewrite Start_exit in Hnil.
  pose proof (setup_provisioningPhase w) as (_ & _ & Hres).
  destruct (result (provisioningPhase w)) as [p|x] eqn:Hp.
  2:{ destruct Hres as [e ->]. discriminate. }
  destruct (result (runningPhase w p)) as [[]|x] eqn:Hr.
  2:{ destruct (forEachIndexed_startPartition_exits w (readers p) (OwnedBuffers w)
                  0 x Hr) as [[e ->]|[-> _]]; discriminate. }
  destruct (MetricsServerStart w) as [e|] eqn:Hm; [discriminate|].
  rewrite (Start_around_join w p Hp Hr Hm). cbn [fst].
  apply elem_of_app. right. apply list_elem_of_here.
Qed.

(** C6.  The order of the shutdown.  Every run of [Start] is in order:
    the startup, then [finalWg.Wait()], then the close of every processor
    manager, then the close of every watermark publisher, then the close
    of every watermark store, then the deferred closes.  The join is a
    join: whenever the calling goroutine has executed the close of a
    processor manager, of a watermark publisher, of a watermark store or
    of the metrics server, and in a run that reaches the join whenever it
    has executed any close, it has executed the [Wait], a worker has been
    started for every input partition, and every worker has returned.
    And [Start] returns nil only when it has gone through the join and
    has closed everything that is to be closed. *)
Theorem shutdown_order (w : World) :
  in_order (Start w).1
  /\ (forall s r err,
        reaches (Start w).1 s -> EvClose r err ∈ executed s ->
        (r <> HandlerConn /\ r <> NatsClientPool) \/ EvWait ∈ (Start w).1 ->
        EvWait ∈ executed s
        /\ (workers s).*1 = OwnedBuffers w
        /\ Forall has_exited (workers s))
  /\ ((Start w).2 = Returned nil_error ->
      EvWait ∈ (Start w).1
      /\ exists p, result (provisioningPhase w) = inl p
                   /\ closed (Start w).1 = to_close p).
Proof.
  split; [apply Start_in_order|]. split.
  - intros s r err Hreach Hclose Hwhich.
    pose proof (Start_join_ready w) as Hready.
    destruct (invariant_reaches _ s Hready Hreach) as [Hprog Hws _ Hjoin].
    assert (Hin : EvWait ∈ (Start w).1).
    { destruct Hwhich as [[Hconn Hpool]|Hin]; [|exact Hin].
      destruct (decide (EvWait ∈ (Start w).1)) as [Hin|Hno]; [exact Hin|].
      exfalso.
      destruct (close_without_join w r err Hno); [|contradiction..].
      rewrite <- Hprog. apply elem_of_app. left. exact Hclose. }
    destruct (Start_reaches_join w Hin) as (p & Hp & Hr & Hm).
    rewrite (Start_around_join w p Hp Hr Hm) in Hprog. cbn [fst] in Hprog.
    destruct (executed_past_join (beforeJoin w p) (afterJoin w p)
                (executed s) (pending s) (EvClose r err))
      as (rest & Hexec & Hpost); try assumption.
    { apply beforeJoin_early. }
    { destruct r; simpl; lia. }
    assert (Hwait : EvWait ∈ executed s).
    { rewrite Hexec. apply elem_of_app. right. apply list_elem_of_here. }
    split; [exact Hwait|]. split; [|exact (Hjoin Hwait)].
    rewrite Hws, Hexec, started_app.
    destruct (beforeJoin_started w p Hr) as [-> _].
    change (started (EvWait :: rest)) with (started rest).
    rewrite (started_late rest); [apply app_nil_r|].
    pose proof (staged_not_early 2 5 _ ltac:(lia) (afterJoin_staged w p)) as Hlate.
    rewrite Hpost in Hlate. apply Forall_app in Hlate. apply Hlate.
  - intros Hnil. pose proof (nil_return_joins w Hnil) as Hin.
    split; [exact Hin|].
    destruct (Start_reaches_join w Hin) as (p & Hp & Hr & Hm).
    exists p. split; [exact Hp|].
    rewrite (Start_around_join w p Hp Hr Hm). cbn [fst].
    apply Start_closes_all.
Qed.

Lemma shutdown_order_witness :
  in_order (Start world_jetstream).1
  /\ (forall s r err,
        reaches (Start world_jetstream).1 s -> EvClose r err ∈ executed s ->
        (r <> HandlerConn /\ r <> NatsClientPool) \/ EvWait ∈ (Start world_jetstream).1 ->
        EvWait ∈ executed s
        /\ (workers s).*1 = OwnedBuffers world_jetstream
        /\ Forall has_exited (workers s))
  /\ ((Start world_jetstream).2 = Returned nil_error ->
      EvWait ∈ (Start world_jetstream).1
      /\ exists p, result (provisioningPhase world_jetstream) = inl p
                   /\ closed (Start world_jetstream).1 = to_close p).
Proof. exact (shutdown_order world_jetstream). Defined.

(** C6 as stated fails when the metrics server does not start: the workers
    of both input partitions have been started, [Start] leaves without
    [finalWg.Wait()], and its deferred functions close the handler
    connection and the NATS client pool while both workers are still
    forwarding and the context is not yet cancelled; the processor manager,
    the watermark publisher and the watermark store that were built are not
    closed before [Start] returns. *)
Lemma shutdown_order_counterexample :
  reaches (Start world_metrics_fails).1 system_stranded
  /\ EvClose HandlerConn nil_error ∈ executed system_stranded
  /\ EvClose NatsClientPool nil_error ∈ executed system_stranded
  /\ (EvWait ∉ executed system_stranded)
  /\ workers system_stranded = [("in-0"%string, Forwarding); ("in-1"%string, Forwarding)]
  /\ ctxDone system_stranded = false
  /\ (EvWait ∉ (Start world_metrics_fails).1)
  /\ (Start world_metrics_fails).2
     = Returned (Some "failed to start metrics server, error: address already in use"%string)
  /\ closed (Start world_metrics_fails).1 = [HandlerConn; NatsClientPool]
  /\ exists p,
       result (provisioningPhase world_metrics_fails) = inl p
       /\ to_close p
          = [ProcessorManager "from-a"; WatermarkPublisher "to-b"; WmStore "to-b";
             MetricsServer; HandlerConn; NatsClientPool]
       /\ closed (Start world_metrics_fails).1 <> to_close p.
Proof.
  split.
  { unfold reaches.
    do 16 (eapply rtc_l; [apply step_start; vm_compute; reflexivity|]).
    vm_compute. apply rtc_refl. }
  split; [apply list_elem_of_In; vm_compute; tauto|].
  split; [apply list_elem_of_In; vm_compute; tauto|].
  split.
  { intros Hin. apply list_elem_of_In in Hin. vm_compute in Hin.
    repeat (destruct Hin as [Hin|Hin]; [discriminate Hin|]). exact Hin. }
  split; [reflexivity|]. split; [reflexivity|].
  split.
  { intros Hin. apply list_elem_of_In in Hin. vm_compute in Hin.
    repeat (destruct Hin as [Hin|Hin]; [discriminate Hin|]). exact Hin. }
  split; [reflexivity|]. split; [reflexivity|].
  eexists. split; [reflexivity|]. split; [reflexivity|]. discriminate.
Qed.
